(** * Privacy gateway: masking and unmasking of sensitive data

    A shallow embedding of [privacy_gateway.py] (the pattern-based masker
    [PrivacyGateway]) and of [local_llm_gateway.py] (the model-assisted masker
    [LocalLLMGateway]), with the properties of the masking engine.

    Text is a list of 8-bit code points (the Latin-1 range of a Python [str]);
    the character classes below are those of Python's [re] on that range,
    and [upper] is [str.upper] on it. *)

From Stdlib Require Import Ascii String.
From Stdlib Require Import List Bool Arith Lia NArith ZArith.
From Stdlib Require DecimalString DecimalNat Decimal.
From Stdlib Require Import Permutation.
Import ListNotations.

Local Open Scope list_scope.

(** ** Strings *)

Definition str := list ascii.

Definition s2l (s : string) : str := list_ascii_of_string s.

Arguments s2l s%_string.

Definition ascii_eqb (a b : ascii) : bool := Ascii.eqb a b.

Fixpoint str_eqb (a b : str) : bool :=
  match a, b with
  | [], [] => true
  | x :: a', y :: b' => ascii_eqb x y && str_eqb a' b'
  | _, _ => false
  end.

(** [old] is a prefix of [s] (Python [s.startswith(old)]). *)
Fixpoint startswith (old s : str) : bool :=
  match old, s with
  | [], _ => true
  | x :: old', y :: s' => ascii_eqb x y && startswith old' s'
  | _ :: _, [] => false
  end.

(** Python [old in s]. *)
Fixpoint contains (old s : str) : bool :=
  startswith old s ||
  match s with
  | [] => false
  | _ :: s' => contains old s'
  end.

(** Python [s.replace(old, new)]: the non-overlapping occurrences of [old],
    found from the left, are all replaced.  [skip] counts the characters of an
    occurrence already replaced that are still to be passed over.  With an
    empty [old], Python inserts [new] before every character and at the end. *)
Fixpoint replace_go (old new s : str) (skip : nat) : str :=
  match s with
  | [] => []
  | c :: s' =>
      match skip with
      | S k => replace_go old new s' k
      | O => if startswith old s
             then new ++ replace_go old new s' (length old - 1)
             else c :: replace_go old new s' 0
      end
  end.

Definition replace (old new s : str) : str :=
  match old with
  | [] => new ++ flat_map (fun c => c :: new) s
  | _ :: _ => replace_go old new s 0
  end.

(** Decimal rendering of a counter ([str(n)] in an f-string). *)
Definition dec (n : nat) : str := s2l (DecimalString.NilEmpty.string_of_uint (Nat.to_uint n)).

Definition code (c : ascii) : N := N_of_ascii c.

Definition in_range (lo hi : N) (c : ascii) : bool :=
  (lo <=? code c)%N && (code c <=? hi)%N.

(** The capital of an ASCII letter; any other character as it is. *)
Definition upper_char (c : ascii) : ascii :=
  if in_range 97 122 c then ascii_of_N (code c - 32) else c.

(** [c.upper()] for a code point from 0 to 255: the small letters of ASCII
    and those from 224 to 254 (247, the division sign, apart) have their
    capital 32 below; the capital of 223, the sharp s, is the two letters
    [SS].  Two code points have a capital that is not an 8-bit code point,
    181 (capital U+039C) and 255 (capital U+0178): [upper_ok] excludes
    them, and a statement that depends on the capitals of a text that is
    not fixed assumes [upper_ok] of it. *)
Definition upper_of (c : ascii) : str :=
  if in_range 224 246 c || in_range 248 254 c then [ascii_of_N (code c - 32)]
  else if (code c =? 223)%N then s2l "SS"
  else [upper_char c].

(** [s.upper()] *)
Definition upper (s : str) : str := flat_map upper_of s.

Definition upper_ok (s : str) : bool :=
  forallb (fun c => negb ((code c =? 181)%N || (code c =? 255)%N)) s.

(** ** Character classes of the patterns *)

Definition is_digit (c : ascii) : bool := in_range 48 57 c.

(** [\s] on a [str] pattern. *)
Definition is_space (c : ascii) : bool :=
  in_range 9 13 c || in_range 28 32 c || (code c =? 133)%N || (code c =? 160)%N.

Definition is_alpha (c : ascii) : bool := in_range 65 90 c || in_range 97 122 c.

(** [\w] on a [str] pattern: alphanumeric code points and the underscore. *)
Definition is_word (c : ascii) : bool :=
  is_digit c || is_alpha c || (code c =? 95)%N
  || (code c =? 170)%N || (code c =? 178)%N || (code c =? 179)%N
  || (code c =? 181)%N || (code c =? 185)%N || (code c =? 186)%N
  || in_range 188 190 c || in_range 192 214 c || in_range 216 246 c
  || in_range 248 255 c.

Definition is_char (x : ascii) (c : ascii) : bool := ascii_eqb x c.

(** A literal character under [(?i)]. *)
Definition is_char_ci (x : ascii) (c : ascii) : bool :=
  ascii_eqb (upper_char x) (upper_char c).

Definition one_of (l : str) (c : ascii) : bool := existsb (ascii_eqb c) l.

(** [[-\s]] *)
Definition dash_space (c : ascii) : bool := is_char "-" c || is_space c.
(** [[-.\s]] *)
Definition dash_dot_space (c : ascii) : bool :=
  is_char "-" c || is_char "." c || is_space c.
(** [[a-zA-Z0-9._%+-]] *)
Definition email_local (c : ascii) : bool :=
  is_alpha c || is_digit c || one_of (s2l "._%+-") c.
(** [[a-zA-Z0-9.-]] *)
Definition email_domain (c : ascii) : bool :=
  is_alpha c || is_digit c || one_of (s2l ".-") c.

(** ** A backtracking matcher

    The fragment of Python's [re] that the patterns of the two gateways use:
    character classes, greedy bounded and unbounded repetition of a class, a
    greedy optional group, the word boundary and concatenation.  A match is
    computed as the list of all its alternatives in the order in which the
    backtracking engine tries them; the engine's answer is the first one. *)

Inductive regex : Type :=
| Eps
| Cls (p : ascii -> bool)
| Bnd
| Seq (r1 r2 : regex)
| Rep (p : ascii -> bool) (lo : nat) (hi : option nat)
| Opt (r : regex).

Fixpoint seqs (l : list regex) : regex :=
  match l with
  | [] => Eps
  | [r] => r
  | r :: l' => Seq r (seqs l')
  end.

(** A literal word, character by character. *)
Definition lit (s : str) : regex := seqs (map (fun c => Cls (is_char c)) s).
Definition lit_ci (s : str) : regex := seqs (map (fun c => Cls (is_char_ci c)) s).

Definition is_word_opt (o : option ascii) : bool :=
  match o with Some c => is_word c | None => false end.

(** [\b] between the character before the position and the one at it. *)
Definition is_boundary (prev : option ascii) (s : str) : bool :=
  xorb (is_word_opt prev) (is_word_opt (hd_error s)).

(** The character before the position reached after consuming [m]. *)
Definition lastc (prev : option ascii) (m : str) : option ascii :=
  fold_left (fun _ c => Some c) m prev.

Definition hi_allows (hi : option nat) : bool :=
  match hi with Some O => false | _ => true end.

Definition hi_pred (hi : option nat) : option nat :=
  match hi with Some n => Some (pred n) | None => None end.

(** All ways of consuming at most [hi] characters of class [p], longest first. *)
Fixpoint rep_ends (p : ascii -> bool) (hi : option nat) (s : str)
  : list (str * str) :=
  match s with
  | c :: s' =>
      if p c && hi_allows hi
      then map (fun '(m, r) => (c :: m, r)) (rep_ends p (hi_pred hi) s') ++ [([], s)]
      else [([], s)]
  | [] => [([], [])]
  end.

(** [mt r prev s]: the (consumed, remaining) pairs of the matches of [r] at
    the start of [s], the character before being [prev]. *)
Fixpoint mt (r : regex) (prev : option ascii) (s : str) : list (str * str) :=
  match r with
  | Eps => [([], s)]
  | Cls p => match s with
             | c :: s' => if p c then [([c], s')] else []
             | [] => []
             end
  | Bnd => if is_boundary prev s then [([], s)] else []
  | Seq r1 r2 =>
      flat_map (fun '(m1, s1) =>
                  map (fun '(m2, s2) => (m1 ++ m2, s2)) (mt r2 (lastc prev m1) s1))
               (mt r1 prev s)
  | Rep p lo hi =>
      filter (fun '(m, _) => lo <=? length m) (rep_ends p hi s)
  | Opt r1 => mt r1 prev s ++ [([], s)]
  end.

(** A pattern is a sequence of parts, captured ([Grp]) or not ([Raw]). *)
Inductive part : Type :=
| Grp (r : regex)
| Raw (r : regex).

Definition part_re (x : part) : regex :=
  match x with Grp r => r | Raw r => r end.

Definition pattern := list part.

(** A match: the captured groups in order, the whole matched text, the rest. *)
Definition found : Type := list str * str * str.

Fixpoint mt_pat (p : pattern) (prev : option ascii) (s : str) : list found :=
  match p with
  | [] => [([], [], s)]
  | x :: p' =>
      flat_map (fun '(m1, s1) =>
                  map (fun '(gs, w, s2) =>
                         (match x with Grp _ => m1 :: gs | Raw _ => gs end,
                          m1 ++ w, s2))
                      (mt_pat p' (lastc prev m1) s1))
               (mt (part_re x) prev s)
  end.

(** [match.group(i)], groups numbered from 1. *)
Definition group (gs : list str) (i : nat) : str := nth (pred i) gs [].

(** ** [re.sub] with a function as replacement

    The text is scanned from the left; at every position not inside a match
    already found, the pattern is tried; for a match the callback is called
    with the start position and the groups, and it returns the replacement
    together with the new state.  An empty match is replaced and the
    character after it copied. *)

Section Sub.
Context {St : Type}.
Variable p : pattern.
Variable f : nat -> list str -> St -> str * St.

Fixpoint sub_go (prev : option ascii) (pos : nat) (s : str) (skip : nat)
         (st : St) {struct s} : str * St :=
  match s with
  | [] =>
      match skip with
      | S _ => ([], st)
      | O => match mt_pat p prev [] with
             | (gs, _, _) :: _ => f pos gs st
             | [] => ([], st)
             end
      end
  | c :: s' =>
      match skip with
      | S k => sub_go (Some c) (S pos) s' k st
      | O =>
          match mt_pat p prev s with
          | (gs, w, _) :: _ =>
              let '(rep, st1) := f pos gs st in
              match w with
              | [] => let '(o, st2) := sub_go (Some c) (S pos) s' 0 st1 in
                      (rep ++ c :: o, st2)
              | _ :: w' =>
                  let '(o, st2) := sub_go (Some c) (S pos) s' (length w') st1 in
                  (rep ++ o, st2)
              end
          | [] => let '(o, st2) := sub_go (Some c) (S pos) s' 0 st in
                  (c :: o, st2)
          end
      end
  end.

Definition re_sub (text : str) (st : St) : str * St :=
  sub_go None 0 text 0 st.
End Sub.

(** ** Mappings

    A Python [dict] from placeholder to original value, in insertion order:
    assigning to a key that is present keeps its place and changes its value,
    assigning to a new key appends it. *)

Definition dict := list (str * str).

Fixpoint dict_set (d : dict) (k v : str) : dict :=
  match d with
  | [] => [(k, v)]
  | (k', v') :: d' => if str_eqb k' k then (k', v) :: d'
                      else (k', v') :: dict_set d' k v
  end.

Fixpoint dict_get (d : dict) (k : str) : option str :=
  match d with
  | [] => None
  | (k', v') :: d' => if str_eqb k' k then Some v' else dict_get d' k
  end.

Definition keys (d : dict) : list str := map fst d.

(** [for placeholder, original in mapping.items(): text = text.replace(...)] *)
Definition unmask_with (mapping : dict) (text : str) : str :=
  fold_left (fun t '(placeholder, original) => replace placeholder original t)
            mapping text.

(** The placeholder of a category name and a counter value:
    [f"[{pii_type.upper()}_{n}]"]. *)
Definition placeholder_of (pii_type : str) (n : nat) : str :=
  s2l "[" ++ upper pii_type ++ s2l "_" ++ dec n ++ s2l "]".

(** ** The pattern-based masker, [privacy_gateway.py] *)

Module PrivacyGateway.

Inductive pii_type : Type := credit_card | ssn | email | phone | name.

Definition pii_name (t : pii_type) : str :=
  match t with
  | credit_card => s2l "credit_card"
  | ssn => s2l "ssn"
  | email => s2l "email"
  | phone => s2l "phone"
  | name => s2l "name"
  end.

(** [self.counters], a dict with exactly these five keys. *)
Record counters_t : Type := mkCounters {
  c_credit_card : nat;
  c_ssn : nat;
  c_email : nat;
  c_phone : nat;
  c_name : nat
}.

Definition counter (c : counters_t) (t : pii_type) : nat :=
  match t with
  | credit_card => c_credit_card c
  | ssn => c_ssn c
  | email => c_email c
  | phone => c_phone c
  | name => c_name c
  end.

Definition set_counter (c : counters_t) (t : pii_type) (n : nat) : counters_t :=
  match t with
  | credit_card => mkCounters n (c_ssn c) (c_email c) (c_phone c) (c_name c)
  | ssn => mkCounters (c_credit_card c) n (c_email c) (c_phone c) (c_name c)
  | email => mkCounters (c_credit_card c) (c_ssn c) n (c_phone c) (c_name c)
  | phone => mkCounters (c_credit_card c) (c_ssn c) (c_email c) n (c_name c)
  | name => mkCounters (c_credit_card c) (c_ssn c) (c_email c) (c_phone c) n
  end.

(** The instance: [self.mapping] and [self.counters]. *)
Record state : Type := mkState {
  mapping : dict;
  counters : counters_t
}.

(** [__init__] *)
Definition init : state := mkState [] (mkCounters 0 0 0 0 0).

(** [reset]: the mapping is emptied and every counter set to 0. *)
Definition reset (st : state) : state :=
  let c0 := counters st in
  let c1 := set_counter c0 credit_card 0 in
  let c2 := set_counter c1 ssn 0 in
  let c3 := set_counter c2 email 0 in
  let c4 := set_counter c3 phone 0 in
  let c5 := set_counter c4 name 0 in
  mkState [] c5.

(** [_create_placeholder]: the counter is incremented, then rendered. *)
Definition _create_placeholder (t : pii_type) (st : state) : str * state :=
  let n := S (counter (counters st) t) in
  (placeholder_of (pii_name t) n,
   mkState (mapping st) (set_counter (counters st) t n)).

(** [placeholder = self._create_placeholder(t); self.mapping[placeholder] = original] *)
Definition record (t : pii_type) (original : str) (st : state) : str * state :=
  let '(placeholder, st1) := _create_placeholder t st in
  (placeholder, mkState (dict_set (mapping st1) placeholder original) (counters st1)).

(** [\b(\d{4}[-\s]?\d{4}[-\s]?\d{4}[-\s]?\d{1,7})\b] *)
Definition credit_card_pattern : pattern :=
  [ Raw Bnd;
    Grp (seqs [ Rep is_digit 4 (Some 4); Rep dash_space 0 (Some 1);
                Rep is_digit 4 (Some 4); Rep dash_space 0 (Some 1);
                Rep is_digit 4 (Some 4); Rep dash_space 0 (Some 1);
                Rep is_digit 1 (Some 7) ]);
    Raw Bnd ].

(** [\b(\d{3}[-\s]?\d{2}[-\s]?\d{4})\b] *)
Definition ssn_pattern : pattern :=
  [ Raw Bnd;
    Grp (seqs [ Rep is_digit 3 (Some 3); Rep dash_space 0 (Some 1);
                Rep is_digit 2 (Some 2); Rep dash_space 0 (Some 1);
                Rep is_digit 4 (Some 4) ]);
    Raw Bnd ].

(** [\b([a-zA-Z0-9._%+-]+@[a-zA-Z0-9.-]+\.[a-zA-Z]{2,})\b] *)
Definition email_pattern : pattern :=
  [ Raw Bnd;
    Grp (seqs [ Rep email_local 1 None; Cls (is_char "@");
                Rep email_domain 1 None; Cls (is_char ".");
                Rep is_alpha 2 None ]);
    Raw Bnd ].

(** [\b(\(?\d{3}\)?[-.\s]?\d{3}[-.\s]?\d{4})\b] *)
Definition phone_pattern : pattern :=
  [ Raw Bnd;
    Grp (seqs [ Rep (is_char "(") 0 (Some 1); Rep is_digit 3 (Some 3);
                Rep (is_char ")") 0 (Some 1); Rep dash_dot_space 0 (Some 1);
                Rep is_digit 3 (Some 3); Rep dash_dot_space 0 (Some 1);
                Rep is_digit 4 (Some 4) ]);
    Raw Bnd ].

(** [[A-Z][a-z]+(?:\s+[A-Z][a-z]+)?] under [(?i)]: both ranges match the
    letters of either case. *)
Definition name_re : regex :=
  seqs [ Cls is_alpha; Rep is_alpha 1 None;
         Opt (seqs [ Rep is_space 1 None; Cls is_alpha; Rep is_alpha 1 None ]) ].

(** The four lead-in phrases, under [(?i)]. *)
Definition lead_my_name_is : regex :=
  Seq (lit_ci (s2l "my name is")) (Rep is_space 1 None).
Definition lead_im : regex :=
  seqs [ Cls (is_char_ci "I"); Rep (is_char "'") 0 (Some 1);
         Cls (is_char_ci "m"); Rep is_space 1 None ].
Definition lead_i_am : regex :=
  Seq (lit_ci (s2l "I am")) (Rep is_space 1 None).
Definition lead_name_colon : regex :=
  Seq (lit_ci (s2l "name:")) (Rep is_space 0 None).

Definition name_patterns : list (pattern * nat) :=
  [ ([Grp lead_my_name_is; Grp name_re], 2);
    ([Grp lead_im; Grp name_re], 2);
    ([Grp lead_i_am; Grp name_re], 2);
    ([Grp lead_name_colon; Grp name_re], 2) ].

Definition _mask_credit_cards (text : str) (st : state) : str * state :=
  re_sub credit_card_pattern
         (fun _ gs st => record credit_card (group gs 1) st)
         text st.

(** [digits_only = re.sub(r'[-\s]', '', original)] *)
Definition digits_only (original : str) : str :=
  filter (fun c => negb (dash_space c)) original.

Definition _mask_ssn (text : str) (st : state) : str * state :=
  re_sub ssn_pattern
         (fun _ gs st =>
            let original := group gs 1 in
            if length (digits_only original) =? 9
            then record ssn original st
            else (original, st))
         text st.

Definition _mask_emails (text : str) (st : state) : str * state :=
  re_sub email_pattern
         (fun _ gs st => record email (group gs 1) st)
         text st.

(** The callback of the phone scan: [text] is the argument of
    [_mask_phone_numbers], the text as it is when the scan starts;
    [start] is [match.start()]. *)
Definition phone_replace (text : str) (start : nat) (gs : list str)
           (st : state) : str * state :=
  let original := group gs 1 in
  if negb (contains (s2l "[SSN_") (firstn start text))
  then record phone original st
  else (original, st).

Definition _mask_phone_numbers (text : str) (st : state) : str * state :=
  re_sub phone_pattern (phone_replace text) text st.

Definition name_replace (grp_idx : nat) (gs : list str) (st : state)
  : str * state :=
  let original := group gs grp_idx in
  let '(placeholder, st1) := record name original st in
  (group gs 1 ++ placeholder, st1).

Definition _mask_names (text : str) (st : state) : str * state :=
  fold_left (fun '(text, st) '(pat, group_idx) =>
               re_sub pat (fun _ => name_replace group_idx) text st)
            name_patterns (text, st).

(** [mask]: returns the masked text and a copy of the mapping; the
    instance keeps its state. *)
Definition mask (text : str) (st : state) : (str * dict) * state :=
  let st := reset st in
  let masked_text := text in
  let '(masked_text, st) := _mask_credit_cards masked_text st in
  let '(masked_text, st) := _mask_ssn masked_text st in
  let '(masked_text, st) := _mask_emails masked_text st in
  let '(masked_text, st) := _mask_phone_numbers masked_text st in
  let '(masked_text, st) := _mask_names masked_text st in
  ((masked_text, mapping st), st).

(** [unmask(text, mapping=None)] *)
Definition unmask (text : str) (mapping_arg : option dict) (st : state) : str :=
  let mapping := match mapping_arg with
                 | None => mapping st
                 | Some m => m
                 end in
  unmask_with mapping text.

(** A call of [mask] on a freshly constructed instance. *)
Definition mask_fresh (text : str) : str * dict := fst (mask text init).

End PrivacyGateway.

(** ** [re.search] *)

(** The leftmost position at which the pattern matches, with the match the
    engine finds there. *)
Fixpoint search_go (p : pattern) (prev : option ascii) (pos : nat) (s : str)
  : option (nat * found) :=
  match mt_pat p prev s with
  | m :: _ => Some (pos, m)
  | [] => match s with
          | [] => None
          | c :: s' => search_go p (Some c) (S pos) s'
          end
  end.

Definition re_search (p : pattern) (s : str) : option (nat * found) :=
  search_go p None 0 s.

(** ** Results of calls that may raise *)

Inductive exn : Type :=
| RuntimeError
| AttributeError
| TypeError
| JSONDecodeError
| RecursionError.

Inductive result (A : Type) : Type :=
| Ok (a : A)
| Raise (e : exn).

Arguments Ok {A} a.
Arguments Raise {A} e.

Set Warnings "-register-all".

(** A decoded JSON document (what [json.loads] and [response.json()]
    return); an object is a [dict] with distinct keys. *)
Inductive json : Type :=
| JNull
| JBool (b : bool)
| JNum (n : Z)
| JStr (s : str)
| JArr (l : list json)
| JObj (kv : list (str * json)).

(** ** The model-assisted masker, [local_llm_gateway.py] *)

Module LocalLLMGateway.

(** A detection result, [Dict[str, list]]: the items of the dict in order,
    each a category name with its list of detected strings. *)
Definition detection := list (str * list str).

(** The local [counters] dict of [mask]. *)
Definition counters_t := list (str * nat).

Fixpoint counters_set (c : counters_t) (k : str) (n : nat) : counters_t :=
  match c with
  | [] => [(k, n)]
  | (k', n') :: c' => if str_eqb k' k then (k', n) :: c'
                      else (k', n') :: counters_set c' k n
  end.

Fixpoint counters_get (c : counters_t) (k : str) : nat :=
  match c with
  | [] => 0
  | (k', n') :: c' => if str_eqb k' k then n' else counters_get c' k
  end.

(** The instance: [self.model], [self.ollama_url], [self.mapping]. *)
Record state : Type := mkState {
  model : str;
  ollama_url : str;
  mapping : dict
}.

(** The variables of the loop of [mask]. *)
Record locals : Type := mkLocals {
  masked_text : str;
  l_mapping : dict;
  l_counters : counters_t
}.

Definition truthy (value : str) : bool :=
  match value with [] => false | _ :: _ => true end.

(** The body of [for value in values]. *)
Definition mask_value (pii_type : str) (l : locals) (value : str) : locals :=
  if truthy value && contains value (masked_text l)
  then
    let counters := counters_set (l_counters l) pii_type
                                 (S (counters_get (l_counters l) pii_type)) in
    let placeholder := placeholder_of pii_type (counters_get counters pii_type) in
    mkLocals (replace value placeholder (masked_text l))
             (dict_set (l_mapping l) placeholder value)
             counters
  else l.

(** The body of [for pii_type, values in detected_pii.items()]. *)
Definition mask_category (l : locals) (item : str * list str) : locals :=
  let '(pii_type, values) := item in
  match values with
  | [] => l
  | _ :: _ =>
      let l0 := mkLocals (masked_text l) (l_mapping l)
                         (counters_set (l_counters l) pii_type 0) in
      fold_left (mask_value pii_type) values l0
  end.

(** [mask(text, detected_pii)] with the detection result supplied (when
    none is supplied the method first obtains one from [detect_pii]). *)
Definition mask (text : str) (detected_pii : detection) (st : state)
  : (str * dict) * state :=
  let st := mkState (model st) (ollama_url st) [] in
  let l0 := mkLocals text (mapping st) [] in
  let l := fold_left mask_category detected_pii l0 in
  ((masked_text l, l_mapping l), mkState (model st) (ollama_url st) (l_mapping l)).

(** [unmask(text, mapping=None)] *)
Definition unmask (text : str) (mapping_arg : option dict) (st : state) : str :=
  let mapping := match mapping_arg with
                 | None => mapping st
                 | Some m => m
                 end in
  unmask_with mapping text.

(** [DEFAULT_OLLAMA_MODEL], [DEFAULT_OLLAMA_URL] *)
Definition DEFAULT_OLLAMA_MODEL : str := s2l "llama3.1:8b".
Definition DEFAULT_OLLAMA_URL : str := s2l "http://localhost:11434".

Definition init : state := mkState DEFAULT_OLLAMA_MODEL DEFAULT_OLLAMA_URL [].

Definition mask_fresh (text : str) (detected_pii : detection) : str * dict :=
  fst (mask text detected_pii init).

(** *** Detection *)

(** [[\s\S]]: any character. *)
Definition any_char (c : ascii) : bool := is_space c || negb (is_space c).

(** [\{[\s\S]*\}] *)
Definition json_pattern : pattern :=
  [ Raw (seqs [ Cls (is_char "{"); Rep any_char 0 None; Cls (is_char "}") ]) ].

(** [json_match.group()] of [re.search(r'\{[\s\S]*\}', response)]. *)
Definition json_match (response : str) : option str :=
  match re_search json_pattern response with
  | Some (_, (_, whole, _)) => Some whole
  | None => None
  end.

Section Detect.
(** [json.loads]: the decoded document, or the exception it raises, a
    [json.JSONDecodeError] for a text that is not JSON, or another one (a
    [RecursionError] for a text nested too deeply). *)
Variable json_loads : str -> result json.

(** The part of [detect_pii] after the call of the model: [response] is
    what [_call_ollama] returned.  The [except] clause catches
    [json.JSONDecodeError] and nothing else. *)
Definition parse_response (response : str) : result json :=
  match json_match response with
  | Some text =>
      match json_loads text with
      | Ok j => Ok j
      | Raise JSONDecodeError => Ok (JObj [])
      | Raise e => Raise e
      end
  | None => Ok (JObj [])
  end.

(** [detect_pii], given the outcome of [_call_ollama]: the reply, or the
    [RuntimeError] it raises when the request fails. *)
Definition detect_pii (call : result str) : result json :=
  match call with
  | Ok response => parse_response response
  | Raise e => Raise e
  end.
End Detect.

(** *** Status *)

(** The outcome of [requests.get(url, timeout=5)]: a
    [requests.exceptions.RequestException] (connection failure, timeout), or
    a response with its status code and its body decoded as JSON ([None]
    when the body is not JSON: [response.json()] then raises a
    [RequestException] too). *)
Inductive http_outcome : Type :=
| RequestException
| Response (status_code : nat) (body : option json).

(** [_check_ollama_available] *)
Definition _check_ollama_available (o : http_outcome) : result bool :=
  match o with
  | Response status_code _ => Ok (status_code =? 200)
  | RequestException => Ok false
  end.

Fixpoint obj_get (kv : list (str * json)) (k : str) (default : json) : json :=
  match kv with
  | [] => default
  | (k', v) :: kv' => if str_eqb k' k then v else obj_get kv' k default
  end.

(** [m.get("name", empty).startswith(self.model)], [empty] the empty string *)
Definition name_startswith (model : str) (m : json) : result bool :=
  match m with
  | JObj kv =>
      match obj_get kv (s2l "name") (JStr []) with
      | JStr s => Ok (startswith model s)
      | _ => Raise AttributeError
      end
  | _ => Raise AttributeError
  end.

(** [any(... for m in models)]: stops at the first true element. *)
Fixpoint any_model (model : str) (models : list json) : result bool :=
  match models with
  | [] => Ok false
  | m :: models' =>
      match name_startswith model m with
      | Ok true => Ok true
      | Ok false => any_model model models'
      | Raise e => Raise e
      end
  end.

(** The elements that iterating over a decoded value yields. *)
Definition iterate (j : json) : result (list json) :=
  match j with
  | JArr l => Ok l
  | JStr s => Ok (map (fun c => JStr [c]) s)
  | JObj kv => Ok (map (fun '(k, _) => JStr k) kv)
  | _ => Raise TypeError
  end.

(** [_check_model_available] *)
Definition _check_model_available (model : str) (o : http_outcome) : result bool :=
  match o with
  | RequestException => Ok false
  | Response status_code body =>
      if status_code =? 200 then
        match body with
        | None => Ok false
        | Some (JObj kv) =>
            match iterate (obj_get kv (s2l "models") (JArr [])) with
            | Ok models => any_model model models
            | Raise e => Raise e
            end
        | Some _ => Raise AttributeError
        end
      else Ok false
  end.

(** [get_status]: two requests, one per check; the result is the pair
    ([ollama_running], [model_available]). *)
Definition get_status (st : state) (o1 o2 : http_outcome) : result (bool * bool) :=
  match _check_ollama_available o1 with
  | Raise e => Raise e
  | Ok ollama_running =>
      match _check_model_available (model st) o2 with
      | Raise e => Raise e
      | Ok model_available => Ok (ollama_running, model_available)
      end
  end.

(** *** [mask] and [detect_and_mask] on what the model returns

    [detect_pii] returns whatever JSON document the reply holds, so the
    loop of [mask] meets values of any JSON type.  A number is an integer
    here, zero exactly when the number is zero. *)

(** Python's truth value of a decoded value. *)
Definition truthy_json (j : json) : bool :=
  match j with
  | JNull => false
  | JBool b => b
  | JNum n => negb (n =? 0)%Z
  | JStr s => truthy s
  | JArr l => match l with [] => false | _ :: _ => true end
  | JObj kv => match kv with [] => false | _ :: _ => true end
  end.

(** [for value in values], from the first value on: a value that is false
    is passed over; [value in masked_text] raises a [TypeError] for a value
    that is not a string.  The loop stops at the first exception, with the
    variables as they are by then. *)
Fixpoint mask_values_any (pii_type : str) (values : list json) (l : locals)
  : locals * option exn :=
  match values with
  | [] => (l, None)
  | value :: values' =>
      if truthy_json value
      then match value with
           | JStr s => mask_values_any pii_type values' (mask_value pii_type l s)
           | _ => (l, Some TypeError)
           end
      else mask_values_any pii_type values' l
  end.

(** [for pii_type, values in detected_pii.items()], from the first item on. *)
Fixpoint mask_items_any (items : list (str * json)) (l : locals)
  : locals * option exn :=
  match items with
  | [] => (l, None)
  | (pii_type, values) :: items' =>
      if truthy_json values
      then
        let l0 := mkLocals (masked_text l) (l_mapping l)
                           (counters_set (l_counters l) pii_type 0) in
        match iterate values with
        | Raise e => (l0, Some e)
        | Ok elements =>
            match mask_values_any pii_type elements l0 with
            | (l1, None) => mask_items_any items' l1
            | (l1, Some e) => (l1, Some e)
            end
        end
      else mask_items_any items' l
  end.

Section DetectAndMask.
Variable json_loads : str -> result json.

(** [mask(text, detected_pii)]: [detected_pii] is the argument ([JNull] for
    [None]), [call] the outcome of [_call_ollama] should [mask] have to
    call [detect_pii].  The result comes with the instance, whose mapping
    holds what was recorded, also when the call raises. *)
Definition mask_any (text : str) (detected_pii : json) (call : result str)
           (st : state) : result (str * dict) * state :=
  let st0 := mkState (model st) (ollama_url st) [] in
  let detected :=
    match detected_pii with
    | JNull => detect_pii json_loads call
    | _ => Ok detected_pii
    end in
  match detected with
  | Raise e => (Raise e, st0)
  | Ok (JObj items) =>
      match mask_items_any items (mkLocals text [] []) with
      | (l, None) =>
          (Ok (masked_text l, l_mapping l),
           mkState (model st) (ollama_url st) (l_mapping l))
      | (l, Some e) =>
          (Raise e, mkState (model st) (ollama_url st) (l_mapping l))
      end
  | Ok _ => (Raise AttributeError, st0)
  end.

(** [detect_and_mask]: [call] is the outcome of the call of the model made
    by [detect_pii], [call2] that of the call [mask] makes when the
    detection result is [None]. *)
Definition detect_and_mask (text : str) (call call2 : result str) (st : state)
  : result (json * str * dict) * state :=
  match detect_pii json_loads call with
  | Raise e => (Raise e, st)
  | Ok detected_pii =>
      match mask_any text detected_pii call2 st with
      | (Ok (masked_text, mapping), st') =>
          (Ok (detected_pii, masked_text, mapping), st')
      | (Raise e, st') => (Raise e, st')
      end
  end.
End DetectAndMask.

End LocalLLMGateway.

(** ** The web pages, [app.py] and [app_simple.py] *)

Module App.

(** [s.rsplit(sep, 1)]: [s] cut at the last occurrence of a separator that
    is not empty; [None] when [sep] does not occur. *)
Fixpoint rsplit1 (sep s : str) : option (str * str) :=
  match s with
  | [] => None
  | c :: s' =>
      match rsplit1 sep s' with
      | Some (a, b) => Some (c :: a, b)
      | None => if startswith sep s
                then Some ([], skipn (length sep) s)
                else None
      end
  end.

(** [s.rsplit(sep, 1)[0]] *)
Definition rsplit1_head (sep s : str) : str :=
  match rsplit1 sep s with
  | Some (a, _) => a
  | None => s
  end.

(** [placeholder.replace("[", "").replace("]", "").rsplit("_", 1)[0]] *)
Definition pii_type_of (placeholder : str) : str :=
  rsplit1_head (s2l "_")
    (replace (s2l "]") [] (replace (s2l "[") [] placeholder)).

(** The loop of [process] over [mapping.items()] after the pattern-based
    [mask]: the list [result["detected_pii"]] of types and values. *)
Definition detected_pii (mapping : dict) : list (str * str) :=
  map (fun '(placeholder, value) => (pii_type_of placeholder, value)) mapping.

(** [check_ollama_status] for a gateway already constructed: any exception
    of [get_status] gives the fallback answer.  The result is
    ([ollama_running], [model_available], [model_name]). *)
Definition check_ollama_status (gateway : LocalLLMGateway.state)
           (o1 o2 : LocalLLMGateway.http_outcome) : bool * bool * str :=
  match LocalLLMGateway.get_status gateway o1 o2 with
  | Ok (ollama_running, model_available) =>
      (ollama_running, model_available, LocalLLMGateway.model gateway)
  | Raise _ => (false, false, s2l "unknown")
  end.

End App.

(** ** Definitions used to state the properties *)

(** The text between the first opening brace and the last closing brace
    after it, both included. *)
Fixpoint upto_last_close (s : str) : option str :=
  match s with
  | [] => None
  | c :: s' =>
      match upto_last_close s' with
      | Some m => Some (c :: m)
      | None => if is_char "}" c then Some [c] else None
      end
  end.

Fixpoint brace_span (s : str) : option str :=
  match s with
  | [] => None
  | c :: s' =>
      if is_char "{" c
      then match upto_last_close s' with
           | Some m => Some (c :: m)
           | None => None
           end
      else brace_span s'
  end.

(** The first balanced JSON object of a reply, by counting braces:
    [balanced_prefix depth s] is the shortest prefix of [s] that closes
    [S depth] open braces. *)
Fixpoint balanced_prefix (depth : nat) (s : str) : option str :=
  match s with
  | [] => None
  | c :: s' =>
      if is_char "{" c then option_map (cons c) (balanced_prefix (S depth) s')
      else if is_char "}" c then
             match depth with
             | O => Some [c]
             | S d => option_map (cons c) (balanced_prefix d s')
             end
      else option_map (cons c) (balanced_prefix depth s')
  end.

Fixpoint first_balanced_object (s : str) : option str :=
  match s with
  | [] => None
  | c :: s' =>
      if is_char "{" c
      then match balanced_prefix 0 s' with
           | Some m => Some (c :: m)
           | None => first_balanced_object s'
           end
      else first_balanced_object s'
  end.

(** A request that failed or was answered with a status other than 200. *)
Definition no_payload (o : LocalLLMGateway.http_outcome) : bool :=
  match o with
  | LocalLLMGateway.RequestException => true
  | LocalLLMGateway.Response status_code _ => negb (status_code =? 200)
  end.

Definition answered_200 (o : LocalLLMGateway.http_outcome) : bool :=
  match o with
  | LocalLLMGateway.RequestException => false
  | LocalLLMGateway.Response status_code _ => status_code =? 200
  end.

(** A reply of the model: the JSON object with the one key ["ssn"], its
    value the list of the one string ["123-45-6789"]. *)
Definition dq : ascii := "034"%char.

Definition reply_object : str :=
  s2l "{" ++ dq :: s2l "ssn" ++ dq :: s2l ": [" ++ dq :: s2l "123-45-6789"
      ++ dq :: s2l "]}".

(** [[\s\S]*\}], the pattern of [detect_pii] after its opening brace. *)
Definition json_tail : regex :=
  Seq (Rep LocalLLMGateway.any_char 0 None) (Cls (is_char "}")).

(** *** The trace of a scan

    What [re.sub] does with a text, apart from the callback: the characters
    it copies and the matches it finds, in order. *)
Inductive event : Type :=
| Copy (c : ascii)
| Match (pos : nat) (gs : list str) (w : str).

Fixpoint scan_events (p : pattern) (prev : option ascii) (pos : nat) (s : str)
         (skip : nat) {struct s} : list event :=
  match s with
  | [] =>
      match skip with
      | S _ => []
      | O => match mt_pat p prev [] with
             | (gs, w, _) :: _ => [Match pos gs w]
             | [] => []
             end
      end
  | c :: s' =>
      match skip with
      | S k => scan_events p (Some c) (S pos) s' k
      | O =>
          match mt_pat p prev s with
          | (gs, w, _) :: _ =>
              match w with
              | [] => Match pos gs w :: Copy c :: scan_events p (Some c) (S pos) s' 0
              | _ :: w' => Match pos gs w :: scan_events p (Some c) (S pos) s' (length w')
              end
          | [] => Copy c :: scan_events p (Some c) (S pos) s' 0
          end
      end
  end.

(** [re.finditer]: the trace of the scan of the whole text. *)
Definition finditer (p : pattern) (text : str) : list event :=
  scan_events p None 0 text 0.

Definition event_text (e : event) : str :=
  match e with
  | Copy c => [c]
  | Match _ _ w => w
  end.

Section RunEvents.
Context {St : Type}.
Variable f : nat -> list str -> St -> str * St.

Definition run_event (e : event) (st : St) : str * St :=
  match e with
  | Copy c => ([c], st)
  | Match pos gs _ => f pos gs st
  end.

Fixpoint run_events (evs : list event) (st : St) : str * St :=
  match evs with
  | [] => ([], st)
  | e :: evs' =>
      let '(o1, st1) := run_event e st in
      let '(o2, st2) := run_events evs' st1 in
      (o1 ++ o2, st2)
  end.
End RunEvents.

(** Every match of the trace is the first alternative of the pattern at some
    position of the text. *)
Definition first_match (p : pattern) (e : event) : Prop :=
  match e with
  | Copy _ => True
  | Match _ gs w => exists prev s r l, mt_pat p prev s = (gs, w, r) :: l
  end.

(** The matches of a trace start where the text before them ends. *)
Fixpoint starts_at (pos : nat) (evs : list event) : Prop :=
  match evs with
  | [] => True
  | e :: evs' =>
      match e with
      | Copy _ => True
      | Match start _ _ => start = pos
      end /\ starts_at (pos + length (event_text e)) evs'
  end.

(** The rule of the phone scan, in the words of its description: a match
    with ["[SSN_"] somewhere before it in the text is left as it is and
    nothing is recorded; any other match is replaced by the next phone
    placeholder, which is recorded with the matched text. *)
Definition phone_rule (text : str) (pos : nat) (gs : list str)
           (st : PrivacyGateway.state) : str * PrivacyGateway.state :=
  let w := group gs 1 in
  if contains (s2l "[SSN_") (firstn pos text)
  then (w, st)
  else
    let n := S (PrivacyGateway.c_phone (PrivacyGateway.counters st)) in
    let placeholder := s2l "[PHONE_" ++ dec n ++ s2l "]" in
    (placeholder,
     PrivacyGateway.mkState
       (dict_set (PrivacyGateway.mapping st) placeholder w)
       (PrivacyGateway.set_counter (PrivacyGateway.counters st)
                                   PrivacyGateway.phone n)).

(** *** Numbered entries

    An entry of a mapping of the pattern-based masker: its category, its
    number and the original value. *)
Definition entry : Type := PrivacyGateway.pii_type * nat * str.

Definition entry_type (e : entry) : PrivacyGateway.pii_type := fst (fst e).
Definition entry_num (e : entry) : nat := snd (fst e).
Definition entry_value (e : entry) : str := snd e.

Definition render (e : entry) : str * str :=
  (placeholder_of (PrivacyGateway.pii_name (entry_type e)) (entry_num e),
   entry_value e).

Definition pii_eqb (a b : PrivacyGateway.pii_type) : bool :=
  match a, b with
  | PrivacyGateway.credit_card, PrivacyGateway.credit_card
  | PrivacyGateway.ssn, PrivacyGateway.ssn
  | PrivacyGateway.email, PrivacyGateway.email
  | PrivacyGateway.phone, PrivacyGateway.phone
  | PrivacyGateway.name, PrivacyGateway.name => true
  | _, _ => false
  end.

(** The numbers of the entries of category [t], in order. *)
Definition numbers_of (t : PrivacyGateway.pii_type) (es : list entry) : list nat :=
  map entry_num (filter (fun e => pii_eqb (entry_type e) t) es).

(** The mapping is the rendering of entries that, in every category, are
    numbered 1, 2, ... up to the counter of the category. *)
Definition numbered (st : PrivacyGateway.state) (es : list entry) : Prop :=
  PrivacyGateway.mapping st = map render es /\
  forall t, numbers_of t es
            = seq 1 (PrivacyGateway.counter (PrivacyGateway.counters st) t).

(** The keys of a mapping that are phone placeholders. *)
Definition phone_keys (d : dict) : list str :=
  filter (startswith (s2l "[PHONE_")) (keys d).

(** The text of a placeholder before its number. *)
Definition tok_prefix (t : PrivacyGateway.pii_type) : str :=
  match t with
  | PrivacyGateway.credit_card => s2l "[CREDIT_CARD_"
  | PrivacyGateway.ssn => s2l "[SSN_"
  | PrivacyGateway.email => s2l "[EMAIL_"
  | PrivacyGateway.phone => s2l "[PHONE_"
  | PrivacyGateway.name => s2l "[NAME_"
  end.

Definition entry_key (tn : PrivacyGateway.pii_type * nat) : str :=
  placeholder_of (PrivacyGateway.pii_name (fst tn)) (snd tn).

Definition no_space (k : str) : Prop := Forall (fun c => is_space c = false) k.

Definition is_numbered (st : PrivacyGateway.state) : Prop :=
  exists es, numbered st es.

(** *** Facts about matches *)

(** The characters that a match of [r] may consume. *)
Fixpoint allowed (r : regex) (c : ascii) : bool :=
  match r with
  | Eps => false
  | Cls p => p c
  | Bnd => false
  | Seq r1 r2 => allowed r1 c || allowed r2 c
  | Rep p _ _ => p c
  | Opt r1 => allowed r1 c
  end.

Definition allowed_pat (p : pattern) (c : ascii) : bool :=
  existsb (fun x => allowed (part_re x) c) p.

(** A lower bound of the length of a match. *)
Fixpoint min_len (r : regex) : nat :=
  match r with
  | Eps => 0
  | Cls _ => 1
  | Bnd => 0
  | Seq r1 r2 => min_len r1 + min_len r2
  | Rep _ lo _ => lo
  | Opt _ => 0
  end.

Definition min_len_pat (p : pattern) : nat :=
  fold_right (fun x n => min_len (part_re x) + n) 0 p.

(** Every match of [r] has a character that satisfies [P]. *)
Fixpoint must (P : ascii -> Prop) (r : regex) : Prop :=
  match r with
  | Eps => False
  | Cls p => forall c, p c = true -> P c
  | Bnd => False
  | Seq r1 r2 => must P r1 \/ must P r2
  | Rep p lo _ => 0 < lo /\ forall c, p c = true -> P c
  | Opt _ => False
  end.

Definition must_pat (P : ascii -> Prop) (p : pattern) : Prop :=
  Exists (fun x => must P (part_re x)) p.

(** The match of a trace event is the one captured group. *)
Definition whole_is_group (e : event) : Prop :=
  match e with
  | Copy _ => True
  | Match _ gs w => gs = [w]
  end.

(** *** The model-assisted masker, in the words of its description *)

(** The pieces of a text, with a separator between consecutive pieces. *)
Fixpoint join (sep : str) (pieces : list str) : str :=
  match pieces with
  | [] => []
  | [p] => p
  | p :: ps => p ++ sep ++ join sep ps
  end.

(** One value of a category, the category having recorded [n] values so
    far: an empty value, or one that does not occur in the text, is passed
    over; any other gets the placeholder of number [n + 1], is recorded, and
    its occurrences are replaced. *)
Definition value_step (pii_type : str) (acc : str * dict * nat) (value : str)
  : str * dict * nat :=
  let '(text, mapping, n) := acc in
  match value with
  | [] => acc
  | _ :: _ =>
      if contains value text
      then (replace value (placeholder_of pii_type (S n)) text,
            dict_set mapping (placeholder_of pii_type (S n)) value,
            S n)
      else acc
  end.

(** One category: its values in order, numbered from 1. *)
Definition category_step (acc : str * dict) (item : str * list str) : str * dict :=
  let '(text, mapping) := acc in
  let '(pii_type, values) := item in
  fst (fold_left (value_step pii_type) values (text, mapping, 0)).

(** The categories in order, from the empty mapping. *)
Definition mask_by_values (text : str) (detected_pii : LocalLLMGateway.detection)
  : str * dict :=
  fold_left category_step detected_pii (text, []).

(** A key of a mapping of the model-assisted masker: the placeholder of a
    category of the detection result, with a number from 1 to the number of
    values of the category, all smaller numbers of the category being keys
    as well. *)
Definition llm_key_ok (d : LocalLLMGateway.detection) (m : dict) (k : str) : Prop :=
  exists cat values n,
    In (cat, values) d /\ k = placeholder_of cat n /\
    1 <= n <= length values /\
    forall j, 1 <= j <= n -> In (placeholder_of cat j) (keys m).

(** *** Tokenised texts

    A text seen as a sequence of plain characters and placeholder tokens. *)
Inductive item : Type :=
| Lit (c : ascii)
| Tok (k : str).

Definition item_text (i : item) : str :=
  match i with
  | Lit c => [c]
  | Tok k => k
  end.

Definition flat (its : list item) : str := flat_map item_text its.

(** Every token that is a key of the mapping replaced by its value, all at
    once; everything else left as it is. *)
Definition subst_item (m : dict) (i : item) : str :=
  match i with
  | Lit c => [c]
  | Tok k => match dict_get m k with
             | Some v => v
             | None => k
             end
  end.

Definition subst (m : dict) (its : list item) : str := flat_map (subst_item m) its.

(** An opening bracket, characters other than brackets, a closing bracket. *)
Definition bracketed (k : str) : Prop :=
  exists body, k = "["%char :: body ++ ["]"%char]
               /\ ~ In "["%char body /\ ~ In "]"%char body.

(** A plain character is not an opening bracket; a token is bracketed. *)
Definition wf_item (i : item) : Prop :=
  match i with
  | Lit c => c <> "["%char
  | Tok k => bracketed k
  end.

(** The keys are distinct and bracketed, the values have no opening
    bracket. *)
Definition wf_dict (m : dict) : Prop :=
  NoDup (keys m) /\
  Forall (fun kv => bracketed (fst kv) /\ ~ In "["%char (snd kv)) m.

(** The tokens equal to [k] turned into the characters of [v]. *)
Definition expand (k v : str) (i : item) : list item :=
  match i with
  | Lit c => [i]
  | Tok k' => if str_eqb k' k then map Lit v else [i]
  end.

Definition clean_values (st : PrivacyGateway.state) : Prop :=
  Forall (fun kv => ~ In "["%char (snd kv)) (PrivacyGateway.mapping st).

(** The callback either leaves the state as it is or records a group. *)
Definition records_group (f : nat -> list str -> PrivacyGateway.state
                              -> str * PrivacyGateway.state) : Prop :=
  forall pos gs st,
    snd (f pos gs st) = st \/
    exists t i, snd (f pos gs st) = snd (PrivacyGateway.record t (group gs i) st).

(** The example of an order-dependent unmasking: a text, and a reply in
    which a placeholder stands inside brackets. *)
Definition nested_text : str := s2l "123-45-6789 my name is SSN".
Definition nested_reply : str := s2l "[[NAME_1]_1]".

(** *** The scan of a tokenised text *)

(** The text of a placeholder between its brackets. *)
Definition interior (t : PrivacyGateway.pii_type) (n : nat) : str :=
  tl (tok_prefix t) ++ dec n.

(** The characters of the interiors: capital letters, the underscore,
    digits. *)
Definition interior_char (c : ascii) : bool :=
  in_range 65 90 c || is_char "_" c || is_digit c.

(** An item of a text under masking: a character other than the opening
    bracket, or a placeholder of the masker. *)
Definition tok_item (i : item) : Prop :=
  match i with
  | Lit c => c <> "["%char
  | Tok k => exists t n, k = placeholder_of (PrivacyGateway.pii_name t) n
  end.

(** What a scan does with a tokenised text, piece by piece: a character
    copied, a token copied, a match inside a run of characters. *)
Inductive seg : Type :=
| SLit (c : ascii)
| STok (k : str)
| SMatch (pos : nat) (gs : list str) (w : str).

Definition seg_items (s : seg) : list item :=
  match s with
  | SLit c => [Lit c]
  | STok k => [Tok k]
  | SMatch _ _ w => map Lit w
  end.

Definition seg_events (s : seg) : list event :=
  match s with
  | SLit c => [Copy c]
  | STok k => map Copy k
  | SMatch pos gs w => [Match pos gs w]
  end.

Definition seg_ok (p : pattern) (s : seg) : Prop :=
  match s with
  | SLit c => c <> "["%char
  | STok k => exists t n, k = placeholder_of (PrivacyGateway.pii_name t) n
  | SMatch pos gs w => first_match p (Match pos gs w)
  end.

(** A pattern whose matches have no bracket and at least one character, and
    which does not match from inside a placeholder. *)
Record scannable (p : pattern) : Prop := mkScannable {
  sc_open : allowed_pat p "[" = false;
  sc_close : allowed_pat p "]" = false;
  sc_len : 0 < min_len_pat p;
  sc_avoid : forall t n v u rest,
      interior t n = v ++ u -> u <> [] ->
      mt_pat p (lastc (Some "["%char) v) (u ++ "]"%char :: rest) = []
}.

(** The callback answers a match either with the match itself, the state
    unchanged, or with the start of the match followed by the placeholder
    under which it records the rest of the match. *)
Definition shaped (p : pattern)
           (f : nat -> list str -> PrivacyGateway.state
                -> str * PrivacyGateway.state) : Prop :=
  forall pos gs w st,
    first_match p (Match pos gs w) ->
    f pos gs st = (w, st) \/
    exists t pre v,
      w = pre ++ v /\
      f pos gs st = (pre ++ fst (PrivacyGateway.record t v st),
                     snd (PrivacyGateway.record t v st)).

(** A text, and a reply with placeholders of its mapping and one that is not
    of its mapping. *)
Definition reply_source : str :=
  s2l "my name is John Smith, card 4532-1234-5678-9012".

Definition reply_items : list item :=
  map Lit (s2l "Dear ") ++ [Tok (s2l "[NAME_1]")]
  ++ map Lit (s2l ", card ") ++ [Tok (s2l "[CREDIT_CARD_1]")]
  ++ map Lit (s2l " and ") ++ [Tok (s2l "[SSN_9]")]
  ++ map Lit (s2l " ") ++ [Tok (s2l "[NAME_1]")].

Definition segs_items (segs : list seg) : list item := flat_map seg_items segs.
Definition segs_events (segs : list seg) : list event := flat_map seg_events segs.

(** Every key of the first mapping is a key of the second, with the same
    value. *)
Definition extends (m m' : dict) : Prop :=
  forall k, In k (keys m) -> In k (keys m') /\ dict_get m' k = dict_get m k.

(** The text [text] and the state [st] of a masking of [T] under way: the
    text is tokenised, its tokens are keys of the mapping, substituting the
    mapping gives [T] back, and the mapping is numbered. *)
Definition masking (T : str) (text : str) (st : PrivacyGateway.state) : Prop :=
  exists its,
    text = flat its /\
    Forall tok_item its /\
    (forall k, In (Tok k) its -> In k (keys (PrivacyGateway.mapping st))) /\
    subst (PrivacyGateway.mapping st) its = T /\
    is_numbered st.

(** A text with a literal placeholder in it, and a text with one value of
    every category. *)
Definition literal_placeholder_text : str := s2l "[SSN_1] 123-45-6789".

Definition sample_text : str :=
  s2l "my name is John Smith, card 4532-1234-5678-9012, SSN 123-45-6789, mail john.smith@email.com, call (555) 123-4567".

(** *** Definitions for further properties *)

(** A reply with a JSON object between two pieces of prose, and the mapping
    of [sample_text]. *)
Definition prose_reply : str :=
  s2l "Here is the result: " ++ reply_object ++ s2l " (one SSN found)".

(** An entry of the list of models of the backend with the given name. *)
Definition named (m : json) (name : str) : Prop :=
  exists kv, m = JObj kv /\ LocalLLMGateway.obj_get kv (s2l "name") (JStr []) = JStr name.

(** The body of an answer of [/api/tags] with two models. *)
Definition tags_models : list json :=
  [JObj [(s2l "name", JStr (s2l "mistral:7b"))];
   JObj [(s2l "name", JStr (s2l "llama3.1:8b-instruct")); (s2l "size", JNum 4)]].

Definition tags_items : list (str * json) := [(s2l "models", JArr tags_models)].

Definition tags_body : json := JObj tags_items.

(** The label of a category in the list of detected items of the web
    pages. *)
Definition type_label (e : entry) : str * str :=
  (upper (PrivacyGateway.pii_name (entry_type e)), entry_value e).

(** A detection result, and a text in which none of its values occurs. *)
Definition stale_detection : LocalLLMGateway.detection :=
  [(s2l "names", [s2l "Jane Roe"; s2l ""]); (s2l "ssn", []);
   (s2l "emails", [s2l "jane@example.com"])].

Definition stale_text : str := s2l "Please summarise the attached report.".

(** The number of digits of a text. *)
Definition digit_count (v : str) : nat := length (filter is_digit v).

(** What the value of an entry of a category looks like: the digits of a
    card number, of an SSN and of a phone number are counted, an address has
    its three parts, a name has two letters at least. *)
Definition value_ok (t : PrivacyGateway.pii_type) (v : str) : Prop :=
  match t with
  | PrivacyGateway.credit_card =>
      13 <= digit_count v <= 19 /\
      Forall (fun c => is_digit c || dash_space c = true) v
  | PrivacyGateway.ssn =>
      digit_count v = 9 /\
      Forall (fun c => is_digit c || dash_space c = true) v
  | PrivacyGateway.email =>
      exists local domain tld,
        v = local ++ "@"%char :: domain ++ "."%char :: tld /\
        local <> [] /\ domain <> [] /\ 2 <= length tld /\
        Forall (fun c => is_alpha c = true) tld /\
        Forall (fun c => is_space c = false) v
  | PrivacyGateway.phone =>
      digit_count v = 10 /\
      Forall (fun c => is_digit c || dash_dot_space c
                       || is_char "(" c || is_char ")" c = true) v
  | PrivacyGateway.name =>
      2 <= length v /\
      Forall (fun c => is_alpha c || is_space c = true) v
  end.

Definition entry_ok (kv : str * str) : Prop :=
  exists t n, fst kv = placeholder_of (PrivacyGateway.pii_name t) n
              /\ value_ok t (snd kv).

Definition values_ok (st : PrivacyGateway.state) : Prop :=
  Forall entry_ok (PrivacyGateway.mapping st).

(** The callback leaves the state as it is or records a value that is as
    the values of its category are. *)
Definition records_ok (p : pattern)
           (f : nat -> list str -> PrivacyGateway.state
                -> str * PrivacyGateway.state) : Prop :=
  forall pos gs w st,
    first_match p (Match pos gs w) ->
    snd (f pos gs st) = st \/
    exists t v, value_ok t v /\
                snd (f pos gs st) = snd (PrivacyGateway.record t v st).

(** A step of the masker that, as long as it records nothing, changes
    nothing. *)
Definition quiet (f : str -> PrivacyGateway.state -> str * PrivacyGateway.state)
  : Prop :=
  forall text st,
    is_numbered st ->
    is_numbered (snd (f text st)) /\
    length (PrivacyGateway.mapping st)
    <= length (PrivacyGateway.mapping (snd (f text st))) /\
    (length (PrivacyGateway.mapping (snd (f text st)))
     = length (PrivacyGateway.mapping st) ->
     f text st = (text, st)).

(** A detection result of the documented form as the decoded document it
    is: an object whose values are lists of strings. *)
Definition detection_items (d : LocalLLMGateway.detection) : list (str * json) :=
  map (fun '(pii_type, values) => (pii_type, JArr (map JStr values))) d.

Definition detection_json (d : LocalLLMGateway.detection) : json :=
  JObj (detection_items d).

Definition is_text (j : json) : bool :=
  match j with
  | JStr _ => true
  | _ => false
  end.

(** A detection result with a number where a string is expected, and a
    reply that is a detection result. *)
Definition card_as_number : list (str * json) :=
  [ (s2l "names", JArr [JStr (s2l "Ann Lee")]);
    (s2l "credit_cards", JArr [JNum 4111222233334444]) ].

Definition names_detection : LocalLLMGateway.detection :=
  [ (s2l "names", [s2l "Ann Lee"]) ].

Definition names_reply : str :=
  s2l "{" ++ dq :: s2l "names" ++ dq :: s2l ": [" ++ dq :: s2l "Ann Lee"
      ++ dq :: s2l "]}".

(** What [json.loads] does on the texts of the examples: the two objects
    are decoded, the other texts are not JSON. *)
Definition sample_loads (s : str) : result json :=
  if str_eqb s reply_object
  then Ok (JObj [(s2l "ssn", JArr [JStr (s2l "123-45-6789")])])
  else if str_eqb s names_reply
  then Ok (detection_json names_detection)
  else Raise JSONDecodeError.

(** A reply whose braces do not hold a document. *)
Definition no_document_reply : str := s2l "The text has {no personal data}.".

(** What a scan makes of a piece [its0] of a tokenised text, the mapping
    being [m] when it starts: the result [r] is the text of the items
    [its'], whose tokens are keys of the mapping; substituting gives what it
    gave before; the mapping has grown; the tokens of the piece are still
    there, and every new key is a token of the result. *)
Definition traced (m : dict) (its0 : list item)
           (r : str * PrivacyGateway.state) (its' : list item) : Prop :=
  fst r = flat its' /\
  Forall tok_item its' /\
  (forall k, In (Tok k) its' -> In k (keys (PrivacyGateway.mapping (snd r)))) /\
  subst (PrivacyGateway.mapping (snd r)) its' = subst m its0 /\
  extends m (PrivacyGateway.mapping (snd r)) /\
  is_numbered (snd r) /\
  (forall k, In (Tok k) its0 -> In (Tok k) its') /\
  (forall k, In k (keys (PrivacyGateway.mapping (snd r))) ->
             In k (keys m) \/ In (Tok k) its').

(** A masking under way in which the tokens of the text are the keys of
    the mapping, all of them. *)
Definition masking_exact (T : str) (text : str) (st : PrivacyGateway.state)
  : Prop :=
  exists its,
    text = flat its /\
    Forall tok_item its /\
    (forall k, In (Tok k) its <-> In k (keys (PrivacyGateway.mapping st))) /\
    subst (PrivacyGateway.mapping st) its = T /\
    is_numbered st.

(** *** The round trip of the model-assisted masker *)

(** A text without brackets. *)
Definition plain (s : str) : Prop := ~ In "["%char s /\ ~ In "]"%char s.

(** A detection result that [mask] can take apart and [unmask] put
    together again: the category names have their capitals among the 8-bit
    code points, and are distinct also when uppercased; neither a category
    name nor a value has a bracket; and no value that is not empty occurs
    inside a placeholder that the result can give rise to, a placeholder of
    one of its categories with a number up to the number of values of that
    category. *)
Definition separable (d : LocalLLMGateway.detection) : Prop :=
  NoDup (map (fun item => upper (fst item)) d) /\
  forall cat values, In (cat, values) d ->
    upper_ok cat = true /\
    plain cat /\
    forall v, In v values ->
      plain v /\
      (v <> [] ->
       forall cat' values' n,
         In (cat', values') d -> 1 <= n <= length values' ->
         contains v (placeholder_of cat' n) = false).

(** The text [t] and the mapping [m] of a masking of [T] under way, the
    detection result being [d]: the text is tokenised, its tokens are keys
    of the mapping and placeholders of [d], and substituting the mapping
    gives [T] back. *)
Definition llm_masking (d : LocalLLMGateway.detection) (T t : str) (m : dict)
  : Prop :=
  exists its,
    t = flat its /\
    Forall wf_item its /\
    Forall (fun kv => bracketed (fst kv) /\ ~ In "["%char (snd kv)) m /\
    (forall k, In (Tok k) its ->
               In k (keys m) /\
               exists cat values n,
                 In (cat, values) d /\ 1 <= n <= length values /\
                 k = placeholder_of cat n) /\
    subst m its = T.

(** The keys of the mapping are placeholders of the categories gone
    through, or placeholders of the category under way with a number up to
    [n]. *)
Definition keys_below (done : LocalLLMGateway.detection) (cat : str) (n : nat)
           (m : dict) : Prop :=
  forall k, In k (keys m) ->
    (exists c vs j, In (c, vs) done /\ k = placeholder_of c j) \/
    (exists j, j <= n /\ k = placeholder_of cat j).

Definition is_lower (c : ascii) : bool := in_range 97 122 c.

Definition letter_text : str := s2l "Ann Lee wrote to ann@example.org".

Definition letter_detection : LocalLLMGateway.detection :=
  [ (s2l "names", [s2l "Ann Lee"; s2l "Bob"]);
    (s2l "emails", [s2l "ann@example.org"]) ].

(** * Properties *)

(** Character tests are never unfolded by simplification. *)
Arguments ascii_eqb : simpl never.
Arguments is_char : simpl never.
Arguments is_char_ci : simpl never.
Arguments is_digit : simpl never.
Arguments is_space : simpl never.
Arguments is_alpha : simpl never.
Arguments is_word : simpl never.
Arguments dash_space : simpl never.
Arguments dash_dot_space : simpl never.
Arguments email_local : simpl never.
Arguments email_domain : simpl never.
Arguments upper_char : simpl never.
Arguments LocalLLMGateway.any_char : simpl never.
Arguments dec : simpl never.

(** ** Strings *)

Lemma ascii_eqb_eq a b : ascii_eqb a b = true <-> a = b.
Proof. apply Ascii.eqb_eq. Qed.

Lemma ascii_eqb_refl a : ascii_eqb a a = true.
Proof. apply Ascii.eqb_refl. Qed.

Lemma ascii_eqb_neq a b : ascii_eqb a b = false <-> a <> b.
Proof. apply Ascii.eqb_neq. Qed.

Lemma str_eqb_eq a : forall b, str_eqb a b = true <-> a = b.
Proof.
  induction a as [|x a IH]; intros [|y b]; simpl; split; intro H;
    try reflexivity; try discriminate.
  - apply andb_true_iff in H as [Hx Hab].
    apply ascii_eqb_eq in Hx. apply IH in Hab. now subst.
  - inversion H; subst. rewrite ascii_eqb_refl. simpl. now apply IH.
Qed.

Lemma str_eqb_refl a : str_eqb a a = true.
Proof. now apply str_eqb_eq. Qed.

Lemma str_eqb_neq a b : str_eqb a b = false <-> a <> b.
Proof.
  split; intro H.
  - intro E. apply str_eqb_eq in E. congruence.
  - destruct (str_eqb a b) eqn:E; [|reflexivity].
    apply str_eqb_eq in E. contradiction.
Qed.

Lemma startswith_iff old : forall s,
  startswith old s = true <-> exists r, s = old ++ r.
Proof.
  induction old as [|x old IH]; intros s; simpl.
  - split; [intros _; now exists s | reflexivity].
  - destruct s as [|y s].
    + split; [discriminate | intros [r Hr]; discriminate].
    + rewrite andb_true_iff, ascii_eqb_eq, IH. split.
      * intros [-> [r ->]]. now exists r.
      * intros [r Hr]. inversion Hr; subst. split; [reflexivity | now exists r].
Qed.

Lemma startswith_app old r : startswith old (old ++ r) = true.
Proof. apply startswith_iff. now exists r. Qed.

Lemma contains_iff old : forall s,
  contains old s = true <-> exists a b, s = a ++ old ++ b.
Proof.
  induction s as [|c s IH].
  - simpl. rewrite orb_false_r, startswith_iff. split.
    + intros [r Hr]. now exists [], r.
    + intros [a [b H]]. destruct a; [now exists b | discriminate].
  - simpl. rewrite orb_true_iff, startswith_iff, IH. split.
    + intros [[r Hr] | [a [b H]]].
      * now exists [], r.
      * exists (c :: a), b. simpl. now rewrite H.
    + intros [[|x a] [b H]].
      * left. now exists b.
      * right. inversion H; subst. now exists a, b.
Qed.

Lemma contains_false_app old a b :
  contains old (a ++ b) = false -> contains old b = false.
Proof.
  intro H. destruct (contains old b) eqn:E; [|reflexivity].
  apply contains_iff in E as [x [y ->]].
  assert (contains old (a ++ x ++ old ++ y) = true) as H'.
  { apply contains_iff. exists (a ++ x), y. now rewrite <- app_assoc. }
  congruence.
Qed.

(** Passing over the rest of an occurrence. *)
Lemma replace_go_skip old new a : forall b,
  replace_go old new (a ++ b) (length a) = replace_go old new b 0.
Proof.
  induction a as [|c a IH]; intros b; simpl.
  - destruct b; reflexivity.
  - apply IH.
Qed.

(** An occurrence at the head is replaced, and the scan goes on after it. *)
Lemma replace_head old new r :
  old <> [] -> replace old new (old ++ r) = new ++ replace old new r.
Proof.
  destruct old as [|c old]; [congruence|]. intros _.
  pose proof (startswith_app (c :: old) r) as Hs.
  unfold replace. rewrite <- app_comm_cons in *.
  cbn [replace_go]. rewrite Hs. cbn [length]. simpl Nat.sub. rewrite ?Nat.sub_0_r.
  now rewrite replace_go_skip.
Qed.

(** A character that does not start an occurrence is copied. *)
Lemma replace_cons old new c s :
  old <> [] -> startswith old (c :: s) = false ->
  replace old new (c :: s) = c :: replace old new s.
Proof.
  destruct old as [|x old]; [congruence|]. intros _ H.
  unfold replace. cbn [replace_go]. now rewrite H.
Qed.

Lemma replace_nil old new : old <> [] -> replace old new [] = [].
Proof. destruct old; [congruence | reflexivity]. Qed.

(** Without an occurrence the text is unchanged. *)
Lemma replace_absent old new : forall s,
  old <> [] -> contains old s = false -> replace old new s = s.
Proof.
  intros s Hold. induction s as [|c s IH]; intro H.
  - now apply replace_nil.
  - simpl in H. apply orb_false_iff in H as [H1 H2].
    rewrite replace_cons by assumption. now rewrite IH.
Qed.

(** ** Session state *)

Lemma reset_init st : PrivacyGateway.reset st = PrivacyGateway.init.
Proof. destruct st as [m [a b c d e]]. reflexivity. Qed.

(** C7. A call of [mask] does not depend on the state the instance is in:
    whatever mapping and counters earlier calls left behind, the masked text
    and the mapping returned are those a freshly constructed instance
    returns, for both maskers; in particular after any earlier call of
    [mask] on the same instance. *)
Theorem mask_session_scoped :
  (forall st text,
      fst (PrivacyGateway.mask text st) = PrivacyGateway.mask_fresh text) /\
  (forall st text0 text,
      fst (PrivacyGateway.mask text (snd (PrivacyGateway.mask text0 st)))
      = PrivacyGateway.mask_fresh text) /\
  (forall st text detected_pii,
      fst (LocalLLMGateway.mask text detected_pii st)
      = LocalLLMGateway.mask_fresh text detected_pii) /\
  (forall st text0 detected0 text detected_pii,
      fst (LocalLLMGateway.mask text detected_pii
             (snd (LocalLLMGateway.mask text0 detected0 st)))
      = LocalLLMGateway.mask_fresh text detected_pii).
Proof.
  assert (forall st text,
             fst (PrivacyGateway.mask text st) = PrivacyGateway.mask_fresh text) as H1.
  { intros st text. unfold PrivacyGateway.mask_fresh, PrivacyGateway.mask.
    now rewrite !reset_init. }
  assert (forall st text detected_pii,
             fst (LocalLLMGateway.mask text detected_pii st)
             = LocalLLMGateway.mask_fresh text detected_pii) as H2.
  { intros st text d. reflexivity. }
  repeat split; intros; auto.
Qed.

(** ** The SSN and phone example *)

(** C2. On ["SSN 123-45-6789, call 555-123-4567"] the code records the SSN
    under [[SSN_1]] and leaves the phone number in the text, unrecorded: the
    phone scan finds ["[SSN_"] before the match and skips it. *)
Theorem mask_ssn_then_phone :
  PrivacyGateway.mask_fresh (s2l "SSN 123-45-6789, call 555-123-4567")
  = (s2l "SSN [SSN_1], call 555-123-4567",
     [(s2l "[SSN_1]", s2l "123-45-6789")]).
Proof. vm_compute. reflexivity. Qed.

(** ** The health probe *)

(** C9, as the code has it. When the request of the model check fails with a
    request exception (connection failure, timeout) or is answered with a
    status other than 200, [get_status] raises nothing: the model flag is
    false and the backend flag tells whether the first request was answered
    with status 200.  Against an unreachable endpoint both requests fail and
    both flags are false. *)
Theorem get_status_network_failure st o1 o2 :
  no_payload o2 = true ->
  LocalLLMGateway.get_status st o1 o2 = Ok (answered_200 o1, false) /\
  LocalLLMGateway.get_status st LocalLLMGateway.RequestException
                             LocalLLMGateway.RequestException
  = Ok (false, false).
Proof.
  intro H. split; [|reflexivity].
  unfold LocalLLMGateway.get_status.
  destruct o1 as [|s1 b1]; destruct o2 as [|s2 b2]; simpl in *; try reflexivity;
    destruct (s2 =? 200); simpl in *; try discriminate; reflexivity.
Qed.

Lemma get_status_network_failure_witness :
  LocalLLMGateway.get_status LocalLLMGateway.init
    (LocalLLMGateway.Response 200 None) LocalLLMGateway.RequestException
  = Ok (true, false) /\
  LocalLLMGateway.get_status LocalLLMGateway.init
    LocalLLMGateway.RequestException LocalLLMGateway.RequestException
  = Ok (false, false).
Proof.
  apply (get_status_network_failure LocalLLMGateway.init
           (LocalLLMGateway.Response 200 None) LocalLLMGateway.RequestException).
  reflexivity.
Defined.

(** C9 as stated fails: when the endpoint answers both requests with status
    200 and a JSON body that is not an object (here the empty array),
    [response.json().get] raises an [AttributeError], which [get_status]
    propagates; and when the model is loaded the flags are true. *)
Lemma get_status_raises :
  LocalLLMGateway.get_status LocalLLMGateway.init (LocalLLMGateway.Response 200 (Some (JArr []))) (LocalLLMGateway.Response 200 (Some (JArr [])))
  = Raise AttributeError /\
  LocalLLMGateway.get_status LocalLLMGateway.init
    (LocalLLMGateway.Response 200 (Some (JObj [(s2l "models", JArr [JObj [(s2l "name", JStr (s2l "llama3.1:8b"))]])])))
    (LocalLLMGateway.Response 200 (Some (JObj [(s2l "models", JArr [JObj [(s2l "name", JStr (s2l "llama3.1:8b"))]])])))
  = Ok (true, true).
Proof. split; vm_compute; reflexivity. Qed.

(** ** Detection: the span that [detect_pii] parses *)

Lemma any_char_true c : LocalLLMGateway.any_char c = true.
Proof. unfold LocalLLMGateway.any_char. apply orb_negb_r. Qed.

Lemma filter_all {A} (f : A -> bool) l :
  (forall x, f x = true) -> filter f l = l.
Proof.
  intro H. induction l as [|x l IH]; simpl; [reflexivity|].
  now rewrite H, IH.
Qed.

(** The alternatives of [json_tail] at [c :: s] are those at [s] with [c]
    in front, then, last, the brace alone. *)
Lemma json_tail_cons prev c s :
  mt json_tail prev (c :: s)
  = map (fun '(m, r) => (c :: m, r)) (mt json_tail (Some c) s)
    ++ (if is_char "}" c then [([c], s)] else []).
Proof.
  unfold json_tail. cbn [mt rep_ends].
  rewrite any_char_true. cbn [andb hi_allows hi_pred].
  rewrite !filter_all by (intros [m r]; reflexivity).
  rewrite flat_map_app. f_equal.
  - generalize (rep_ends LocalLLMGateway.any_char None s) as l.
    induction l as [|[m r] l IH]; [reflexivity|].
    cbn [map flat_map]. rewrite map_app, <- IH. f_equal.
    rewrite map_map. destruct r as [|x r]; [reflexivity|].
    destruct (is_char "}" x); reflexivity.
  - cbn. destruct (is_char "}" c); reflexivity.
Qed.


Lemma json_tail_hd : forall s prev,
  option_map fst (hd_error (mt json_tail prev s)) = upto_last_close s.
Proof.
  induction s as [|c s IH]; intro prev; [reflexivity|].
  rewrite json_tail_cons. cbn [upto_last_close].
  rewrite <- (IH (Some c)).
  destruct (mt json_tail (Some c) s) as [|[m r] l]; cbn.
  - destruct (is_char "}" c); reflexivity.
  - reflexivity.
Qed.

Lemma json_pattern_mt prev s :
  option_map (fun x : found => snd (fst x))
             (hd_error (mt_pat LocalLLMGateway.json_pattern prev s))
  = match s with
    | [] => None
    | c :: s' => if is_char "{" c
                 then option_map (cons c) (upto_last_close s')
                 else None
    end.
Proof.
  unfold LocalLLMGateway.json_pattern.
  cbn [mt_pat part_re seqs]. fold json_tail. cbn [mt].
  destruct s as [|c s]; [reflexivity|].
  destruct (is_char "{" c); [|reflexivity].
  cbn [flat_map]. rewrite app_nil_r, <- (json_tail_hd s (lastc prev [c])).
  destruct (mt json_tail (lastc prev [c]) s) as [|[m r] l]; cbn; [reflexivity|].
  now rewrite app_nil_r.
Qed.

Lemma json_search_none : forall s prev pos,
  upto_last_close s = None ->
  search_go LocalLLMGateway.json_pattern prev pos s = None.
Proof.
  induction s as [|c s IH]; intros prev pos H.
  - reflexivity.
  - cbn [upto_last_close] in H.
    destruct (upto_last_close s) eqn:E; [discriminate|].
    cbn [search_go].
    pose proof (json_pattern_mt prev (c :: s)) as Hm.
    cbv beta iota in Hm. rewrite E in Hm.
    destruct (mt_pat LocalLLMGateway.json_pattern prev (c :: s)) as [|x l].
    + now apply IH.
    + cbn in Hm. destruct (is_char "{" c); discriminate.
Qed.

Lemma json_search : forall s prev pos,
  option_map (fun x : nat * found => snd (fst (snd x)))
             (search_go LocalLLMGateway.json_pattern prev pos s)
  = brace_span s.
Proof.
  induction s as [|c s IH]; intros prev pos.
  - reflexivity.
  - cbn [search_go brace_span].
    pose proof (json_pattern_mt prev (c :: s)) as Hm.
    cbv beta iota in Hm.
    destruct (mt_pat LocalLLMGateway.json_pattern prev (c :: s)) as [|x l].
    + cbn in Hm. destruct (is_char "{" c).
      * destruct (upto_last_close s) eqn:E; [discriminate|].
        now rewrite json_search_none.
      * apply IH.
    + cbn in Hm. cbn. destruct (is_char "{" c); [|discriminate].
      destruct (upto_last_close s); cbn in Hm; [|discriminate].
      now inversion Hm.
Qed.

Lemma json_match_span response :
  LocalLLMGateway.json_match response = brace_span response.
Proof.
  unfold LocalLLMGateway.json_match, re_search.
  rewrite <- (json_search response None 0).
  destruct (search_go LocalLLMGateway.json_pattern None 0 response)
    as [[pos [[gs w] r]]|]; reflexivity.
Qed.

(** What [brace_span] selects: the text from the first opening brace to the
    last closing brace. *)
Lemma is_char_true x c : is_char x c = true <-> x = c.
Proof. apply ascii_eqb_eq. Qed.

Lemma upto_last_close_none : forall s,
  upto_last_close s = None <-> ~ In "}"%char s.
Proof.
  induction s as [|c s IH]; cbn [upto_last_close In].
  - split; [intros _ [] | reflexivity].
  - destruct (upto_last_close s) eqn:E.
    + split; [discriminate|]. intro H. exfalso.
      assert (~ In "}"%char s) as H' by tauto.
      apply IH in H'. discriminate.
    + destruct (is_char "}" c) eqn:Ec.
      * apply is_char_true in Ec. split; [discriminate|].
        intro H. exfalso. apply H. left. congruence.
      * split; [|reflexivity]. intros _ [H|H].
        -- symmetry in H. apply is_char_true in H. congruence.
        -- now apply (proj1 IH).
Qed.

Lemma upto_last_close_intro : forall m b,
  ~ In "}"%char b ->
  upto_last_close (m ++ "}"%char :: b) = Some (m ++ ["}"%char]).
Proof.
  induction m as [|c m IH]; intros b Hb; cbn [app upto_last_close].
  - apply upto_last_close_none in Hb. rewrite Hb.
    now rewrite (proj2 (is_char_true _ _) eq_refl).
  - now rewrite IH.
Qed.

Lemma upto_last_close_elim : forall s t,
  upto_last_close s = Some t ->
  exists m b, s = m ++ "}"%char :: b /\ t = m ++ ["}"%char] /\ ~ In "}"%char b.
Proof.
  induction s as [|c s IH]; intros t H; cbn [upto_last_close] in H.
  - discriminate.
  - destruct (upto_last_close s) as [u|] eqn:E.
    + inversion H; subst.
      destruct (IH u eq_refl) as (m & b & -> & -> & Hb).
      now exists (c :: m), b.
    + destruct (is_char "}" c) eqn:Ec; [|discriminate].
      apply is_char_true in Ec. inversion H; subst.
      exists [], s. repeat split. now apply upto_last_close_none.
Qed.

Lemma brace_span_intro : forall a m b,
  ~ In "{"%char a -> ~ In "}"%char b ->
  brace_span (a ++ "{"%char :: m ++ "}"%char :: b)
  = Some ("{"%char :: m ++ ["}"%char]).
Proof.
  induction a as [|c a IH]; intros m b Ha Hb; cbn [app brace_span].
  - rewrite (proj2 (is_char_true _ _) eq_refl).
    now rewrite upto_last_close_intro.
  - destruct (is_char "{" c) eqn:Ec.
    + apply is_char_true in Ec. exfalso. apply Ha. now left.
    + apply IH; [|assumption]. intro H. apply Ha. now right.
Qed.

Lemma brace_span_elim : forall s t,
  brace_span s = Some t ->
  exists a m b, s = a ++ "{"%char :: m ++ "}"%char :: b
                /\ t = "{"%char :: m ++ ["}"%char]
                /\ ~ In "{"%char a /\ ~ In "}"%char b.
Proof.
  induction s as [|c s IH]; intros t H; cbn [brace_span] in H.
  - discriminate.
  - destruct (is_char "{" c) eqn:Ec.
    + apply is_char_true in Ec. subst c.
      destruct (upto_last_close s) as [u|] eqn:E; [|discriminate].
      inversion H; subst.
      apply upto_last_close_elim in E as (m & b & -> & -> & Hb).
      exists [], m, b. repeat split; auto.
    + destruct (IH t H) as (a & m & b & -> & -> & Ha & Hb).
      exists (c :: a), m, b. repeat split; auto.
      intros [H1|H1]; [|contradiction].
      symmetry in H1. apply is_char_true in H1. congruence.
Qed.

(** C5, as the code has it.  Whatever the reply of the model, [detect_pii]
    parses the text from the first opening brace of the reply to its last
    closing brace.  When the reply has no such text it returns the empty
    dict; when the text parses it returns the parse; when [json.loads]
    raises a [json.JSONDecodeError] it returns the empty dict; and any other
    exception of [json.loads] (a [RecursionError] for a text nested too
    deeply) is raised by [detect_pii] as well. *)
Theorem detect_pii_brace_span (json_loads : str -> result json) response :
  LocalLLMGateway.detect_pii json_loads (Ok response)
  = match brace_span response with
    | Some text => match json_loads text with
                   | Ok j => Ok j
                   | Raise JSONDecodeError => Ok (JObj [])
                   | Raise e => Raise e
                   end
    | None => Ok (JObj [])
    end.
Proof.
  unfold LocalLLMGateway.detect_pii, LocalLLMGateway.parse_response.
  now rewrite json_match_span.
Qed.

(** C5 as stated fails: in a reply with a JSON object followed by prose that
    has a brace of its own, the first balanced object is the JSON object, but
    the text [detect_pii] extracts runs to the last closing brace of the
    reply. *)
Lemma json_match_not_first_balanced :
  first_balanced_object (reply_object ++ s2l " as {ssn: [...]}")
  = Some reply_object /\
  LocalLLMGateway.json_match (reply_object ++ s2l " as {ssn: [...]}")
  = Some (reply_object ++ s2l " as {ssn: [...]}").
Proof. split; vm_compute; reflexivity. Qed.

(** ** The scan of [re.sub] *)

Section ScanFacts.
Context {St : Type}.
Variable p : pattern.
Variable f : nat -> list str -> St -> str * St.

(** [re.sub] runs the callback over the trace of the scan. *)
Lemma sub_go_events : forall s prev pos skip st,
  sub_go p f prev pos s skip st
  = run_events f (scan_events p prev pos s skip) st.
Proof.
  induction s as [|c s IH]; intros prev pos skip st.
  - cbn [sub_go scan_events]. destruct skip; [|reflexivity].
    destruct (mt_pat p prev []) as [|[[gs w] r] l]; [reflexivity|].
    cbn [run_events run_event]. destruct (f pos gs st) as [o st1].
    now rewrite app_nil_r.
  - cbn [sub_go scan_events]. destruct skip as [|k].
    + destruct (mt_pat p prev (c :: s)) as [|[[gs w] r] l].
      * cbn [run_events run_event]. rewrite IH.
        now destruct (run_events f _ st).
      * destruct w as [|x w'].
        -- cbn [run_events run_event].
           destruct (f pos gs st) as [rep st1]. rewrite IH.
           now destruct (run_events f _ st1).
        -- cbn [run_events run_event].
           destruct (f pos gs st) as [rep st1]. rewrite IH.
           now destruct (run_events f _ st1).
    + apply IH.
Qed.

Lemma re_sub_events text st :
  re_sub p f text st = run_events f (finditer p text) st.
Proof. apply sub_go_events. Qed.

(** A property of the state that every call of the callback on a match of
    the pattern keeps, is kept by the scan. *)
Lemma run_events_invariant (P : St -> Prop) (Q : event -> Prop) :
  (forall pos gs w st, Q (Match pos gs w) -> P st -> P (snd (f pos gs st))) ->
  forall evs st, Forall Q evs -> P st -> P (snd (run_events f evs st)).
Proof.
  intros Hf. induction evs as [|e evs IH]; intros st HQ HP; [exact HP|].
  inversion HQ; subst. cbn [run_events].
  destruct (run_event f e st) as [o1 st1] eqn:E1.
  specialize (IH st1).
  destruct (run_events f evs st1) as [o2 st2]. cbn [snd] in *.
  apply IH; [assumption|].
  destruct e as [c|pos gs w]; cbn [run_event] in E1.
  - now inversion E1; subst.
  - specialize (Hf pos gs w st H1 HP). now rewrite E1 in Hf.
Qed.
End ScanFacts.

Lemma scan_events_first_match p : forall s prev pos skip,
  Forall (first_match p) (scan_events p prev pos s skip).
Proof.
  induction s as [|c s IH]; intros prev pos skip; cbn [scan_events].
  - destruct skip; [|constructor].
    destruct (mt_pat p prev []) as [|[[gs w] r] l] eqn:E; constructor.
    + now exists prev, [], r, l.
    + constructor.
  - destruct skip as [|k]; [|apply IH].
    destruct (mt_pat p prev (c :: s)) as [|[[gs w] r] l] eqn:E.
    + constructor; [exact I | apply IH].
    + destruct w as [|x w'].
      * constructor; [now exists prev, (c :: s), r, l|].
        constructor; [exact I | apply IH].
      * constructor; [now exists prev, (c :: s), r, l | apply IH].
Qed.

(** ** Placeholders *)

Lemma s2l_inj a b : s2l a = s2l b -> a = b.
Proof.
  unfold s2l. intro H.
  rewrite <- (string_of_list_ascii_of_string a), H.
  apply string_of_list_ascii_of_string.
Qed.

Lemma dec_inj n m : dec n = dec m -> n = m.
Proof.
  unfold dec. intro H. apply s2l_inj in H.
  assert (Some (Nat.to_uint n) = Some (Nat.to_uint m)) as H'.
  { now rewrite <- !DecimalString.NilEmpty.usu, H. }
  inversion H' as [E].
  rewrite <- (DecimalNat.Unsigned.of_to n), E.
  apply DecimalNat.Unsigned.of_to.
Qed.

Lemma uint_digits d :
  Forall (fun c => is_digit c = true)
         (s2l (DecimalString.NilEmpty.string_of_uint d)).
Proof.
  induction d; cbn; constructor; auto.
Qed.

Lemma dec_digits n : Forall (fun c => is_digit c = true) (dec n).
Proof. apply uint_digits. Qed.

Lemma placeholder_pii t n :
  placeholder_of (PrivacyGateway.pii_name t) n = tok_prefix t ++ dec n ++ s2l "]".
Proof. destruct t; reflexivity. Qed.

Lemma digit_not_letter c x :
  is_digit c = true -> is_alpha x = true -> c <> x.
Proof.
  intros Hc Hx E. subst x. revert Hc Hx.
  destruct c as [[] [] [] [] [] [] [] []]; vm_compute; congruence.
Qed.

Lemma entry_key_inj tn tn' : entry_key tn = entry_key tn' -> tn = tn'.
Proof.
  destruct tn as [t n], tn' as [t' n']. unfold entry_key. cbn [fst snd].
  rewrite !placeholder_pii. intro H.
  destruct t, t';
    try (apply app_inv_head, app_inv_tail, dec_inj in H; now subst);
    cbn in H; discriminate.
Qed.

(** ** Mappings *)

Lemma dict_set_fresh d k v :
  ~ In k (keys d) -> dict_set d k v = d ++ [(k, v)].
Proof.
  induction d as [|[k' v'] d IH]; intro H; cbn [dict_set app]; [reflexivity|].
  destruct (str_eqb k' k) eqn:E.
  - apply str_eqb_eq in E. exfalso. apply H. now left.
  - rewrite IH; [reflexivity|]. intro Hin. apply H. now right.
Qed.

Lemma dict_set_keys d k v :
  keys (dict_set d k v) = if existsb (str_eqb k) (keys d) then keys d
                          else keys d ++ [k].
Proof.
  unfold keys.
  induction d as [|[k' v'] d IH]; cbn [dict_set map existsb fst]; [reflexivity|].
  destruct (str_eqb k' k) eqn:E.
  - apply str_eqb_eq in E. subst. now rewrite str_eqb_refl.
  - assert (str_eqb k k' = false) as E'.
    { apply str_eqb_neq. apply str_eqb_neq in E. congruence. }
    rewrite E'. cbn [orb map fst]. rewrite IH.
    now destruct (existsb (str_eqb k) (map fst d)).
Qed.

Lemma existsb_str_eqb k l : existsb (str_eqb k) l = true <-> In k l.
Proof.
  rewrite existsb_exists. split.
  - intros [x [Hin E]]. apply str_eqb_eq in E. now subst.
  - intro H. exists k. split; [assumption | apply str_eqb_refl].
Qed.

(** A dict has distinct keys. *)
Lemma dict_set_NoDup d k v : NoDup (keys d) -> NoDup (keys (dict_set d k v)).
Proof.
  intro H. rewrite dict_set_keys.
  destruct (existsb (str_eqb k) (keys d)) eqn:E; [assumption|].
  apply NoDup_app_remove_l with (l := []). cbn.
  assert (~ In k (keys d)) as Hk.
  { intro Hin. apply existsb_str_eqb in Hin. congruence. }
  clear E. induction (keys d) as [|x l IH]; cbn.
  - constructor; [intros [] | constructor].
  - inversion H; subst. constructor.
    + rewrite in_app_iff. intros [Hin|[->|[]]]; [contradiction|].
      apply Hk. now left.
    + apply IH; [assumption|]. intro Hin. apply Hk. now right.
Qed.

(** ** Numbering of the entries of the pattern-based masker *)

Lemma numbers_of_app t es es' :
  numbers_of t (es ++ es') = numbers_of t es ++ numbers_of t es'.
Proof. unfold numbers_of. now rewrite filter_app, map_app. Qed.

Lemma pii_eqb_eq a b : pii_eqb a b = true <-> a = b.
Proof. destruct a, b; cbn; split; congruence. Qed.

Lemma pii_eqb_refl a : pii_eqb a a = true.
Proof. now destruct a. Qed.

Lemma counter_set_same c t n :
  PrivacyGateway.counter (PrivacyGateway.set_counter c t n) t = n.
Proof. now destruct t. Qed.

Lemma counter_set_other c t t' n :
  t <> t' ->
  PrivacyGateway.counter (PrivacyGateway.set_counter c t n) t'
  = PrivacyGateway.counter c t'.
Proof. destruct t, t'; cbn; congruence. Qed.

Lemma numbered_keys st es :
  numbered st es ->
  keys (PrivacyGateway.mapping st)
  = map entry_key (map (fun e => (entry_type e, entry_num e)) es).
Proof.
  intros [Hm _]. rewrite Hm. unfold keys. rewrite !map_map.
  apply map_ext. now intros [[t n] v].
Qed.

Lemma numbers_of_In t n es :
  In n (numbers_of t es) <->
  In (t, n) (map (fun e => (entry_type e, entry_num e)) es).
Proof.
  unfold numbers_of. rewrite !in_map_iff. split.
  - intros [e [<- He]]. apply filter_In in He as [He Ht].
    apply pii_eqb_eq in Ht. subst. now exists e.
  - intros [e [E He]]. inversion E; subst. exists e. split; [reflexivity|].
    apply filter_In. split; [assumption | apply pii_eqb_refl].
Qed.

Lemma numbers_NoDup es :
  (forall t, NoDup (numbers_of t es)) ->
  NoDup (map (fun e => (entry_type e, entry_num e)) es).
Proof.
  induction es as [|e es IH]; intro H; cbn [map]; constructor.
  - intro Hin. apply numbers_of_In in Hin.
    specialize (H (entry_type e)). unfold numbers_of in H. cbn [filter] in H.
    rewrite pii_eqb_refl in H. cbn [map] in H. inversion H; subst.
    contradiction.
  - apply IH. intro t. specialize (H t). unfold numbers_of in *.
    cbn [filter] in H. destruct (pii_eqb (entry_type e) t); [|assumption].
    cbn [map] in H. now inversion H.
Qed.

(** The keys of a numbered mapping are pairwise distinct. *)
Lemma numbered_NoDup st es :
  numbered st es -> NoDup (keys (PrivacyGateway.mapping st)).
Proof.
  intro H. rewrite (numbered_keys st es H).
  apply Finite.Injective_map_NoDup.
  - intros x y. apply entry_key_inj.
  - apply numbers_NoDup. intro t. destruct H as [_ H]. rewrite H.
    apply seq_NoDup.
Qed.

(** The next placeholder of a category is not a key yet. *)
Lemma numbered_fresh st es t :
  numbered st es ->
  ~ In (placeholder_of (PrivacyGateway.pii_name t)
          (S (PrivacyGateway.counter (PrivacyGateway.counters st) t)))
       (keys (PrivacyGateway.mapping st)).
Proof.
  intros H Hin. rewrite (numbered_keys st es H) in Hin.
  apply in_map_iff in Hin as [[t' n'] [E Hin]].
  apply (entry_key_inj (t', n') (t, _)) in E. inversion E; subst.
  apply numbers_of_In in Hin. destruct H as [_ H]. rewrite H in Hin.
  apply in_seq in Hin. lia.
Qed.

(** Recording a value appends the next entry of its category. *)
Lemma record_numbered st es t v :
  numbered st es ->
  let n := S (PrivacyGateway.counter (PrivacyGateway.counters st) t) in
  fst (PrivacyGateway.record t v st) = placeholder_of (PrivacyGateway.pii_name t) n /\
  PrivacyGateway.mapping (snd (PrivacyGateway.record t v st))
  = PrivacyGateway.mapping st ++ [(placeholder_of (PrivacyGateway.pii_name t) n, v)] /\
  PrivacyGateway.counters (snd (PrivacyGateway.record t v st))
  = PrivacyGateway.set_counter (PrivacyGateway.counters st) t n /\
  numbered (snd (PrivacyGateway.record t v st)) (es ++ [(t, n, v)]).
Proof.
  intros H n.
  unfold PrivacyGateway.record, PrivacyGateway._create_placeholder.
  cbn [fst snd PrivacyGateway.mapping PrivacyGateway.counters].
  fold n. pose proof (numbered_fresh st es t H) as Hf. fold n in Hf.
  rewrite (dict_set_fresh _ _ _ Hf).
  repeat split.
  - cbn [PrivacyGateway.mapping]. destruct H as [Hm _].
    now rewrite Hm, map_app.
  - intro t'. cbn [PrivacyGateway.counters]. rewrite numbers_of_app.
    destruct H as [_ H]. rewrite H. unfold numbers_of at 1.
    cbn [filter entry_type fst].
    destruct (pii_eqb t t') eqn:E.
    + apply pii_eqb_eq in E. subst t'. rewrite counter_set_same.
      cbn [map entry_num fst snd]. subst n.
      now rewrite seq_S.
    + cbn [map]. rewrite app_nil_r, counter_set_other; [reflexivity|].
      intro E'. subst. now rewrite pii_eqb_refl in E.
Qed.

Lemma init_numbered : numbered PrivacyGateway.init [].
Proof. split; [reflexivity | now intros []]. Qed.

(** ** The mapping built by the pattern-based masker *)

Lemma record_is_numbered t v st :
  is_numbered st -> is_numbered (snd (PrivacyGateway.record t v st)).
Proof.
  intros [es H]. eexists. apply (record_numbered st es t v H).
Qed.

Lemma re_sub_is_numbered p f text st :
  (forall pos gs st, is_numbered st -> is_numbered (snd (f pos gs st))) ->
  is_numbered st -> is_numbered (snd (re_sub p f text st)).
Proof.
  intros Hf H. rewrite re_sub_events.
  apply (run_events_invariant f is_numbered (fun _ => True)); auto.
  apply Forall_forall. auto.
Qed.

Lemma mask_credit_cards_numbered text st :
  is_numbered st -> is_numbered (snd (PrivacyGateway._mask_credit_cards text st)).
Proof.
  apply re_sub_is_numbered. intros. now apply record_is_numbered.
Qed.

Lemma mask_ssn_numbered text st :
  is_numbered st -> is_numbered (snd (PrivacyGateway._mask_ssn text st)).
Proof.
  apply re_sub_is_numbered. intros pos gs st' H.
  cbv beta zeta.
  match goal with |- context [if ?b then _ else _] => destruct b end;
    [now apply record_is_numbered | assumption].
Qed.

Lemma mask_emails_numbered text st :
  is_numbered st -> is_numbered (snd (PrivacyGateway._mask_emails text st)).
Proof.
  apply re_sub_is_numbered. intros. now apply record_is_numbered.
Qed.

Lemma mask_phone_numbers_numbered text st :
  is_numbered st -> is_numbered (snd (PrivacyGateway._mask_phone_numbers text st)).
Proof.
  apply re_sub_is_numbered. intros pos gs st' H.
  unfold PrivacyGateway.phone_replace.
  match goal with |- context [if ?b then _ else _] => destruct b end;
    [now apply record_is_numbered | assumption].
Qed.

Lemma name_replace_snd i gs st :
  snd (PrivacyGateway.name_replace i gs st)
  = snd (PrivacyGateway.record PrivacyGateway.name (group gs i) st).
Proof.
  unfold PrivacyGateway.name_replace.
  now destruct (PrivacyGateway.record PrivacyGateway.name (group gs i) st).
Qed.

Lemma mask_names_numbered text st :
  is_numbered st -> is_numbered (snd (PrivacyGateway._mask_names text st)).
Proof.
  unfold PrivacyGateway._mask_names.
  generalize PrivacyGateway.name_patterns as l. intros l. revert text st.
  induction l as [|[pat i] l IH]; intros text st H; [exact H|].
  cbn [fold_left].
  destruct (re_sub pat (fun _ => PrivacyGateway.name_replace i) text st)
    as [text1 st1] eqn:E.
  apply IH.
  change st1 with (snd (text1, st1)). rewrite <- E.
  apply re_sub_is_numbered; [|assumption].
  intros pos gs st' H'. rewrite name_replace_snd. now apply record_is_numbered.
Qed.

(** [mask] returns the mapping of the instance, and that mapping is
    numbered. *)
Lemma mask_numbered text st :
  snd (fst (PrivacyGateway.mask text st))
  = PrivacyGateway.mapping (snd (PrivacyGateway.mask text st)) /\
  is_numbered (snd (PrivacyGateway.mask text st)).
Proof.
  unfold PrivacyGateway.mask. rewrite reset_init.
  pose proof (mask_credit_cards_numbered text PrivacyGateway.init) as H1.
  destruct (PrivacyGateway._mask_credit_cards text PrivacyGateway.init) as [t1 s1].
  pose proof (mask_ssn_numbered t1 s1) as H2.
  destruct (PrivacyGateway._mask_ssn t1 s1) as [t2 s2].
  pose proof (mask_emails_numbered t2 s2) as H3.
  destruct (PrivacyGateway._mask_emails t2 s2) as [t3 s3].
  pose proof (mask_phone_numbers_numbered t3 s3) as H4.
  destruct (PrivacyGateway._mask_phone_numbers t3 s3) as [t4 s4].
  pose proof (mask_names_numbered t4 s4) as H5.
  destruct (PrivacyGateway._mask_names t4 s4) as [t5 s5].
  cbn [fst snd] in *. split; [reflexivity|].
  apply H5, H4, H3, H2, H1. exists []. apply init_numbered.
Qed.

Lemma phone_key_test t n :
  startswith (s2l "[PHONE_") (placeholder_of (PrivacyGateway.pii_name t) n)
  = pii_eqb t PrivacyGateway.phone.
Proof.
  rewrite placeholder_pii. destruct t; try (cbv -[dec]; reflexivity).
Qed.

Lemma phone_keys_numbers es :
  phone_keys (map render es)
  = map (placeholder_of (s2l "phone")) (numbers_of PrivacyGateway.phone es).
Proof.
  unfold phone_keys, keys, numbers_of.
  induction es as [|[[t n] v] es IH]; [reflexivity|].
  cbn [map filter fst render entry_type entry_num entry_value snd].
  rewrite phone_key_test. destruct (pii_eqb t PrivacyGateway.phone) eqn:E.
  - apply pii_eqb_eq in E. subst. cbn [map entry_num fst snd]. now rewrite IH.
  - apply IH.
Qed.

(** C10. A phone match that the SSN heuristic skips changes neither the
    mapping nor any counter, and the phone placeholders of the mapping that
    [mask] returns are numbered 1, 2, ..., [k] in order, without a gap. *)
Theorem phone_placeholders_consecutive text :
  (forall scanned pos gs st,
      contains (s2l "[SSN_") (firstn pos scanned) = true ->
      PrivacyGateway.phone_replace scanned pos gs st = (group gs 1, st)) /\
  exists k,
    phone_keys (snd (PrivacyGateway.mask_fresh text))
    = map (placeholder_of (s2l "phone")) (seq 1 k).
Proof.
  split.
  - intros scanned pos gs st H. unfold PrivacyGateway.phone_replace.
    now rewrite H.
  - unfold PrivacyGateway.mask_fresh.
    destruct (mask_numbered text PrivacyGateway.init) as [-> [es [Hm Hn]]].
    rewrite Hm, phone_keys_numbers, Hn. eauto.
Qed.

Lemma phone_placeholders_consecutive_witness :
  PrivacyGateway.phone_replace (s2l "SSN [SSN_1], call 555-123-4567") 18
    [s2l "555-123-4567"] PrivacyGateway.init
  = (s2l "555-123-4567", PrivacyGateway.init) /\
  exists k,
    phone_keys (snd (PrivacyGateway.mask_fresh
                       (s2l "call 555-123-4567 or 555-765-4321, SSN 123-45-6789")))
    = map (placeholder_of (s2l "phone")) (seq 1 k).
Proof.
  destruct (phone_placeholders_consecutive
              (s2l "call 555-123-4567 or 555-765-4321, SSN 123-45-6789"))
    as [H1 H2].
  split; [|exact H2].
  apply (H1 (s2l "SSN [SSN_1], call 555-123-4567") 18
            [s2l "555-123-4567"] PrivacyGateway.init).
  vm_compute. reflexivity.
Defined.

(** ** Matches *)

Lemma rep_ends_sound p : forall s hi m r,
  In (m, r) (rep_ends p hi s) ->
  s = m ++ r /\ Forall (fun c => p c = true) m.
Proof.
  induction s as [|c s IH]; intros hi m r H; cbn [rep_ends] in H.
  - destruct H as [H|[]]. inversion H; subst. now split.
  - destruct (p c) eqn:Ep; cbn [andb] in H.
    + destruct (hi_allows hi).
      * apply in_app_iff in H as [H|[H|[]]].
        -- apply in_map_iff in H as [[m' r'] [E H]]. inversion E; subst.
           apply IH in H as [-> Hm]. split; [reflexivity | now constructor].
        -- inversion H; subst. now split.
      * destruct H as [H|[]]. inversion H; subst. now split.
    + destruct H as [H|[]]. inversion H; subst. now split.
Qed.

Lemma Forall_allowed_l r1 r2 m :
  Forall (fun c => allowed r1 c = true) m ->
  Forall (fun c => allowed (Seq r1 r2) c = true) m.
Proof.
  apply Forall_impl. intros c H. cbn. now rewrite H.
Qed.

Lemma Forall_allowed_r r1 r2 m :
  Forall (fun c => allowed r2 c = true) m ->
  Forall (fun c => allowed (Seq r1 r2) c = true) m.
Proof.
  apply Forall_impl. intros c H. cbn. rewrite H. apply orb_true_r.
Qed.

(** A match is a prefix of the text, made of characters of the classes of
    the expression, and at least as long as its lower bound. *)
Lemma mt_sound r : forall prev s m rest,
  In (m, rest) (mt r prev s) ->
  s = m ++ rest /\ Forall (fun c => allowed r c = true) m /\ min_len r <= length m.
Proof.
  induction r as [|p| |r1 IH1 r2 IH2|p lo hi|r1 IH1];
    intros prev s m rest H; cbn [mt] in H.
  - destruct H as [H|[]]. inversion H; subst. repeat split; auto.
  - destruct s as [|c s]; [destruct H|].
    destruct (p c) eqn:Ep; [|destruct H].
    destruct H as [H|[]]. inversion H; subst. repeat split; auto.
  - destruct (is_boundary prev s); [|destruct H].
    destruct H as [H|[]]. inversion H; subst. repeat split; auto.
  - apply in_flat_map in H as [[m1 s1] [H1 H2]].
    apply in_map_iff in H2 as [[m2 s2] [E H2]]. inversion E; subst.
    apply IH1 in H1 as (-> & Ha1 & Hl1). apply IH2 in H2 as (-> & Ha2 & Hl2).
    repeat split.
    + now rewrite app_assoc.
    + apply Forall_app. split;
        [now apply Forall_allowed_l | now apply Forall_allowed_r].
    + cbn [min_len]. rewrite length_app. lia.
  - apply filter_In in H as [H Hlo]. apply Nat.leb_le in Hlo.
    apply rep_ends_sound in H as [-> Hm]. repeat split; auto.
  - apply in_app_iff in H as [H|[H|[]]].
    + apply IH1 in H as (-> & Ha & Hl). repeat split; auto; cbn; lia.
    + inversion H; subst. repeat split; auto; cbn; lia.
Qed.

(** Every match has a character that the expression must consume. *)
Lemma mt_must P r : forall prev s m rest,
  must P r -> In (m, rest) (mt r prev s) -> Exists P m.
Proof.
  induction r as [|p| |r1 IH1 r2 IH2|p lo hi|r1 IH1];
    intros prev s m rest HP H; cbn [mt must] in *; try contradiction.
  - destruct s as [|c s]; [destruct H|].
    destruct (p c) eqn:Ep; [|destruct H].
    destruct H as [H|[]]. inversion H; subst. constructor. now apply HP.
  - apply in_flat_map in H as [[m1 s1] [H1 H2]].
    apply in_map_iff in H2 as [[m2 s2] [E H2]]. inversion E; subst.
    apply Exists_app. destruct HP as [HP|HP]; [left|right]; eauto.
  - destruct HP as [Hlo HP].
    apply filter_In in H as [H Hlen]. apply Nat.leb_le in Hlen.
    apply rep_ends_sound in H as [_ Hm].
    destruct m as [|c m]; [cbn in Hlen; lia|].
    inversion Hm; subst. constructor. now apply HP.
Qed.

Lemma Forall_allowed_pat_hd x p m :
  Forall (fun c => allowed (part_re x) c = true) m ->
  Forall (fun c => allowed_pat (x :: p) c = true) m.
Proof.
  apply Forall_impl. intros c H. unfold allowed_pat. cbn. now rewrite H.
Qed.

Lemma Forall_allowed_pat_tl x p m :
  Forall (fun c => allowed_pat p c = true) m ->
  Forall (fun c => allowed_pat (x :: p) c = true) m.
Proof.
  apply Forall_impl. intros c H. unfold allowed_pat in *. cbn. rewrite H.
  apply orb_true_r.
Qed.

(** The same for a pattern, with its groups. *)
Lemma mt_pat_sound p : forall prev s gs w rest,
  In (gs, w, rest) (mt_pat p prev s) ->
  s = w ++ rest /\
  Forall (fun c => allowed_pat p c = true) w /\
  Forall (Forall (fun c => allowed_pat p c = true)) gs /\
  min_len_pat p <= length w.
Proof.
  induction p as [|x p IH]; intros prev s gs w rest H; cbn [mt_pat] in H.
  - destruct H as [H|[]]. inversion H; subst. repeat split; auto.
  - apply in_flat_map in H as [[m1 s1] [H1 H2]].
    apply in_map_iff in H2 as [[[gs2 w2] s2] [E H2]]. inversion E; subst.
    apply mt_sound in H1 as (-> & Ha1 & Hl1).
    apply IH in H2 as (-> & Ha2 & Hg2 & Hl2).
    assert (Forall (Forall (fun c => allowed_pat (x :: p) c = true)) gs2) as Hg.
    { revert Hg2. apply Forall_impl. intro g. apply Forall_allowed_pat_tl. }
    repeat split.
    + now rewrite app_assoc.
    + apply Forall_app. split;
        [now apply Forall_allowed_pat_hd | now apply Forall_allowed_pat_tl].
    + destruct x; [constructor|]; auto. now apply Forall_allowed_pat_hd.
    + cbn [min_len_pat fold_right]. fold (min_len_pat p).
      rewrite length_app. lia.
Qed.

Lemma mt_pat_must P p : forall prev s gs w rest,
  must_pat P p -> In (gs, w, rest) (mt_pat p prev s) -> Exists P w.
Proof.
  induction p as [|x p IH]; intros prev s gs w rest HP H; cbn [mt_pat] in H.
  - inversion HP.
  - apply in_flat_map in H as [[m1 s1] [H1 H2]].
    apply in_map_iff in H2 as [[[gs2 w2] s2] [E H2]]. inversion E; subst.
    apply Exists_app. inversion HP; subst.
    + left. eapply mt_must; eauto.
    + right. eapply IH; eauto.
Qed.

(** A pattern [\b(...)\b]: the match is the group, between two word
    boundaries. *)
Lemma mt_pat_bounded body prev s gs w rest :
  In (gs, w, rest) (mt_pat [Raw Bnd; Grp body; Raw Bnd] prev s) ->
  gs = [w] /\ In (w, rest) (mt body prev s) /\
  is_boundary prev s = true /\ is_boundary (lastc prev w) rest = true.
Proof.
  cbn [mt_pat part_re mt]. intro H.
  destruct (is_boundary prev s) eqn:Eb; [|destruct H].
  cbn [flat_map lastc fold_left] in H. rewrite app_nil_r in H.
  apply in_map_iff in H as [[[gs1 w1] s1] [E H]]. cbn in E. inversion E; subst.
  apply in_flat_map in H as [[m1 r1] [H1 H2]].
  apply in_map_iff in H2 as [[[gs2 w2] s2] [E2 H2]]. inversion E2; subst.
  destruct (is_boundary (lastc prev m1) r1) eqn:Eb2; [|destruct H2].
  cbn [flat_map] in H2. destruct H2 as [H2|[]]. inversion H2; subst.
  rewrite !app_nil_r. auto.
Qed.

(** A pattern of two groups: the match is the two groups one after the
    other. *)
Lemma mt_pat_two r1 r2 prev s gs w rest :
  In (gs, w, rest) (mt_pat [Grp r1; Grp r2] prev s) ->
  exists g1 g2, gs = [g1; g2] /\ w = g1 ++ g2.
Proof.
  cbn [mt_pat part_re]. intro H.
  apply in_flat_map in H as [[m1 s1] [H1 H2]].
  apply in_map_iff in H2 as [[[gs2 w2] s2] [E2 H2]]. inversion E2; subst.
  apply in_flat_map in H2 as [[m2 s3] [H2 H3]].
  cbn in H3. destruct H3 as [H3|[]]. inversion H3; subst.
  exists m1, m2. now rewrite app_nil_r.
Qed.

(** The trace of a scan spells the text. *)
Lemma scan_events_text p : forall s prev pos skip,
  concat (map event_text (scan_events p prev pos s skip)) = skipn skip s.
Proof.
  induction s as [|c s IH]; intros prev pos skip; cbn [scan_events].
  - destruct skip; [|reflexivity].
    destruct (mt_pat p prev []) as [|[[gs w] r] l] eqn:E; [reflexivity|].
    assert (In (gs, w, r) (mt_pat p prev [])) as H by (rewrite E; now left).
    apply mt_pat_sound in H as (H & _). symmetry in H.
    apply app_eq_nil in H as [-> _]. reflexivity.
  - destruct skip as [|k]; [|apply IH].
    destruct (mt_pat p prev (c :: s)) as [|[[gs w] r] l] eqn:E.
    + cbn. now rewrite IH.
    + assert (In (gs, w, r) (mt_pat p prev (c :: s))) as H by (rewrite E; now left).
      apply mt_pat_sound in H as (H & _).
      destruct w as [|x w]; cbn [map concat event_text].
      * cbn. now rewrite IH.
      * rewrite IH. cbn in H. inversion H; subst.
        now rewrite skipn_app, skipn_all, Nat.sub_diag.
Qed.

Lemma finditer_text p text : concat (map event_text (finditer p text)) = text.
Proof. apply scan_events_text. Qed.

(** The position of a match in the trace is its position in the text. *)
Lemma scan_events_starts p : forall s prev pos skip,
  starts_at (pos + skip) (scan_events p prev pos s skip).
Proof.
  induction s as [|c s IH]; intros prev pos skip; cbn [scan_events].
  - destruct skip; [|exact I].
    destruct (mt_pat p prev []) as [|[[gs w] r] l]; [exact I|].
    cbn. split; [lia | exact I].
  - destruct skip as [|k].
    + destruct (mt_pat p prev (c :: s)) as [|[[gs w] r] l].
      * cbn [starts_at event_text length]. split; [exact I|].
        replace (pos + 0 + 1) with (S pos + 0) by lia. apply IH.
      * destruct w as [|x w'].
        -- cbn [starts_at event_text length]. split; [lia|]. split; [exact I|].
           replace (pos + 0 + 0 + 1) with (S pos + 0) by lia. apply IH.
        -- cbn [starts_at event_text length]. split; [lia|].
           replace (pos + 0 + S (length w')) with (S pos + length w') by lia.
           apply IH.
    + replace (pos + S k) with (S pos + k) by lia. apply IH.
Qed.

Lemma first_match_bounded body evs :
  Forall (first_match [Raw Bnd; Grp body; Raw Bnd]) evs ->
  Forall whole_is_group evs.
Proof.
  apply Forall_impl. intros [c|pos gs w]; [trivial|].
  intros (prev & s & r & l & E). cbn.
  assert (In (gs, w, r) (mt_pat [Raw Bnd; Grp body; Raw Bnd] prev s)) as H
    by (rewrite E; now left).
  now apply mt_pat_bounded in H.
Qed.

Lemma run_events_ext {St} (f g : nat -> list str -> St -> str * St) (Q : event -> Prop) :
  (forall pos gs w st, Q (Match pos gs w) -> f pos gs st = g pos gs st) ->
  forall evs st, Forall Q evs -> run_events f evs st = run_events g evs st.
Proof.
  intros H. induction evs as [|e evs IH]; intros st HQ; [reflexivity|].
  inversion HQ; subst. cbn [run_events].
  assert (run_event f e st = run_event g e st) as ->.
  { destruct e; [reflexivity|]. cbn. eauto. }
  destruct (run_event g e st) as [o1 st1]. now rewrite IH.
Qed.

(** C3. The phone scan goes through the text from the left; its trace
    spells the text, every match of the trace starts where the text before
    it ends, is the first alternative of the phone pattern there and is the
    captured group; and the scan treats every match by the rule: left as it
    is, with nothing recorded, when ["[SSN_"] occurs in the text before the
    start of the match, and otherwise replaced by the next phone
    placeholder, recorded with the matched text. *)
Theorem phone_scan_rule text st :
  concat (map event_text (finditer PrivacyGateway.phone_pattern text)) = text /\
  starts_at 0 (finditer PrivacyGateway.phone_pattern text) /\
  Forall (first_match PrivacyGateway.phone_pattern)
         (finditer PrivacyGateway.phone_pattern text) /\
  Forall whole_is_group (finditer PrivacyGateway.phone_pattern text) /\
  PrivacyGateway._mask_phone_numbers text st
  = run_events (phone_rule text) (finditer PrivacyGateway.phone_pattern text) st.
Proof.
  pose proof (scan_events_first_match PrivacyGateway.phone_pattern text None 0 0) as Hf.
  fold (finditer PrivacyGateway.phone_pattern text) in Hf.
  split; [apply finditer_text|].
  split; [apply (scan_events_starts PrivacyGateway.phone_pattern text None 0 0)|].
  split; [assumption|].
  split; [now apply first_match_bounded in Hf|].
  unfold PrivacyGateway._mask_phone_numbers. rewrite re_sub_events.
  apply (run_events_ext _ _ (fun _ => True)); [|apply Forall_forall; auto].
  intros pos gs w st' _.
  unfold PrivacyGateway.phone_replace, phone_rule.
  destruct (contains (s2l "[SSN_") (firstn pos text)); reflexivity.
Qed.

(** ** The model-assisted masker *)

Lemma counters_get_set c k n :
  LocalLLMGateway.counters_get (LocalLLMGateway.counters_set c k n) k = n.
Proof.
  induction c as [|[k' n'] c IH]; cbn.
  - now rewrite str_eqb_refl.
  - destruct (str_eqb k' k) eqn:E; cbn; now rewrite E.
Qed.

Lemma startswith_prefix old a b :
  startswith old (a ++ b) = false -> startswith old a = false.
Proof.
  intro H. destruct (startswith old a) eqn:E; [|reflexivity].
  apply startswith_iff in E as [r ->].
  rewrite <- app_assoc, startswith_app in H. discriminate.
Qed.

Lemma contains_nil old : old <> [] -> contains old [] = false.
Proof. destruct old; [congruence | reflexivity]. Qed.

Lemma join_cons sep p q ps :
  join sep (p :: q :: ps) = p ++ sep ++ join sep (q :: ps).
Proof. reflexivity. Qed.

(** [replace] cuts the text at occurrences of [old] into pieces that do not
    contain [old], and joins the pieces with [new]. *)
Lemma replace_pieces old new : old <> [] -> forall s,
  exists pieces,
    pieces <> [] /\
    s = join old pieces /\
    replace old new s = join new pieces /\
    Forall (fun piece => contains old piece = false) pieces.
Proof.
  intros Hold s. remember (length s) as n eqn:Hn.
  revert s Hn. induction n as [n IH] using lt_wf_ind. intros s Hn.
  destruct s as [|c s].
  - exists [[]]. repeat split; try discriminate.
    + now apply replace_nil.
    + constructor; [now apply contains_nil | constructor].
  - destruct (startswith old (c :: s)) eqn:E.
    + apply startswith_iff in E as [r E].
      assert (length r < n) as Hr.
      { subst n. rewrite E, length_app. destruct old; [congruence|]. cbn. lia. }
      destruct (IH (length r) Hr r eq_refl) as (ps & Hne & Hs & Hrep & Hno).
      exists ([] :: ps). rewrite E. destruct ps as [|p ps]; [congruence|].
      repeat split; try discriminate.
      * rewrite join_cons. cbn [app]. now rewrite <- Hs.
      * rewrite replace_head by assumption. rewrite join_cons. cbn [app].
        now rewrite Hrep.
      * constructor; [now apply contains_nil | assumption].
    + assert (length s < n) as Hs' by (subst n; cbn; lia).
      destruct (IH (length s) Hs' s eq_refl) as (ps & Hne & Hs & Hrep & Hno).
      destruct ps as [|p ps]; [congruence|].
      exists ((c :: p) :: ps). repeat split; try discriminate.
      * destruct ps as [|q ps]; [cbn in *; now rewrite Hs|].
        rewrite join_cons in *. cbn [app]. now rewrite Hs.
      * rewrite replace_cons by assumption.
        destruct ps as [|q ps]; [cbn in *; now rewrite Hrep|].
        rewrite join_cons in *. cbn [app]. now rewrite Hrep.
      * inversion Hno; subst. constructor; [|assumption].
        cbn [contains]. apply orb_false_iff. split; [|assumption].
        destruct ps as [|q ps].
        -- assumption.
        -- rewrite join_cons, app_comm_cons in E.
           now apply startswith_prefix in E.
Qed.

(** The loop over the values of a category keeps its counter in step with
    the number of values recorded. *)
Lemma mask_value_step pii_type l value :
  let l' := LocalLLMGateway.mask_value pii_type l value in
  (LocalLLMGateway.masked_text l', LocalLLMGateway.l_mapping l',
   LocalLLMGateway.counters_get (LocalLLMGateway.l_counters l') pii_type)
  = value_step pii_type
      (LocalLLMGateway.masked_text l, LocalLLMGateway.l_mapping l,
       LocalLLMGateway.counters_get (LocalLLMGateway.l_counters l) pii_type)
      value.
Proof.
  unfold LocalLLMGateway.mask_value, value_step.
  destruct value as [|c v]; [reflexivity|].
  cbn [LocalLLMGateway.truthy andb].
  destruct (contains (c :: v) (LocalLLMGateway.masked_text l)); [|reflexivity].
  cbn [LocalLLMGateway.masked_text LocalLLMGateway.l_mapping LocalLLMGateway.l_counters].
  now rewrite counters_get_set.
Qed.

Lemma mask_values_steps pii_type : forall values l,
  let l' := fold_left (LocalLLMGateway.mask_value pii_type) values l in
  (LocalLLMGateway.masked_text l', LocalLLMGateway.l_mapping l',
   LocalLLMGateway.counters_get (LocalLLMGateway.l_counters l') pii_type)
  = fold_left (value_step pii_type) values
      (LocalLLMGateway.masked_text l, LocalLLMGateway.l_mapping l,
       LocalLLMGateway.counters_get (LocalLLMGateway.l_counters l) pii_type).
Proof.
  induction values as [|v values IH]; intro l; [reflexivity|].
  cbn [fold_left]. cbv zeta in IH. rewrite IH.
  now rewrite (mask_value_step pii_type l v).
Qed.

Lemma mask_category_step l item :
  let l' := LocalLLMGateway.mask_category l item in
  (LocalLLMGateway.masked_text l', LocalLLMGateway.l_mapping l')
  = category_step (LocalLLMGateway.masked_text l, LocalLLMGateway.l_mapping l) item.
Proof.
  destruct item as [pii_type values].
  unfold LocalLLMGateway.mask_category, category_step.
  destruct values as [|v values]; [reflexivity|].
  pose proof (mask_values_steps pii_type (v :: values)
                (LocalLLMGateway.mkLocals (LocalLLMGateway.masked_text l)
                   (LocalLLMGateway.l_mapping l)
                   (LocalLLMGateway.counters_set (LocalLLMGateway.l_counters l) pii_type 0)))
    as H.
  cbv zeta in H.
  cbn [LocalLLMGateway.masked_text LocalLLMGateway.l_mapping LocalLLMGateway.l_counters] in H.
  rewrite counters_get_set in H. rewrite <- H. reflexivity.
Qed.

Lemma mask_categories_steps : forall detected_pii l,
  let l' := fold_left LocalLLMGateway.mask_category detected_pii l in
  (LocalLLMGateway.masked_text l', LocalLLMGateway.l_mapping l')
  = fold_left category_step detected_pii
      (LocalLLMGateway.masked_text l, LocalLLMGateway.l_mapping l).
Proof.
  induction detected_pii as [|item d IH]; intro l; [reflexivity|].
  cbn [fold_left]. cbv zeta in IH. rewrite IH.
  now rewrite (mask_category_step l item).
Qed.

Lemma llm_mask_eq st text detected_pii :
  fst (LocalLLMGateway.mask text detected_pii st)
  = mask_by_values text detected_pii.
Proof.
  unfold LocalLLMGateway.mask, mask_by_values. cbn [fst].
  apply (mask_categories_steps detected_pii
           (LocalLLMGateway.mkLocals text [] [])).
Qed.

(** C4. Given a detection result, [mask] starts from the empty mapping
    whatever the state of the instance, and goes through the categories in
    order and through the values of each category in order, the numbering
    of a category starting at 1: an empty value and a value that does not
    occur in the text as it is by then are passed over, leaving text,
    mapping and number untouched; any other value is recorded under the
    next placeholder of its category and replaced in the text.  A value
    occurs when the text is some text, the value, some text; replacing cuts
    the text at occurrences of the value into pieces that do not contain
    the value and joins the pieces with the placeholder. *)
Theorem llm_mask_by_values st text detected_pii :
  fst (LocalLLMGateway.mask text detected_pii st)
  = mask_by_values text detected_pii /\
  (forall value t, contains value t = true <-> exists a b, t = a ++ value ++ b) /\
  (forall c value placeholder t,
      exists pieces,
        t = join (c :: value) pieces /\
        replace (c :: value) placeholder t = join placeholder pieces /\
        Forall (fun piece => contains (c :: value) piece = false) pieces).
Proof.
  split; [|split].
  - apply llm_mask_eq.
  - intros value t. apply contains_iff.
  - intros c value placeholder t.
    destruct (replace_pieces (c :: value) placeholder ltac:(discriminate) t)
      as (ps & _ & H1 & H2 & H3).
    now exists ps.
Qed.

(** ** The keys of the model-assisted masker *)

Lemma dict_set_keys_incl d k v : incl (keys d) (keys (dict_set d k v)).
Proof.
  intros x Hx. rewrite dict_set_keys.
  destruct (existsb (str_eqb k) (keys d)); [assumption|].
  apply in_or_app. now left.
Qed.

Lemma dict_set_keys_new d k v : In k (keys (dict_set d k v)).
Proof.
  rewrite dict_set_keys.
  destruct (existsb (str_eqb k) (keys d)) eqn:E.
  - now apply existsb_str_eqb.
  - apply in_or_app. right. now left.
Qed.

Lemma dict_set_keys_inv d k v x :
  In x (keys (dict_set d k v)) -> In x (keys d) \/ x = k.
Proof.
  rewrite dict_set_keys.
  destruct (existsb (str_eqb k) (keys d)); [now left|].
  intro H. apply in_app_iff in H as [H|[H|[]]]; auto.
Qed.

(** The keys that the values of one category add. *)
Lemma value_steps_keys cat : forall values t m n t' m' n',
  fold_left (value_step cat) values (t, m, n) = (t', m', n') ->
  (NoDup (keys m) -> NoDup (keys m')) /\
  n <= n' <= n + length values /\
  incl (keys m) (keys m') /\
  (forall k, In k (keys m') ->
             In k (keys m) \/ exists j, n < j <= n' /\ k = placeholder_of cat j) /\
  (forall j, n < j <= n' -> In (placeholder_of cat j) (keys m')).
Proof.
  induction values as [|v values IH]; intros t m n t' m' n' H.
  - cbn in H. inversion H; subst.
    repeat split; auto; try lia; try apply incl_refl.
  - cbn [fold_left] in H.
    destruct (value_step cat (t, m, n) v) as [[t1 m1] n1] eqn:E.
    apply IH in H as (Hnd & Hn & Hincl & Hinv & Hall).
    unfold value_step in E. destruct v as [|c v].
    { inversion E; subst. cbn [length]. repeat split; auto; lia. }
    destruct (contains (c :: v) t).
    2:{ inversion E; subst. cbn [length]. repeat split; auto; lia. }
    inversion E; subst. cbn [length]. repeat split.
    + intro H0. apply Hnd. now apply dict_set_NoDup.
    + lia.
    + lia.
    + eapply incl_tran; [apply dict_set_keys_incl | exact Hincl].
    + intros k Hk. apply Hinv in Hk as [Hk|(j & Hj & ->)].
      * apply dict_set_keys_inv in Hk as [Hk| ->]; [now left|].
        right. exists (S n). split; [lia | reflexivity].
      * right. exists j. split; [lia | reflexivity].
    + intros j Hj. destruct (Nat.eq_dec j (S n)) as [->|Hne].
      * apply Hincl. apply dict_set_keys_new.
      * apply Hall. lia.
Qed.

Lemma llm_key_ok_incl d m m' k :
  incl (keys m) (keys m') -> llm_key_ok d m k -> llm_key_ok d m' k.
Proof.
  intros Hincl (cat & values & n & Hin & -> & Hn & Hall).
  exists cat, values, n. repeat split; auto; try lia.
Qed.

Lemma category_steps_keys d0 : forall d t m t' m',
  incl d d0 ->
  fold_left category_step d (t, m) = (t', m') ->
  NoDup (keys m) -> Forall (llm_key_ok d0 m) (keys m) ->
  NoDup (keys m') /\ Forall (llm_key_ok d0 m') (keys m').
Proof.
  induction d as [|[cat values] d IH]; intros t m t' m' Hd H Hnd Hok.
  - cbn in H. inversion H; subst. now split.
  - cbn [fold_left] in H.
    destruct (category_step (t, m) (cat, values)) as [t1 m1] eqn:E.
    unfold category_step in E.
    destruct (fold_left (value_step cat) values (t, m, 0)) as [[t2 m2] n2] eqn:E2.
    cbn [fst] in E. inversion E; subst t2 m2.
    apply value_steps_keys in E2 as (Hnd1 & Hn & Hincl & Hinv & Hall).
    apply (IH t1 m1 t' m'); auto.
    + intros x Hx. apply Hd. now right.
    + apply Forall_forall. intros k Hk.
      apply Hinv in Hk as [Hk|(j & Hj & ->)].
      * apply (llm_key_ok_incl d0 m m1 k Hincl).
        rewrite Forall_forall in Hok. now apply Hok.
      * exists cat, values, j. repeat split; try lia.
        -- apply Hd. now left.
        -- intros j' Hj'. apply Hall. lia.
Qed.

Lemma upper_of_space c :
  is_space c = false -> forallb (fun x => negb (is_space x)) (upper_of c) = true.
Proof. destruct c as [[] [] [] [] [] [] [] []]; vm_compute; congruence. Qed.

(** The capitals of a text without whitespace have none. *)
Lemma upper_no_space s : no_space s -> no_space (upper s).
Proof.
  unfold no_space, upper. induction 1 as [|c s Hc _ IH]; [constructor|].
  cbn [flat_map]. apply Forall_app. split; [|exact IH].
  apply upper_of_space in Hc. rewrite forallb_forall in Hc.
  apply Forall_forall. intros x Hx. apply Hc in Hx.
  now destruct (is_space x).
Qed.

Lemma digit_not_space c : is_digit c = true -> is_space c = false.
Proof. destruct c as [[] [] [] [] [] [] [] []]; vm_compute; congruence. Qed.

(** A placeholder has no whitespace when the category name has none. *)
Lemma placeholder_no_space cat n :
  no_space cat -> no_space (placeholder_of cat n).
Proof.
  intro H. unfold placeholder_of, no_space.
  repeat (apply Forall_app; split).
  - constructor; [reflexivity | constructor].
  - now apply upper_no_space.
  - constructor; [reflexivity | constructor].
  - generalize (dec_digits n). apply Forall_impl. intro c. apply digit_not_space.
  - constructor; [reflexivity | constructor].
Qed.

Lemma pii_name_no_space t : no_space (PrivacyGateway.pii_name t).
Proof.
  destruct t; unfold no_space; cbn;
    repeat (constructor; [reflexivity|]); constructor.
Qed.

(** C6, as the code has it.  In the mapping that the pattern-based [mask]
    returns the keys are pairwise distinct; they are the placeholders
    ["[" + upper(category) + "_" + number + "]"] of entries that, in every
    category, are numbered 1, 2, ... in order; and they have no whitespace.
    For a detection result whose category names have their capitals among
    the 8-bit code points, in the mapping that the model-assisted [mask]
    returns the keys are pairwise distinct; each is the placeholder of a
    category of the detection result with a number from 1 to the number of
    values of the category, all smaller numbers of that category being keys
    too; and the keys have no whitespace when no category name has any. *)
Theorem placeholder_keys :
  (forall text,
      NoDup (keys (snd (PrivacyGateway.mask_fresh text))) /\
      (exists es, snd (PrivacyGateway.mask_fresh text) = map render es /\
                  forall t, exists k, numbers_of t es = seq 1 k) /\
      Forall no_space (keys (snd (PrivacyGateway.mask_fresh text)))) /\
  (forall text detected_pii,
      (forall cat values, In (cat, values) detected_pii -> upper_ok cat = true) ->
      NoDup (keys (snd (LocalLLMGateway.mask_fresh text detected_pii))) /\
      Forall (llm_key_ok detected_pii
                (snd (LocalLLMGateway.mask_fresh text detected_pii)))
             (keys (snd (LocalLLMGateway.mask_fresh text detected_pii))) /\
      ((forall cat values, In (cat, values) detected_pii -> no_space cat) ->
       Forall no_space (keys (snd (LocalLLMGateway.mask_fresh text detected_pii))))).
Proof.
  split.
  - intro text. unfold PrivacyGateway.mask_fresh.
    destruct (mask_numbered text PrivacyGateway.init) as [-> [es Hes]].
    split; [now apply (numbered_NoDup _ es)|]. split.
    + exists es. destruct Hes as [Hm Hn]. split; [assumption|].
      intro t. eexists. apply Hn.
    + rewrite (numbered_keys _ es Hes), !Forall_map.
      apply Forall_forall. intros e _. unfold entry_key. cbn [fst snd].
      apply placeholder_no_space, pii_name_no_space.
  - intros text d _. unfold LocalLLMGateway.mask_fresh.
    rewrite llm_mask_eq. unfold mask_by_values.
    destruct (fold_left category_step d (text, [])) as [t' m'] eqn:E.
    cbn [snd].
    destruct (category_steps_keys d d text [] t' m' (incl_refl d) E) as [H1 H2];
      [constructor | constructor |].
    split; [assumption|]. split; [assumption|].
    intro Hns. rewrite Forall_forall in H2. apply Forall_forall.
    intros k Hk. destruct (H2 k Hk) as (cat & values & n & Hin & -> & _).
    apply placeholder_no_space. now apply (Hns cat values).
Qed.

Lemma placeholder_keys_witness :
  Forall no_space
    (keys (snd (LocalLLMGateway.mask_fresh
                  (s2l "John lives at 1 Main St")
                  [(s2l "names", [s2l "John"]);
                   (s2l "addresses", [s2l "1 Main St"])]))).
Proof.
  apply (proj2 placeholder_keys).
  - intros cat values [H|[H|[]]]; inversion H; subst; reflexivity.
  - intros cat values [H|[H|[]]]; inversion H; subst; unfold no_space; cbn;
      repeat (constructor; [reflexivity|]); constructor.
Defined.

(** C6 as stated fails: the model-assisted [mask] builds the placeholder
    from the category name as the detection result gives it, so a category
    name with a space gives a key with a space. *)
Lemma llm_key_with_whitespace :
  LocalLLMGateway.mask_fresh (s2l "I live at 1 Main St")
                             [(s2l "home address", [s2l "1 Main St"])]
  = (s2l "I live at [HOME ADDRESS_1]",
     [(s2l "[HOME ADDRESS_1]", s2l "1 Main St")]).
Proof. vm_compute. reflexivity. Qed.

(** ** Unmasking a tokenised text *)

Lemma first_split_unique (x : ascii) : forall a a' b b',
  a ++ x :: b = a' ++ x :: b' -> ~ In x a -> ~ In x a' -> a = a' /\ b = b'.
Proof.
  induction a as [|c a IH]; intros [|c' a'] b b' H Ha Ha'; cbn in H.
  - inversion H. now split.
  - inversion H; subst. exfalso. apply Ha'. now left.
  - inversion H; subst. exfalso. apply Ha. now left.
  - inversion H; subst.
    destruct (IH a' b b' H2) as [-> ->].
    + intro Hin. apply Ha. now right.
    + intro Hin. apply Ha'. now right.
    + now split.
Qed.

Lemma bracketed_nonempty k : bracketed k -> k <> [].
Proof. intros (body & -> & _). discriminate. Qed.

Lemma bracketed_head k : bracketed k -> exists r, k = "["%char :: r.
Proof. intros (body & -> & _). eauto. Qed.

(** A key that starts a text that starts with a token is that token. *)
Lemma bracketed_prefix k k' rest :
  bracketed k -> bracketed k' -> startswith k (k' ++ rest) = true -> k = k'.
Proof.
  intros (b & -> & Hb1 & Hb2) (b' & -> & Hb1' & Hb2') H.
  apply startswith_iff in H as [r H]. cbn in H. inversion H as [E].
  rewrite <- !app_assoc in E. cbn in E.
  now destruct (first_split_unique _ _ _ _ _ E Hb2' Hb2) as [-> _].
Qed.

Lemma startswith_other k c s :
  bracketed k -> c <> "["%char -> startswith k (c :: s) = false.
Proof.
  intros Hk Hc. destruct (bracketed_head k Hk) as [r ->]. cbn.
  apply andb_false_iff. left. apply ascii_eqb_neq. congruence.
Qed.

(** Characters other than the opening bracket are copied. *)
Lemma replace_plain k v a b :
  bracketed k -> Forall (fun c => c <> "["%char) a ->
  replace k v (a ++ b) = a ++ replace k v b.
Proof.
  intros Hk. induction 1 as [|c a Hc Ha IH]; [reflexivity|].
  cbn [app]. rewrite replace_cons.
  - now rewrite IH.
  - now apply bracketed_nonempty.
  - now apply startswith_other.
Qed.

Lemma replace_other_token k v k' rest :
  bracketed k -> bracketed k' -> k' <> k ->
  replace k v (k' ++ rest) = k' ++ replace k v rest.
Proof.
  intros Hk Hk' Hne.
  assert (startswith k (k' ++ rest) = false) as Hs.
  { destruct (startswith k (k' ++ rest)) eqn:E; [|reflexivity].
    apply bracketed_prefix in E; auto. congruence. }
  destruct Hk' as (b' & -> & Hb1 & Hb2).
  cbn [app] in *. rewrite replace_cons; auto using bracketed_nonempty.
  f_equal. rewrite <- app_assoc. rewrite <- app_assoc. rewrite app_assoc.
  rewrite replace_plain; auto.
  - now rewrite <- app_assoc.
  - apply Forall_app. split.
    + apply Forall_forall. intros c Hc E. subst. contradiction.
    + constructor; [discriminate | constructor].
Qed.

Lemma flat_app a b : flat (a ++ b) = flat a ++ flat b.
Proof. unfold flat. apply flat_map_app. Qed.

Lemma flat_lits v : flat (map Lit v) = v.
Proof. induction v as [|c v IH]; [reflexivity|]. cbn. now f_equal. Qed.

(** Replacing a key in a tokenised text expands the tokens equal to it. *)
Lemma replace_flat k v its :
  bracketed k -> ~ In "["%char v -> Forall wf_item its ->
  replace k v (flat its) = flat (flat_map (expand k v) its) /\
  Forall wf_item (flat_map (expand k v) its).
Proof.
  intros Hk Hv. induction 1 as [|i its Hi Hits [IH1 IH2]].
  - split; [|constructor]. apply replace_nil. now apply bracketed_nonempty.
  - destruct i as [c|k']; cbn [flat_map expand flat item_text app] in *.
    + split; [|now constructor].
      rewrite replace_cons; auto using bracketed_nonempty, startswith_other.
      now f_equal.
    + fold (flat its). destruct (str_eqb k' k) eqn:E.
      * apply str_eqb_eq in E. subst k'. split.
        -- rewrite replace_head by now apply bracketed_nonempty.
           fold (flat (map Lit v ++ flat_map (expand k v) its)).
           now rewrite flat_app, flat_lits, IH1.
        -- apply Forall_app. split; [|assumption].
           apply Forall_map. apply Forall_forall. intros c Hc E. cbn in E.
           subst. contradiction.
      * apply str_eqb_neq in E. split; [|cbn [app]; now constructor].
        rewrite replace_other_token; auto. rewrite IH1. reflexivity.
Qed.

Lemma subst_expand k v m its :
  subst m (flat_map (expand k v) its) = subst ((k, v) :: m) its.
Proof.
  unfold subst. induction its as [|i its IH]; [reflexivity|].
  cbn [flat_map]. rewrite flat_map_app, IH. f_equal.
  destruct i as [c|k']; cbn [expand subst_item dict_get flat_map app].
  - reflexivity.
  - destruct (str_eqb k' k) eqn:E.
    + apply str_eqb_eq in E. subst. rewrite str_eqb_refl.
      clear IH. induction v as [|c v IHv]; [reflexivity|]. cbn. now f_equal.
    + assert (str_eqb k k' = false) as ->.
      { apply str_eqb_neq. apply str_eqb_neq in E. congruence. }
      cbn. now rewrite app_nil_r.
Qed.

Lemma subst_nil its : subst [] its = flat its.
Proof. reflexivity. Qed.

(** Applying the entries one after the other is the substitution of all of
    them at once. *)
Lemma unmask_flat : forall m its,
  Forall (fun kv => bracketed (fst kv) /\ ~ In "["%char (snd kv)) m ->
  Forall wf_item its ->
  unmask_with m (flat its) = subst m its.
Proof.
  induction m as [|[k v] m IH]; intros its Hm Hits; [reflexivity|].
  inversion Hm as [|? ? [Hk Hv] Hm']; subst. cbn [fst snd] in *.
  unfold unmask_with. cbn [fold_left]. fold (unmask_with m).
  destruct (replace_flat k v its Hk Hv Hits) as [-> Hits'].
  rewrite IH by assumption. apply subst_expand.
Qed.

Lemma dict_get_In m : forall k v,
  NoDup (keys m) -> In (k, v) m -> dict_get m k = Some v.
Proof.
  induction m as [|[k' v'] m IH]; intros k v Hnd Hin; [destruct Hin|].
  cbn [keys map fst] in Hnd. inversion Hnd; subst. cbn [dict_get].
  destruct Hin as [E|Hin].
  - inversion E; subst. now rewrite str_eqb_refl.
  - destruct (str_eqb k' k) eqn:E.
    + apply str_eqb_eq in E. subst. exfalso. apply H1.
      apply in_map_iff. now exists (k, v).
    + now apply IH.
Qed.

Lemma dict_get_None m k : ~ In k (keys m) -> dict_get m k = None.
Proof.
  induction m as [|[k' v'] m IH]; intro H; [reflexivity|].
  cbn [dict_get]. destruct (str_eqb k' k) eqn:E.
  - apply str_eqb_eq in E. subst. exfalso. apply H. now left.
  - apply IH. intro Hin. apply H. now right.
Qed.

(** With distinct keys, looking up does not depend on the order. *)
Lemma dict_get_perm m m' k :
  NoDup (keys m) -> Permutation m m' -> dict_get m' k = dict_get m k.
Proof.
  intros Hnd Hp.
  assert (NoDup (keys m')) as Hnd'.
  { eapply Permutation_NoDup; [|exact Hnd]. now apply Permutation_map. }
  destruct (dict_get m k) as [v|] eqn:E.
  - apply dict_get_In; [assumption|]. eapply Permutation_in; [exact Hp|].
    clear - E. induction m as [|[k' v'] m IH]; [discriminate|].
    cbn in E. destruct (str_eqb k' k) eqn:Ek.
    + apply str_eqb_eq in Ek. inversion E; subst. now left.
    + right. now apply IH.
  - apply dict_get_None. intro Hin.
    assert (In k (keys m)) as Hin'.
    { eapply Permutation_in; [|exact Hin].
      apply Permutation_map. now apply Permutation_sym. }
    clear - E Hin'. induction m as [|[k' v'] m IH]; [destruct Hin'|].
    cbn in E. destruct (str_eqb k' k) eqn:Ek; [discriminate|].
    destruct Hin' as [H|H].
    + cbn in H. subst. now rewrite str_eqb_refl in Ek.
    + now apply IH.
Qed.

Lemma subst_perm m m' its :
  NoDup (keys m) -> Permutation m m' -> subst m' its = subst m its.
Proof.
  intros Hnd Hp. unfold subst. apply flat_map_ext. intros [c|k]; cbn.
  - reflexivity.
  - now rewrite (dict_get_perm m m' k Hnd Hp).
Qed.

Lemma unmask_flat_perm m m' its :
  wf_dict m -> Forall wf_item its -> Permutation m m' ->
  unmask_with m' (flat its) = subst m its.
Proof.
  intros [Hnd Hm] Hits Hp. rewrite unmask_flat; auto.
  - now apply subst_perm.
  - eapply Permutation_Forall; eauto.
Qed.

(** ** The mapping of the pattern-based masker is well formed *)

Lemma digit_not_bracket c :
  is_digit c = true -> c <> "["%char /\ c <> "]"%char.
Proof.
  destruct c as [[] [] [] [] [] [] [] []]; vm_compute; split; congruence.
Qed.

Lemma not_in_app {A} (x : A) a b : ~ In x a -> ~ In x b -> ~ In x (a ++ b).
Proof. intros Ha Hb H. apply in_app_iff in H as [H|H]; auto. Qed.

Lemma dec_no_bracket n : ~ In "["%char (dec n) /\ ~ In "]"%char (dec n).
Proof.
  pose proof (dec_digits n) as H. rewrite Forall_forall in H.
  split; intro Hin; apply H in Hin; apply digit_not_bracket in Hin; tauto.
Qed.

Lemma placeholder_bracketed t n :
  bracketed (placeholder_of (PrivacyGateway.pii_name t) n).
Proof.
  rewrite placeholder_pii. destruct (dec_no_bracket n) as [H1 H2].
  exists (tl (tok_prefix t) ++ dec n). split; [|split].
  - destruct t; cbn [tok_prefix tl s2l list_ascii_of_string app];
      now rewrite <- ?app_assoc.
  - apply not_in_app; [|assumption].
    destruct t; cbn; intuition discriminate.
  - apply not_in_app; [|assumption].
    destruct t; cbn; intuition discriminate.
Qed.

Lemma dict_set_Forall (P : str * str -> Prop) d k v :
  Forall P d -> (forall k', P (k', v)) -> Forall P (dict_set d k v).
Proof.
  intros Hd Hv. induction Hd as [|[k' v'] d Hx Hd IH]; cbn [dict_set].
  - constructor; [apply Hv | constructor].
  - destruct (str_eqb k' k); constructor; auto.
Qed.

Lemma record_clean t v st :
  ~ In "["%char v -> clean_values st ->
  clean_values (snd (PrivacyGateway.record t v st)).
Proof.
  intros Hv H. unfold clean_values, PrivacyGateway.record,
    PrivacyGateway._create_placeholder. cbn.
  apply dict_set_Forall; [assumption | now intros].
Qed.

(** The groups of a match have no opening bracket when no class of the
    pattern has it. *)
Lemma first_match_clean p pos gs w i :
  allowed_pat p "[" = false -> first_match p (Match pos gs w) ->
  ~ In "["%char (group gs i) /\ ~ In "["%char w.
Proof.
  intros Ha (prev & s & r & l & E).
  assert (In (gs, w, r) (mt_pat p prev s)) as H by (rewrite E; now left).
  apply mt_pat_sound in H as (_ & Hw & Hgs & _).
  assert (forall g, Forall (fun c => allowed_pat p c = true) g -> ~ In "["%char g) as K.
  { intros g Hg Hin. rewrite Forall_forall in Hg. apply Hg in Hin. congruence. }
  split; [|now apply K]. apply K. unfold group.
  destruct (nth_in_or_default (pred i) gs []) as [Hin| ->]; [|constructor].
  rewrite Forall_forall in Hgs. now apply Hgs.
Qed.

Lemma re_sub_clean p f text st :
  allowed_pat p "[" = false -> records_group f ->
  clean_values st -> clean_values (snd (re_sub p f text st)).
Proof.
  intros Ha Hf H. rewrite re_sub_events.
  apply (run_events_invariant f clean_values (first_match p)); auto.
  - intros pos gs w st' Hm Hc. destruct (Hf pos gs st') as [-> | (t & i & ->)].
    + assumption.
    + apply record_clean; [|assumption].
      now apply (first_match_clean p pos gs w i).
  - apply scan_events_first_match.
Qed.

Lemma records_group_record t i :
  records_group (fun _ gs st => PrivacyGateway.record t (group gs i) st).
Proof. intros pos gs st. right. now exists t, i. Qed.

Lemma records_group_ssn :
  records_group
    (fun _ gs st =>
       let original := group gs 1 in
       if length (PrivacyGateway.digits_only original) =? 9
       then PrivacyGateway.record PrivacyGateway.ssn original st
       else (original, st)).
Proof.
  intros pos gs st. cbv zeta.
  destruct (_ =? 9); [right; now exists PrivacyGateway.ssn, 1 | now left].
Qed.

Lemma records_group_phone text : records_group (PrivacyGateway.phone_replace text).
Proof.
  intros pos gs st. unfold PrivacyGateway.phone_replace.
  destruct (negb _); [right; now exists PrivacyGateway.phone, 1 | now left].
Qed.

Lemma records_group_name i :
  records_group (fun _ => PrivacyGateway.name_replace i).
Proof.
  intros pos gs st. right. exists PrivacyGateway.name, i.
  apply name_replace_snd.
Qed.

Lemma mask_names_clean text st :
  clean_values st -> clean_values (snd (PrivacyGateway._mask_names text st)).
Proof.
  unfold PrivacyGateway._mask_names, PrivacyGateway.name_patterns.
  cbn [fold_left]. intro H.
  repeat match goal with
         | |- context [re_sub ?p ?f ?t ?s] =>
             let H' := fresh "H" in
             pose proof (re_sub_clean p f t s eq_refl (records_group_name 2)) as H';
             destruct (re_sub p f t s); cbn [snd] in H'
         end.
  auto.
Qed.

Lemma mask_credit_cards_clean text st :
  clean_values st -> clean_values (snd (PrivacyGateway._mask_credit_cards text st)).
Proof.
  apply re_sub_clean; [reflexivity|].
  apply (records_group_record PrivacyGateway.credit_card 1).
Qed.

Lemma mask_ssn_clean text st :
  clean_values st -> clean_values (snd (PrivacyGateway._mask_ssn text st)).
Proof. apply re_sub_clean; [reflexivity | apply records_group_ssn]. Qed.

Lemma mask_emails_clean text st :
  clean_values st -> clean_values (snd (PrivacyGateway._mask_emails text st)).
Proof.
  apply re_sub_clean; [reflexivity|].
  apply (records_group_record PrivacyGateway.email 1).
Qed.

Lemma mask_phone_numbers_clean text st :
  clean_values st -> clean_values (snd (PrivacyGateway._mask_phone_numbers text st)).
Proof. apply re_sub_clean; [reflexivity | apply records_group_phone]. Qed.

Lemma mask_clean text st :
  clean_values (snd (PrivacyGateway.mask text st)).
Proof.
  unfold PrivacyGateway.mask. rewrite reset_init.
  pose proof (mask_credit_cards_clean text PrivacyGateway.init) as H1.
  destruct (PrivacyGateway._mask_credit_cards text PrivacyGateway.init) as [t1 s1].
  pose proof (mask_ssn_clean t1 s1) as H2.
  destruct (PrivacyGateway._mask_ssn t1 s1) as [t2 s2].
  pose proof (mask_emails_clean t2 s2) as H3.
  destruct (PrivacyGateway._mask_emails t2 s2) as [t3 s3].
  pose proof (mask_phone_numbers_clean t3 s3) as H4.
  destruct (PrivacyGateway._mask_phone_numbers t3 s3) as [t4 s4].
  pose proof (mask_names_clean t4 s4) as H5.
  destruct (PrivacyGateway._mask_names t4 s4) as [t5 s5].
  cbn [fst snd] in *. apply H5, H4, H3, H2, H1. constructor.
Qed.

(** Whatever the text, the mapping that [mask] returns has distinct
    bracketed keys and values without an opening bracket. *)
Lemma mask_wf_dict text : wf_dict (snd (PrivacyGateway.mask_fresh text)).
Proof.
  unfold PrivacyGateway.mask_fresh.
  pose proof (mask_clean text PrivacyGateway.init) as Hc.
  destruct (mask_numbered text PrivacyGateway.init) as [-> [es Hes]].
  split; [now apply (numbered_NoDup _ es)|].
  unfold clean_values in Hc. destruct Hes as [Hm _]. rewrite Hm in *.
  rewrite Forall_map in *. revert Hc. apply Forall_impl.
  intros [[t n] v] Hv. split; [apply placeholder_bracketed | exact Hv].
Qed.

(** C8, as the code has it.  Let the mapping have distinct bracketed keys
    and values without an opening bracket, as every mapping returned by the
    pattern-based [mask] has, and let the text be made of characters other
    than the opening bracket and of bracketed tokens.  Then [unmask] of
    either gateway, applying the entries of the mapping in any order,
    replaces every token that is a key by the value of the key, and leaves
    everything else as it is. *)
Theorem unmask_any_order m m' its pst lst :
  wf_dict m \/ (exists text, m = snd (PrivacyGateway.mask_fresh text)) ->
  Forall wf_item its ->
  Permutation m m' ->
  PrivacyGateway.unmask (flat its) (Some m') pst = subst m its /\
  LocalLLMGateway.unmask (flat its) (Some m') lst = subst m its.
Proof.
  intros Hm Hits Hp.
  assert (wf_dict m) as Hwf.
  { destruct Hm as [Hm|[text ->]]; [assumption | apply mask_wf_dict]. }
  unfold PrivacyGateway.unmask, LocalLLMGateway.unmask.
  split; now apply unmask_flat_perm.
Qed.

Lemma unmask_any_order_witness :
  PrivacyGateway.unmask (flat reply_items)
    (Some (rev (snd (PrivacyGateway.mask_fresh reply_source))))
    PrivacyGateway.init
  = subst (snd (PrivacyGateway.mask_fresh reply_source)) reply_items /\
  LocalLLMGateway.unmask (flat reply_items)
    (Some (rev (snd (PrivacyGateway.mask_fresh reply_source))))
    LocalLLMGateway.init
  = subst (snd (PrivacyGateway.mask_fresh reply_source)) reply_items.
Proof.
  apply (unmask_any_order (snd (PrivacyGateway.mask_fresh reply_source))).
  - right. now exists reply_source.
  - unfold reply_items. cbn [map app s2l list_ascii_of_string].
    repeat (constructor;
            [first [ discriminate
                   | match goal with
                     | |- wf_item (Tok (_ :: ?r)) => exists (removelast r)
                     end; split; [reflexivity | cbn; intuition discriminate] ]|]).
    constructor.
  - apply Permutation_rev.
Defined.

(** C8 as stated fails: the mapping of [nested_text] has the entries
    [[SSN_1]] and [[NAME_1]], the latter with the value ["SSN"]; on the reply
    [nested_reply] the entries applied in the order of the mapping give
    ["[SSN_1]"], and applied in the reverse order give the SSN. *)
Lemma unmask_order_matters :
  snd (PrivacyGateway.mask_fresh nested_text)
  = [(s2l "[SSN_1]", s2l "123-45-6789"); (s2l "[NAME_1]", s2l "SSN")] /\
  PrivacyGateway.unmask nested_reply
    (Some (snd (PrivacyGateway.mask_fresh nested_text))) PrivacyGateway.init
  = s2l "[SSN_1]" /\
  PrivacyGateway.unmask nested_reply
    (Some (rev (snd (PrivacyGateway.mask_fresh nested_text)))) PrivacyGateway.init
  = s2l "123-45-6789".
Proof. repeat split; vm_compute; reflexivity. Qed.

(** ** The scan of a tokenised text *)

Lemma lastc_app prev a b : lastc prev (a ++ b) = lastc (lastc prev a) b.
Proof. unfold lastc. apply fold_left_app. Qed.

Lemma lastc_cons prev c a : lastc prev (c :: a) = lastc (Some c) a.
Proof. reflexivity. Qed.

(** Passing over the rest of a match. *)
Lemma scan_events_skip p : forall a prev pos b,
  scan_events p prev pos (a ++ b) (length a)
  = scan_events p (lastc prev a) (pos + length a) b 0.
Proof.
  induction a as [|c a IH]; intros prev pos b.
  - cbn [app length lastc fold_left]. now rewrite Nat.add_0_r.
  - cbn [app length scan_events]. rewrite IH, lastc_cons.
    f_equal. lia.
Qed.

(** No match starts at a character that the pattern cannot consume. *)
Lemma no_match_at p prev c s :
  allowed_pat p c = false -> 0 < min_len_pat p -> mt_pat p prev (c :: s) = [].
Proof.
  intros Ha Hl. destruct (mt_pat p prev (c :: s)) as [|[[gs w] r] l] eqn:E;
    [reflexivity|].
  assert (In (gs, w, r) (mt_pat p prev (c :: s))) as H by (rewrite E; now left).
  apply mt_pat_sound in H as (Hs & Hw & _ & Hlen).
  destruct w as [|x w]; [cbn in Hlen; lia|].
  cbn in Hs. inversion Hs; subst. inversion Hw; subst. congruence.
Qed.

Lemma no_match_at_end p prev :
  0 < min_len_pat p -> mt_pat p prev [] = [].
Proof.
  intros Hl. destruct (mt_pat p prev []) as [|[[gs w] r] l] eqn:E; [reflexivity|].
  assert (In (gs, w, r) (mt_pat p prev [])) as H by (rewrite E; now left).
  apply mt_pat_sound in H as (Hs & _ & _ & Hlen).
  symmetry in Hs. apply app_eq_nil in Hs as [-> _]. cbn in Hlen. lia.
Qed.

Lemma interior_no_bracket t n :
  ~ In "["%char (interior t n) /\ ~ In "]"%char (interior t n).
Proof.
  destruct (dec_no_bracket n) as [H1 H2]. unfold interior.
  split; (apply not_in_app; [|assumption]);
    destruct t; cbn; intuition discriminate.
Qed.

Lemma placeholder_interior t n :
  placeholder_of (PrivacyGateway.pii_name t) n
  = "["%char :: interior t n ++ ["]"%char].
Proof.
  rewrite placeholder_pii. unfold interior.
  destruct t; cbn [tok_prefix tl s2l list_ascii_of_string app];
    now rewrite <- ?app_assoc.
Qed.

Section Scannable.
Variable p : pattern.
Hypothesis Hp : scannable p.

(** The scan copies a placeholder character by character. *)
Lemma scan_interior t n rest : forall u v prev pos,
  interior t n = v ++ u ->
  prev = lastc (Some "["%char) v ->
  scan_events p prev pos (u ++ "]"%char :: rest) 0
  = map Copy (u ++ ["]"%char])
    ++ scan_events p (Some "]"%char) (pos + S (length u)) rest 0.
Proof.
  induction u as [|c u IH]; intros v prev pos Hi Hprev.
  - cbn [app scan_events map length].
    rewrite (no_match_at p prev "]" rest (sc_close p Hp) (sc_len p Hp)).
    cbn [app]. f_equal. f_equal. lia.
  - cbn [app scan_events map length].
    pose proof (sc_avoid p Hp t n v (c :: u) rest Hi ltac:(discriminate)) as Hm.
    rewrite <- Hprev in Hm. cbn [app] in Hm. rewrite Hm.
    cbn [app]. f_equal.
    rewrite (IH (v ++ [c]) (Some c) (S pos)).
    + f_equal. f_equal. lia.
    + now rewrite <- app_assoc.
    + now rewrite lastc_app.
Qed.

Lemma scan_placeholder t n rest prev pos :
  scan_events p prev pos
    (placeholder_of (PrivacyGateway.pii_name t) n ++ rest) 0
  = map Copy (placeholder_of (PrivacyGateway.pii_name t) n)
    ++ scan_events p (Some "]"%char)
         (pos + length (placeholder_of (PrivacyGateway.pii_name t) n)) rest 0.
Proof.
  rewrite placeholder_interior. cbn [app scan_events map length].
  rewrite (no_match_at p prev "[" _ (sc_open p Hp) (sc_len p Hp)).
  cbn [app]. f_equal. rewrite <- app_assoc. cbn [app].
  rewrite (scan_interior t n rest (interior t n) [] (Some "["%char) (S pos));
    try reflexivity.
  f_equal. f_equal. rewrite length_app. cbn. lia.
Qed.

(** A match that starts at a plain character lies within plain
    characters. *)
Lemma lits_prefix : forall w its r,
  flat its = w ++ r -> ~ In "["%char w -> Forall tok_item its ->
  exists its', its = map Lit w ++ its' /\ flat its' = r.
Proof.
  induction w as [|c w IH]; intros its r H Hw Hits.
  - exists its. now split.
  - destruct its as [|i its]; [discriminate|].
    inversion Hits as [|? ? Hi Hits']; subst.
    destruct i as [c'|k]; cbn in H.
    + inversion H; subst.
      destruct (IH its r H2) as (its' & -> & Hr); auto.
      * intro Hin. apply Hw. now right.
      * exists its'. now split.
    + destruct Hi as (t & n & ->). rewrite placeholder_interior in H.
      cbn in H. inversion H; subst. exfalso. apply Hw. now left.
Qed.

(** The trace of the scan of a tokenised text, piece by piece. *)
Lemma scan_items : forall n its prev pos,
  length its <= n -> Forall tok_item its ->
  exists segs,
    its = segs_items segs /\
    scan_events p prev pos (flat its) 0 = segs_events segs /\
    Forall (seg_ok p) segs.
Proof.
  induction n as [|n IH]; intros its prev pos Hn Hits.
  - destruct its; [|cbn in Hn; lia]. exists []. cbn [flat flat_map scan_events].
    rewrite (no_match_at_end p prev (sc_len p Hp)). repeat split. constructor.
  - destruct its as [|i its].
    { exists []. cbn [flat flat_map scan_events].
      rewrite (no_match_at_end p prev (sc_len p Hp)). repeat split. constructor. }
    inversion Hits as [|? ? Hi Hits']; subst. cbn [length] in Hn.
    destruct i as [c|k].
    + cbn [flat flat_map item_text app]. fold (flat its). cbn [scan_events].
      destruct (mt_pat p prev (c :: flat its)) as [|[[gs w] r] l] eqn:E.
      * destruct (IH its (Some c) (S pos)) as (segs & Hs1 & Hs2 & Hs3); [lia|auto|].
        rewrite Hs2. exists (SLit c :: segs). repeat split.
        -- now rewrite Hs1 at 1.
        -- constructor; [exact Hi | exact Hs3].
      * assert (In (gs, w, r) (mt_pat p prev (c :: flat its))) as H
            by (rewrite E; now left).
        apply mt_pat_sound in H as (Hs & Hw & _ & Hlen).
        assert (~ In "["%char w) as Hno.
        { intro Hin. rewrite Forall_forall in Hw. apply Hw in Hin.
          rewrite (sc_open p Hp) in Hin. discriminate. }
        destruct w as [|x w]; [pose proof (sc_len p Hp); cbn in Hlen; lia|].
        cbn in Hs. inversion Hs as [[Hx Hr]]. subst x.
        destruct (lits_prefix w its r Hr) as (its' & -> & Hf); auto.
        { intro Hin. apply Hno. now right. }
        rewrite flat_app, flat_lits, scan_events_skip.
        destruct (IH its' (lastc (Some c) w) (S (pos + length w)))
          as (segs & Hs1 & Hs2 & Hs3).
        { rewrite length_app, length_map in Hn. lia. }
        { apply Forall_app in Hits'. tauto. }
        cbn [Nat.add] in *. rewrite Hs2.
        exists (SMatch pos gs (c :: w) :: segs). repeat split.
        -- now rewrite Hs1 at 1.
        -- constructor; [|exact Hs3]. do 4 eexists. exact E.
    + destruct Hi as (t & n' & ->).
      cbn [flat flat_map item_text]. fold (flat its).
      rewrite scan_placeholder.
      destruct (IH its (Some "]"%char)
                  (pos + length (placeholder_of (PrivacyGateway.pii_name t) n')))
        as (segs & Hs1 & Hs2 & Hs3); [lia|auto|].
      rewrite Hs2.
      exists (STok (placeholder_of (PrivacyGateway.pii_name t) n') :: segs).
      repeat split.
      * now rewrite Hs1 at 1.
      * constructor; [now exists t, n' | exact Hs3].
Qed.
End Scannable.

(** ** Masking a tokenised text *)

Lemma run_events_app {St} (f : nat -> list str -> St -> str * St) a : forall b st,
  run_events f (a ++ b) st
  = let '(o1, st1) := run_events f a st in
    let '(o2, st2) := run_events f b st1 in
    (o1 ++ o2, st2).
Proof.
  induction a as [|e a IH]; intros b st; cbn [app run_events].
  - now destruct (run_events f b st).
  - destruct (run_event f e st) as [o1 st1]. rewrite IH.
    destruct (run_events f a st1) as [o2 st2].
    destruct (run_events f b st2) as [o3 st3]. now rewrite app_assoc.
Qed.

Lemma run_events_copies {St} (f : nat -> list str -> St -> str * St) k st :
  run_events f (map Copy k) st = (k, st).
Proof.
  induction k as [|c k IH]; [reflexivity|].
  cbn [map run_events run_event]. now rewrite IH.
Qed.

Lemma dict_get_app_l m m2 k :
  In k (keys m) -> dict_get (m ++ m2) k = dict_get m k.
Proof.
  induction m as [|[k' v'] m IH]; intro H; [destruct H|].
  cbn [app dict_get]. destruct (str_eqb k' k) eqn:E; [reflexivity|].
  apply IH. destruct H as [H|H]; [|assumption].
  cbn in H. subst. now rewrite str_eqb_refl in E.
Qed.

Lemma dict_get_app_new m k v :
  ~ In k (keys m) -> dict_get (m ++ [(k, v)]) k = Some v.
Proof.
  induction m as [|[k' v'] m IH]; intro H; cbn [app dict_get].
  - now rewrite str_eqb_refl.
  - destruct (str_eqb k' k) eqn:E.
    + apply str_eqb_eq in E. subst. exfalso. apply H. now left.
    + apply IH. intro Hin. apply H. now right.
Qed.

Lemma extends_refl m : extends m m.
Proof. intros k H. now split. Qed.

Lemma extends_trans m1 m2 m3 : extends m1 m2 -> extends m2 m3 -> extends m1 m3.
Proof.
  intros H12 H23 k H. destruct (H12 k H) as [H2 E2].
  destruct (H23 k H2) as [H3 E3]. split; [assumption | congruence].
Qed.

Lemma extends_app m m2 : extends m (m ++ m2).
Proof.
  intros k H. split.
  - unfold keys. rewrite map_app. apply in_or_app. now left.
  - now apply dict_get_app_l.
Qed.

Lemma subst_app m a b : subst m (a ++ b) = subst m a ++ subst m b.
Proof. unfold subst. apply flat_map_app. Qed.

Lemma subst_lits m w : subst m (map Lit w) = w.
Proof. induction w as [|c w IH]; [reflexivity|]. cbn. now f_equal. Qed.

Lemma subst_extends m m' its :
  (forall k, In (Tok k) its -> In k (keys m)) -> extends m m' ->
  subst m' its = subst m its.
Proof.
  intros Hk He. unfold subst. induction its as [|i its IH]; [reflexivity|].
  cbn [flat_map]. rewrite IH by (intros k H; apply Hk; now right).
  f_equal. destruct i as [c|k]; [reflexivity|]. cbn [subst_item].
  destruct (He k) as [_ ->]; [|reflexivity]. apply Hk. now left.
Qed.

Lemma segs_items_tok segs k :
  In (Tok k) (segs_items segs) -> In (STok k) segs.
Proof.
  unfold segs_items. intro H. apply in_flat_map in H as [s [Hs H]].
  destruct s as [c|k'|pos gs w]; cbn in H.
  - destruct H as [H|[]]. discriminate.
  - destruct H as [H|[]]. inversion H; subst. assumption.
  - apply in_map_iff in H as [c [E _]]. discriminate.
Qed.

Section Masking.
Variable p : pattern.
Variable f : nat -> list str -> PrivacyGateway.state -> str * PrivacyGateway.state.
Hypothesis Hp : scannable p.
Hypothesis Hf : shaped p f.

(** The characters of a match are not opening brackets. *)
Lemma match_plain pos gs w :
  first_match p (Match pos gs w) -> Forall tok_item (map Lit w).
Proof.
  intro H. destruct (first_match_clean p pos gs w 1 (sc_open p Hp) H) as [_ Hw].
  apply Forall_map. apply Forall_forall. intros c Hc E. cbn in E. subst.
  contradiction.
Qed.

(** Running the callback over the pieces of a tokenised text gives a
    tokenised text again, from which the mapping gives the same text
    back. *)
Lemma run_segs : forall segs st,
  Forall (seg_ok p) segs ->
  is_numbered st ->
  (forall k, In (STok k) segs -> In k (keys (PrivacyGateway.mapping st))) ->
  exists its',
    fst (run_events f (segs_events segs) st) = flat its' /\
    Forall tok_item its' /\
    (forall k, In (Tok k) its' ->
               In k (keys (PrivacyGateway.mapping
                             (snd (run_events f (segs_events segs) st))))) /\
    subst (PrivacyGateway.mapping (snd (run_events f (segs_events segs) st))) its'
    = subst (PrivacyGateway.mapping st) (segs_items segs) /\
    extends (PrivacyGateway.mapping st)
            (PrivacyGateway.mapping (snd (run_events f (segs_events segs) st))) /\
    is_numbered (snd (run_events f (segs_events segs) st)).
Proof.
  induction segs as [|s segs IH]; intros st Hok Hnum Hkeys.
  - exists []. cbn.
    refine (conj _ (conj _ (conj _ (conj _ (conj _ _))))); auto using extends_refl.
  - inversion Hok as [|? ? Hs Hok']; subst.
    unfold segs_events, segs_items. cbn [flat_map].
    fold (segs_events segs). fold (segs_items segs).
    rewrite run_events_app.
    assert (forall st1,
               is_numbered st1 ->
               extends (PrivacyGateway.mapping st) (PrivacyGateway.mapping st1) ->
               forall o1 its1,
                 o1 = flat its1 -> Forall tok_item its1 ->
                 (forall k, In (Tok k) its1 ->
                            In k (keys (PrivacyGateway.mapping st1))) ->
                 subst (PrivacyGateway.mapping st1) its1
                 = subst (PrivacyGateway.mapping st) (seg_items s) ->
                 exists its',
                   fst (let '(o2, st2) := run_events f (segs_events segs) st1 in
                        (o1 ++ o2, st2)) = flat its' /\
                   Forall tok_item its' /\
                   (forall k, In (Tok k) its' ->
                      In k (keys (PrivacyGateway.mapping
                         (snd (let '(o2, st2) := run_events f (segs_events segs) st1 in
                               (o1 ++ o2, st2)))))) /\
                   subst (PrivacyGateway.mapping
                            (snd (let '(o2, st2) := run_events f (segs_events segs) st1 in
                                  (o1 ++ o2, st2)))) its'
                   = subst (PrivacyGateway.mapping st) (seg_items s ++ segs_items segs) /\
                   extends (PrivacyGateway.mapping st)
                     (PrivacyGateway.mapping
                        (snd (let '(o2, st2) := run_events f (segs_events segs) st1 in
                              (o1 ++ o2, st2)))) /\
                   is_numbered
                     (snd (let '(o2, st2) := run_events f (segs_events segs) st1 in
                           (o1 ++ o2, st2)))) as Step.
    { intros st1 Hnum1 Hext1 o1 its1 Ho1 Hits1 Hk1 Hsub1.
      assert (forall k, In (STok k) segs ->
                        In k (keys (PrivacyGateway.mapping st1))) as Hkeys1.
      { intros k Hk. apply Hext1. apply Hkeys. now right. }
      destruct (IH st1 Hok' Hnum1 Hkeys1) as (its2 & H1 & H2 & H3 & H4 & H5 & H6).
      destruct (run_events f (segs_events segs) st1) as [o2 st2].
      cbn [fst snd] in *. exists (its1 ++ its2).
      refine (conj _ (conj _ (conj _ (conj _ (conj _ _))))).
      - now rewrite flat_app, Ho1, H1.
      - apply Forall_app. now split.
      - intros k Hk. apply in_app_iff in Hk as [Hk|Hk]; [|now apply H3].
        apply H5. now apply Hk1.
      - rewrite !subst_app, H4.
        rewrite (subst_extends _ _ its1 Hk1 H5), Hsub1. f_equal.
        apply subst_extends; [|assumption].
        intros k Hk. apply Hkeys. right. now apply segs_items_tok.
      - exact (extends_trans _ _ _ Hext1 H5).
      - assumption. }
    destruct s as [c|k|pos gs w]; cbn [seg_events seg_items seg_ok] in *.
    + cbn [run_events run_event].
      apply (Step st Hnum (extends_refl _) ([c] ++ []) [Lit c]); auto.
      intros k [H|[]]. discriminate.
    + rewrite run_events_copies.
      apply (Step st Hnum (extends_refl _) k [Tok k]).
      * cbn. now rewrite app_nil_r.
      * constructor; [exact Hs | constructor].
      * intros k' [H|[]]. inversion H; subst. apply Hkeys. now left.
      * reflexivity.
    + cbn [run_events run_event].
      destruct (Hf pos gs w st Hs) as [E | (t & pre & v & Hw & E)]; rewrite E.
      * apply (Step st Hnum (extends_refl _) (w ++ []) (map Lit w)).
        -- now rewrite app_nil_r, flat_lits.
        -- now apply (match_plain pos gs).
        -- intros k Hk. apply in_map_iff in Hk as [c [Hc _]]. discriminate.
        -- reflexivity.
      * destruct Hnum as [es Hes].
        destruct (record_numbered st es t v Hes) as (Hph & Hmap & _ & Hnum1).
        pose proof (numbered_fresh st es t Hes) as Hfresh.
        set (ph := placeholder_of (PrivacyGateway.pii_name t)
                     (S (PrivacyGateway.counter (PrivacyGateway.counters st) t))) in *.
        apply (Step (snd (PrivacyGateway.record t v st))
                    ltac:(eexists; exact Hnum1)
                    ltac:(rewrite Hmap; apply extends_app)
                    ((pre ++ fst (PrivacyGateway.record t v st)) ++ [])
                    (map Lit pre ++ [Tok ph])).
        -- rewrite app_nil_r, flat_app, flat_lits, Hph. cbn. now rewrite app_nil_r.
        -- apply Forall_app. split.
           ++ pose proof (match_plain pos gs w Hs) as Hpl. rewrite Hw in Hpl.
              rewrite map_app in Hpl. apply Forall_app in Hpl. tauto.
           ++ constructor; [|constructor]. now exists t, (S (PrivacyGateway.counter (PrivacyGateway.counters st) t)).
        -- intros k Hk. apply in_app_iff in Hk as [Hk|[Hk|[]]].
           ++ apply in_map_iff in Hk as [c [Hc _]]. discriminate.
           ++ inversion Hk; subst k. rewrite Hmap. unfold keys.
              rewrite map_app. apply in_or_app. right. now left.
        -- rewrite subst_app, !subst_lits, Hw. f_equal.
           cbn [subst flat_map subst_item]. rewrite Hmap.
           rewrite (dict_get_app_new _ ph v Hfresh). apply app_nil_r.
Qed.

(** A scan keeps a masking under way. *)
Lemma re_sub_masking T text st :
  masking T text st ->
  masking T (fst (re_sub p f text st)) (snd (re_sub p f text st)).
Proof.
  intros (its & -> & Hits & Hkeys & Hsub & Hnum).
  rewrite re_sub_events. unfold finditer.
  destruct (scan_items p Hp (length its) its None 0 (le_n _) Hits)
    as (segs & Hs1 & Hs2 & Hs3).
  rewrite Hs2.
  destruct (run_segs segs st Hs3 Hnum) as (its' & H1 & H2 & H3 & H4 & H5 & H6).
  { intros k Hk. apply Hkeys. rewrite Hs1. unfold segs_items.
    apply in_flat_map. exists (STok k). split; [assumption | now left]. }
  exists its'. refine (conj _ (conj _ (conj _ (conj _ _)))); auto.
  now rewrite H4, <- Hs1.
Qed.
End Masking.

(** ** The patterns of the masker *)

Lemma interior_char_word c : interior_char c = true -> is_word c = true.
Proof. destruct c as [[] [] [] [] [] [] [] []]; vm_compute; congruence. Qed.

Lemma digit_interior c : is_digit c = true -> interior_char c = true.
Proof. destruct c as [[] [] [] [] [] [] [] []]; vm_compute; congruence. Qed.

Lemma interior_chars t n : Forall (fun c => interior_char c = true) (interior t n).
Proof.
  unfold interior. apply Forall_app. split.
  - destruct t; cbn; repeat (constructor; [reflexivity|]); constructor.
  - generalize (dec_digits n). apply Forall_impl. apply digit_interior.
Qed.

(** The interior of a placeholder starts with a letter. *)
Lemma interior_head t n :
  exists x r, interior t n = x :: r /\ is_digit x = false.
Proof. unfold interior. destruct t; cbn; eexists _, _; split; reflexivity. Qed.

Lemma lastc_last prev v x : lastc prev (v ++ [x]) = Some x.
Proof. now rewrite lastc_app. Qed.

(** A text without [x] that starts a text is within the part before the
    first [x]. *)
Lemma prefix_before (x : ascii) : forall w r u rest,
  w ++ r = u ++ x :: rest -> ~ In x w -> exists u2, u = w ++ u2.
Proof.
  induction w as [|c w IH]; intros r u rest H Hw.
  - now exists u.
  - destruct u as [|c' u]; cbn in H; inversion H; subst.
    + exfalso. apply Hw. now left.
    + destruct (IH r u rest H2) as [u2 ->].
      * intro Hin. apply Hw. now right.
      * now exists u2.
Qed.

(** A pattern between word boundaries whose characters, among those of an
    interior, are digits only, does not match from inside a placeholder:
    there is no word boundary before a digit of the interior. *)
Lemma avoid_digits body :
  (forall c, allowed body c = true -> interior_char c = true -> is_digit c = true) ->
  0 < min_len body ->
  forall t n v u rest,
    interior t n = v ++ u -> u <> [] ->
    mt_pat [Raw Bnd; Grp body; Raw Bnd] (lastc (Some "["%char) v)
           (u ++ "]"%char :: rest) = [].
Proof.
  intros Hd Hl t n v u rest Hi Hu.
  destruct (mt_pat _ _ _) as [|[[gs w] r] l] eqn:E; [reflexivity|]. exfalso.
  assert (In (gs, w, r) (mt_pat [Raw Bnd; Grp body; Raw Bnd]
                           (lastc (Some "["%char) v) (u ++ "]"%char :: rest))) as H
      by (rewrite E; now left).
  apply mt_pat_bounded in H as (_ & Hm & Hb & _).
  apply mt_sound in Hm as (Hs & Hw & Hlen).
  destruct w as [|c w]; [cbn in Hlen; lia|]. destruct u as [|c' u]; [congruence|].
  cbn in Hs. inversion Hs; subst c'. inversion Hw as [|? ? Hc _]; subst.
  pose proof (interior_chars t n) as Hint. rewrite Hi in Hint.
  apply Forall_app in Hint as [Hv Hcu]. inversion Hcu as [|? ? Hci _]; subst.
  specialize (Hd c Hc Hci).
  destruct (exists_last (l := v)) as (v' & x & ->).
  - intros ->. cbn in Hi. destruct (interior_head t n) as (x & r' & Hx & Hnd).
    rewrite Hx in Hi. inversion Hi; subst. congruence.
  - rewrite lastc_last in Hb. apply Forall_app in Hv as [_ Hx].
    inversion Hx as [|? ? Hxi _]; subst.
    unfold is_boundary in Hb. cbn [is_word_opt hd_error app] in Hb.
    rewrite (interior_char_word x Hxi) in Hb.
    rewrite (interior_char_word c Hci) in Hb. discriminate.
Qed.

(** A pattern that must consume a character that no interior has, and that
    cannot consume the closing bracket, does not match from inside a
    placeholder. *)
Lemma avoid_must p :
  allowed_pat p "]" = false ->
  must_pat (fun c => interior_char c = false) p ->
  forall t n v u rest,
    interior t n = v ++ u -> u <> [] ->
    mt_pat p (lastc (Some "["%char) v) (u ++ "]"%char :: rest) = [].
Proof.
  intros Hc Hm t n v u rest Hi Hu.
  destruct (mt_pat _ _ _) as [|[[gs w] r] l] eqn:E; [reflexivity|]. exfalso.
  assert (In (gs, w, r) (mt_pat p (lastc (Some "["%char) v)
                                (u ++ "]"%char :: rest))) as H
      by (rewrite E; now left).
  pose proof (mt_pat_must _ p _ _ _ _ _ Hm H) as Hex.
  apply mt_pat_sound in H as (Hs & Hw & _).
  assert (~ In "]"%char w) as Hno.
  { intro Hin. rewrite Forall_forall in Hw. apply Hw in Hin. congruence. }
  symmetry in Hs. destruct (prefix_before _ _ _ _ _ Hs Hno) as [u2 ->].
  pose proof (interior_chars t n) as Hint. rewrite Hi in Hint.
  apply Forall_app in Hint as [_ Hint]. apply Forall_app in Hint as [Hint _].
  apply Exists_exists in Hex as (c & Hin & Hc').
  rewrite Forall_forall in Hint. apply Hint in Hin. congruence.
Qed.

Lemma digit_allowed_cc c :
  allowed (seqs [ Rep is_digit 4 (Some 4); Rep dash_space 0 (Some 1);
                  Rep is_digit 4 (Some 4); Rep dash_space 0 (Some 1);
                  Rep is_digit 4 (Some 4); Rep dash_space 0 (Some 1);
                  Rep is_digit 1 (Some 7) ]) c = true ->
  interior_char c = true -> is_digit c = true.
Proof. destruct c as [[] [] [] [] [] [] [] []]; vm_compute; congruence. Qed.

Lemma credit_card_scannable : scannable PrivacyGateway.credit_card_pattern.
Proof.
  split; try reflexivity.
  - cbn. lia.
  - apply avoid_digits; [apply digit_allowed_cc | cbn; lia].
Qed.

Lemma digit_allowed_ssn c :
  allowed (seqs [ Rep is_digit 3 (Some 3); Rep dash_space 0 (Some 1);
                  Rep is_digit 2 (Some 2); Rep dash_space 0 (Some 1);
                  Rep is_digit 4 (Some 4) ]) c = true ->
  interior_char c = true -> is_digit c = true.
Proof. destruct c as [[] [] [] [] [] [] [] []]; vm_compute; congruence. Qed.

Lemma ssn_scannable : scannable PrivacyGateway.ssn_pattern.
Proof.
  split; try reflexivity.
  - cbn. lia.
  - apply avoid_digits; [apply digit_allowed_ssn | cbn; lia].
Qed.

Lemma digit_allowed_phone c :
  allowed (seqs [ Rep (is_char "(") 0 (Some 1); Rep is_digit 3 (Some 3);
                  Rep (is_char ")") 0 (Some 1); Rep dash_dot_space 0 (Some 1);
                  Rep is_digit 3 (Some 3); Rep dash_dot_space 0 (Some 1);
                  Rep is_digit 4 (Some 4) ]) c = true ->
  interior_char c = true -> is_digit c = true.
Proof. destruct c as [[] [] [] [] [] [] [] []]; vm_compute; congruence. Qed.

Lemma phone_scannable : scannable PrivacyGateway.phone_pattern.
Proof.
  split; try reflexivity.
  - cbn. lia.
  - apply avoid_digits; [apply digit_allowed_phone | cbn; lia].
Qed.

Lemma char_not_interior x c :
  interior_char x = false -> is_char x c = true -> interior_char c = false.
Proof. intros Hx Hc. apply is_char_true in Hc. now subst. Qed.

Lemma space_not_interior c : is_space c = true -> interior_char c = false.
Proof. destruct c as [[] [] [] [] [] [] [] []]; vm_compute; congruence. Qed.

Lemma colon_not_interior c :
  is_char_ci ":" c = true -> interior_char c = false.
Proof. destruct c as [[] [] [] [] [] [] [] []]; vm_compute; congruence. Qed.

Lemma email_scannable : scannable PrivacyGateway.email_pattern.
Proof.
  split; try reflexivity.
  - cbn. lia.
  - apply avoid_must; [reflexivity|].
    unfold PrivacyGateway.email_pattern. right. left.
    cbn [part_re seqs must]. right. left.
    intros c. now apply char_not_interior.
Qed.

Lemma lead_my_name_is_must :
  must (fun c => interior_char c = false) PrivacyGateway.lead_my_name_is.
Proof.
  unfold PrivacyGateway.lead_my_name_is. cbn [must]. right.
  split; [lia | apply space_not_interior].
Qed.

Lemma lead_im_must :
  must (fun c => interior_char c = false) PrivacyGateway.lead_im.
Proof.
  unfold PrivacyGateway.lead_im. cbn [seqs must]. right. right. right.
  split; [lia | apply space_not_interior].
Qed.

Lemma lead_i_am_must :
  must (fun c => interior_char c = false) PrivacyGateway.lead_i_am.
Proof.
  unfold PrivacyGateway.lead_i_am. cbn [must]. right.
  split; [lia | apply space_not_interior].
Qed.

Lemma lead_name_colon_must :
  must (fun c => interior_char c = false) PrivacyGateway.lead_name_colon.
Proof.
  unfold PrivacyGateway.lead_name_colon, lit_ci.
  cbn [must s2l list_ascii_of_string map seqs]. left.
  do 4 right. apply colon_not_interior.
Qed.

Lemma name_scannable lead :
  allowed lead "[" = false -> allowed lead "]" = false -> 0 < min_len lead ->
  must (fun c => interior_char c = false) lead ->
  scannable [Grp lead; Grp PrivacyGateway.name_re].
Proof.
  intros Ho Hc Hl Hm. split.
  - unfold allowed_pat. cbn [existsb part_re]. now rewrite Ho.
  - unfold allowed_pat. cbn [existsb part_re]. now rewrite Hc.
  - cbn. lia.
  - apply avoid_must.
    + unfold allowed_pat. cbn [existsb part_re]. now rewrite Hc.
    + now left.
Qed.

(** *** The callbacks *)

Lemma shaped_record body t :
  shaped [Raw Bnd; Grp body; Raw Bnd]
         (fun _ gs st => PrivacyGateway.record t (group gs 1) st).
Proof.
  intros pos gs w st (prev & s & r & l & E).
  assert (In (gs, w, r) (mt_pat [Raw Bnd; Grp body; Raw Bnd] prev s)) as H
      by (rewrite E; now left).
  apply mt_pat_bounded in H as (-> & _). right. exists t, [], w.
  split; [reflexivity|]. cbn [group pred nth app].
  now destruct (PrivacyGateway.record t w st).
Qed.

Lemma shaped_ssn :
  shaped PrivacyGateway.ssn_pattern
    (fun _ gs st =>
       let original := group gs 1 in
       if length (PrivacyGateway.digits_only original) =? 9
       then PrivacyGateway.record PrivacyGateway.ssn original st
       else (original, st)).
Proof.
  intros pos gs w st Hm. cbv zeta. unfold PrivacyGateway.ssn_pattern in Hm.
  destruct (_ =? 9).
  - exact (shaped_record _ PrivacyGateway.ssn pos gs w st Hm).
  - left. destruct Hm as (prev & s & r & l & E).
    assert (In (gs, w, r) (mt_pat PrivacyGateway.ssn_pattern prev s)) as H
        by (unfold PrivacyGateway.ssn_pattern; rewrite E; now left).
    apply mt_pat_bounded in H as (-> & _). reflexivity.
Qed.

Lemma shaped_phone text :
  shaped PrivacyGateway.phone_pattern (PrivacyGateway.phone_replace text).
Proof.
  intros pos gs w st Hm. unfold PrivacyGateway.phone_replace.
  unfold PrivacyGateway.phone_pattern in Hm.
  destruct (negb _).
  - exact (shaped_record _ PrivacyGateway.phone pos gs w st Hm).
  - left. destruct Hm as (prev & s & r & l & E).
    assert (In (gs, w, r) (mt_pat PrivacyGateway.phone_pattern prev s)) as H
        by (unfold PrivacyGateway.phone_pattern; rewrite E; now left).
    apply mt_pat_bounded in H as (-> & _). reflexivity.
Qed.

Lemma shaped_name lead :
  shaped [Grp lead; Grp PrivacyGateway.name_re]
         (fun _ => PrivacyGateway.name_replace 2).
Proof.
  intros pos gs w st (prev & s & r & l & E).
  assert (In (gs, w, r) (mt_pat [Grp lead; Grp PrivacyGateway.name_re] prev s)) as H
      by (rewrite E; now left).
  apply mt_pat_two in H as (g1 & g2 & -> & ->).
  right. exists PrivacyGateway.name, g1, g2. split; [reflexivity|].
  unfold PrivacyGateway.name_replace. cbn [group pred nth].
  now destruct (PrivacyGateway.record PrivacyGateway.name g2 st).
Qed.

(** ** Round trip *)

Lemma mask_credit_cards_masking T text st :
  masking T text st ->
  masking T (fst (PrivacyGateway._mask_credit_cards text st))
            (snd (PrivacyGateway._mask_credit_cards text st)).
Proof.
  apply re_sub_masking; [apply credit_card_scannable | apply shaped_record].
Qed.

Lemma mask_ssn_masking T text st :
  masking T text st ->
  masking T (fst (PrivacyGateway._mask_ssn text st))
            (snd (PrivacyGateway._mask_ssn text st)).
Proof. apply re_sub_masking; [apply ssn_scannable | apply shaped_ssn]. Qed.

Lemma mask_emails_masking T text st :
  masking T text st ->
  masking T (fst (PrivacyGateway._mask_emails text st))
            (snd (PrivacyGateway._mask_emails text st)).
Proof.
  apply re_sub_masking; [apply email_scannable | apply shaped_record].
Qed.

Lemma mask_phone_numbers_masking T text st :
  masking T text st ->
  masking T (fst (PrivacyGateway._mask_phone_numbers text st))
            (snd (PrivacyGateway._mask_phone_numbers text st)).
Proof. apply re_sub_masking; [apply phone_scannable | apply shaped_phone]. Qed.

Lemma name_pattern_masking lead T text st :
  allowed lead "[" = false -> allowed lead "]" = false -> 0 < min_len lead ->
  must (fun c => interior_char c = false) lead ->
  masking T text st ->
  masking T
    (fst (re_sub [Grp lead; Grp PrivacyGateway.name_re]
                 (fun _ => PrivacyGateway.name_replace 2) text st))
    (snd (re_sub [Grp lead; Grp PrivacyGateway.name_re]
                 (fun _ => PrivacyGateway.name_replace 2) text st)).
Proof.
  intros Ho Hc Hl Hm. apply re_sub_masking;
    [now apply name_scannable | apply shaped_name].
Qed.

Lemma mask_names_masking T text st :
  masking T text st ->
  masking T (fst (PrivacyGateway._mask_names text st))
            (snd (PrivacyGateway._mask_names text st)).
Proof.
  unfold PrivacyGateway._mask_names, PrivacyGateway.name_patterns.
  cbn [fold_left]. intro H0.
  pose proof (name_pattern_masking PrivacyGateway.lead_my_name_is T text st
                eq_refl eq_refl ltac:(cbn; lia) lead_my_name_is_must H0) as H1.
  destruct (re_sub [Grp PrivacyGateway.lead_my_name_is; Grp PrivacyGateway.name_re]
                   _ text st) as [t1 s1].
  pose proof (name_pattern_masking PrivacyGateway.lead_im T t1 s1
                eq_refl eq_refl ltac:(cbn; lia) lead_im_must H1) as H2.
  destruct (re_sub [Grp PrivacyGateway.lead_im; Grp PrivacyGateway.name_re]
                   _ t1 s1) as [t2 s2].
  pose proof (name_pattern_masking PrivacyGateway.lead_i_am T t2 s2
                eq_refl eq_refl ltac:(cbn; lia) lead_i_am_must H2) as H3.
  destruct (re_sub [Grp PrivacyGateway.lead_i_am; Grp PrivacyGateway.name_re]
                   _ t2 s2) as [t3 s3].
  exact (name_pattern_masking PrivacyGateway.lead_name_colon T t3 s3
           eq_refl eq_refl ltac:(cbn; lia) lead_name_colon_must H3).
Qed.

(** A text without an opening bracket is a masking of itself under way. *)
Lemma masking_init T : ~ In "["%char T -> masking T T PrivacyGateway.init.
Proof.
  intro H. exists (map Lit T).
  refine (conj _ (conj _ (conj _ (conj _ _)))).
  - now rewrite flat_lits.
  - apply Forall_map. apply Forall_forall. intros c Hc E. cbn in E. subst.
    contradiction.
  - intros k Hk. apply in_map_iff in Hk as [c [Hc _]]. discriminate.
  - apply subst_lits.
  - exists []. apply init_numbered.
Qed.

Lemma mask_masking T st :
  ~ In "["%char T ->
  masking T (fst (fst (PrivacyGateway.mask T st))) (snd (PrivacyGateway.mask T st)).
Proof.
  intro H. unfold PrivacyGateway.mask. rewrite reset_init.
  pose proof (mask_credit_cards_masking T T PrivacyGateway.init (masking_init T H)) as H1.
  destruct (PrivacyGateway._mask_credit_cards T PrivacyGateway.init) as [t1 s1].
  pose proof (mask_ssn_masking T t1 s1 H1) as H2.
  destruct (PrivacyGateway._mask_ssn t1 s1) as [t2 s2].
  pose proof (mask_emails_masking T t2 s2 H2) as H3.
  destruct (PrivacyGateway._mask_emails t2 s2) as [t3 s3].
  pose proof (mask_phone_numbers_masking T t3 s3 H3) as H4.
  destruct (PrivacyGateway._mask_phone_numbers t3 s3) as [t4 s4].
  pose proof (mask_names_masking T t4 s4 H4) as H5.
  destruct (PrivacyGateway._mask_names t4 s4) as [t5 s5].
  exact H5.
Qed.

Lemma tok_item_wf i : tok_item i -> wf_item i.
Proof.
  destruct i as [c|k]; [trivial|]. intros (t & n & ->).
  apply placeholder_bracketed.
Qed.

Lemma subst_unmask T text st :
  masking T text st -> clean_values st ->
  unmask_with (PrivacyGateway.mapping st) text = T.
Proof.
  intros (its & -> & Hits & Hkeys & Hsub & [es Hes]) Hc.
  rewrite unmask_flat; [assumption | |].
  - unfold clean_values in Hc. destruct Hes as [Hm _]. rewrite Hm in *.
    rewrite Forall_map in *. revert Hc. apply Forall_impl.
    intros [[t n] v] Hv. split; [apply placeholder_bracketed | exact Hv].
  - revert Hits. apply Forall_impl. apply tok_item_wf.
Qed.

(** C1, as the code has it.  For every text without an opening bracket,
    unmasking the masked text with the mapping that [mask] returned, or
    with the mapping [mask] left in the instance, gives the text back. *)
Theorem mask_unmask_roundtrip text st st' :
  ~ In "["%char text ->
  PrivacyGateway.unmask (fst (fst (PrivacyGateway.mask text st)))
                        (Some (snd (fst (PrivacyGateway.mask text st)))) st'
  = text /\
  PrivacyGateway.unmask (fst (fst (PrivacyGateway.mask text st)))
                        None (snd (PrivacyGateway.mask text st))
  = text.
Proof.
  intro H. unfold PrivacyGateway.unmask.
  destruct (mask_numbered text st) as [-> _].
  pose proof (subst_unmask text _ _ (mask_masking text st H) (mask_clean text st)).
  now split.
Qed.

Lemma mask_unmask_roundtrip_witness :
  PrivacyGateway.unmask
    (fst (fst (PrivacyGateway.mask sample_text PrivacyGateway.init)))
    (Some (snd (fst (PrivacyGateway.mask sample_text PrivacyGateway.init))))
    PrivacyGateway.init
  = sample_text /\
  PrivacyGateway.unmask
    (fst (fst (PrivacyGateway.mask sample_text PrivacyGateway.init)))
    None (snd (PrivacyGateway.mask sample_text PrivacyGateway.init))
  = sample_text.
Proof.
  apply (mask_unmask_roundtrip sample_text PrivacyGateway.init PrivacyGateway.init).
  unfold sample_text. cbn [s2l list_ascii_of_string In].
  intuition discriminate.
Defined.

(** C1 as stated fails: in a text that has a placeholder literally, the
    literal is unmasked together with the placeholder that [mask] put. *)
Lemma roundtrip_literal_placeholder :
  PrivacyGateway.mask_fresh literal_placeholder_text
  = (s2l "[SSN_1] [SSN_1]", [(s2l "[SSN_1]", s2l "123-45-6789")]) /\
  PrivacyGateway.unmask
    (fst (PrivacyGateway.mask_fresh literal_placeholder_text))
    (Some (snd (PrivacyGateway.mask_fresh literal_placeholder_text)))
    PrivacyGateway.init
  = s2l "123-45-6789 123-45-6789".
Proof. split; vm_compute; reflexivity. Qed.

(** * Further properties *)

(** ** Unmasking a text without placeholders *)

Lemma contains_false_nonempty old s : contains old s = false -> old <> [].
Proof. intros H ->. destruct s; discriminate. Qed.

Lemma unmask_with_absent : forall m text,
  (forall k, In k (keys m) -> contains k text = false) ->
  unmask_with m text = text.
Proof.
  induction m as [|[k v] m IH]; intros text H; [reflexivity|].
  unfold unmask_with. cbn [fold_left]. fold (unmask_with m).
  assert (contains k text = false) as Hk by (apply H; now left).
  rewrite replace_absent; [|now apply (contains_false_nonempty k text)|assumption].
  apply IH. intros k' Hk'. apply H. now right.
Qed.

(** X1. A text in which no key of the mapping occurs comes back from
    [unmask] of either gateway as it is. *)
Theorem unmask_without_placeholders m text pst lst :
  (forall k, In k (keys m) -> contains k text = false) ->
  PrivacyGateway.unmask text (Some m) pst = text /\
  LocalLLMGateway.unmask text (Some m) lst = text.
Proof.
  intro H. unfold PrivacyGateway.unmask, LocalLLMGateway.unmask.
  split; now apply unmask_with_absent.
Qed.

Lemma unmask_without_placeholders_witness :
  PrivacyGateway.unmask (s2l "no token here, only [brackets]")
    (Some (snd (PrivacyGateway.mask_fresh sample_text))) PrivacyGateway.init
  = s2l "no token here, only [brackets]" /\
  LocalLLMGateway.unmask (s2l "no token here, only [brackets]")
    (Some (snd (PrivacyGateway.mask_fresh sample_text))) LocalLLMGateway.init
  = s2l "no token here, only [brackets]".
Proof.
  apply (unmask_without_placeholders
           (snd (PrivacyGateway.mask_fresh sample_text))
           (s2l "no token here, only [brackets]")
           PrivacyGateway.init LocalLLMGateway.init).
  intros k Hk. vm_compute in Hk.
  repeat (destruct Hk as [Hk|Hk]; [subst k; vm_compute; reflexivity|]).
  destruct Hk.
Defined.

(** ** Replies around a JSON object *)

(** X2. Prose before the object without an opening brace, and prose after
    it without a closing brace, are ignored by [detect_pii]: the text it
    parses is the object.  It returns the parse, or the empty dict when
    [json.loads] raises a [json.JSONDecodeError]; any other exception of
    [json.loads] it raises as well. *)
Theorem detect_pii_ignores_prose (json_loads : str -> result json) a m b :
  ~ In "{"%char a -> ~ In "}"%char b ->
  LocalLLMGateway.detect_pii json_loads
    (Ok (a ++ "{"%char :: m ++ "}"%char :: b))
  = match json_loads ("{"%char :: m ++ ["}"%char]) with
    | Ok j => Ok j
    | Raise JSONDecodeError => Ok (JObj [])
    | Raise e => Raise e
    end.
Proof.
  intros Ha Hb.
  unfold LocalLLMGateway.detect_pii, LocalLLMGateway.parse_response.
  now rewrite json_match_span, brace_span_intro.
Qed.

Lemma detect_pii_ignores_prose_witness :
  LocalLLMGateway.detect_pii sample_loads
    (Ok (s2l "Here is the result: " ++ "{"%char :: tl (removelast reply_object)
             ++ "}"%char :: s2l " (one SSN found)"))
  = Ok (JObj [(s2l "ssn", JArr [JStr (s2l "123-45-6789")])]).
Proof.
  apply (detect_pii_ignores_prose sample_loads
           (s2l "Here is the result: ") (tl (removelast reply_object))
           (s2l " (one SSN found)")); cbn; intuition discriminate.
Defined.

(** X3. A reply in which no closing brace comes after an opening brace
    gives the empty dict. *)
Theorem detect_pii_without_braces (json_loads : str -> result json) reply :
  (forall a m b, reply <> a ++ "{"%char :: m ++ "}"%char :: b) ->
  LocalLLMGateway.detect_pii json_loads (Ok reply) = Ok (JObj []).
Proof.
  intro H.
  unfold LocalLLMGateway.detect_pii, LocalLLMGateway.parse_response.
  rewrite json_match_span. destruct (brace_span reply) as [t|] eqn:E; [|reflexivity].
  apply brace_span_elim in E as (a & m & b & -> & _). exfalso. now apply (H a m b).
Qed.

Lemma no_brace_no_split (s : str) :
  ~ In "{"%char s -> forall a m b, s <> a ++ "{"%char :: m ++ "}"%char :: b.
Proof.
  intros H a m b ->. apply H. apply in_or_app. right. now left.
Qed.

Lemma detect_pii_without_braces_witness :
  LocalLLMGateway.detect_pii sample_loads
    (Ok (s2l "I could not find any personal data }."))
  = Ok (JObj []).
Proof.
  apply (detect_pii_without_braces sample_loads
           (s2l "I could not find any personal data }.")).
  apply no_brace_no_split. cbn. intuition discriminate.
Defined.

(** ** The list of models *)

Lemma any_model_named model : forall ms names,
  Forall2 named ms names ->
  LocalLLMGateway.any_model model ms = Ok (existsb (startswith model) names).
Proof.
  induction 1 as [|m name ms names (kv & -> & Hn) _ IH]; [reflexivity|].
  cbn [LocalLLMGateway.any_model LocalLLMGateway.name_startswith existsb].
  rewrite Hn. destruct (startswith model name); [reflexivity | exact IH].
Qed.

(** X4. When the backend answers the model check with status 200 and an
    object whose ["models"] is a list of objects with string names, the
    model is reported available exactly when the configured identifier is
    a prefix of one of the names; nothing is raised. *)
Theorem model_available_by_prefix st o1 kv ms names :
  LocalLLMGateway.obj_get kv (s2l "models") (JArr []) = JArr ms ->
  Forall2 named ms names ->
  LocalLLMGateway.get_status st o1 (LocalLLMGateway.Response 200 (Some (JObj kv)))
  = Ok (answered_200 o1, existsb (startswith (LocalLLMGateway.model st)) names).
Proof.
  intros Hm Hn. unfold LocalLLMGateway.get_status.
  cbn [LocalLLMGateway._check_model_available Nat.eqb].
  rewrite Hm. cbn [LocalLLMGateway.iterate].
  rewrite (any_model_named _ ms names Hn).
  destruct o1 as [|s1 b1]; reflexivity.
Qed.

Lemma model_available_by_prefix_witness :
  LocalLLMGateway.get_status LocalLLMGateway.init
    (LocalLLMGateway.Response 200 None)
    (LocalLLMGateway.Response 200 (Some tags_body))
  = Ok (true, true).
Proof.
  apply (model_available_by_prefix LocalLLMGateway.init
           (LocalLLMGateway.Response 200 None) tags_items tags_models
           [s2l "mistral:7b"; s2l "llama3.1:8b-instruct"]).
  - reflexivity.
  - repeat constructor; eexists; split; reflexivity.
Defined.

Lemma any_model_true model : forall ms,
  LocalLLMGateway.any_model model ms = Ok true ->
  exists m name, In m ms /\ named m name /\ startswith model name = true.
Proof.
  induction ms as [|m ms IH]; intro H; [discriminate|].
  cbn [LocalLLMGateway.any_model] in H.
  destruct (LocalLLMGateway.name_startswith model m) as [[|]|e] eqn:E;
    try discriminate.
  - unfold LocalLLMGateway.name_startswith in E.
    destruct m as [| | | | |kv]; try discriminate.
    destruct (LocalLLMGateway.obj_get kv (s2l "name") (JStr [])) as [| | |s| |] eqn:En;
      try discriminate.
    injection E as Es. exists (JObj kv), s.
    refine (conj _ (conj _ Es)); [now left | now exists kv].
  - destruct (IH H) as (m' & name & Hin & Hn & Hs).
    exists m', name. refine (conj _ (conj Hn Hs)). now right.
Qed.

Lemma iterate_named j elements m name :
  LocalLLMGateway.iterate j = Ok elements -> In m elements -> named m name ->
  j = JArr elements.
Proof.
  intros Hi Hin (kv & -> & _). destruct j as [| | |s|l|kv']; try discriminate.
  - cbn in Hi. inversion Hi; subst. apply in_map_iff in Hin as (c & E & _).
    discriminate.
  - cbn in Hi. now inversion Hi.
  - cbn in Hi. inversion Hi; subst. apply in_map_iff in Hin as ([k v] & E & _).
    discriminate.
Qed.

(** X5. The status page reports the model as available only when the
    backend answered the model check with status 200 and an object whose
    list of models has an entry whose name starts with the configured
    identifier. *)
Theorem model_available_sound gateway o1 o2 :
  snd (fst (App.check_ollama_status gateway o1 o2)) = true ->
  exists kv ms m name,
    o2 = LocalLLMGateway.Response 200 (Some (JObj kv)) /\
    LocalLLMGateway.obj_get kv (s2l "models") (JArr []) = JArr ms /\
    In m ms /\ named m name /\
    startswith (LocalLLMGateway.model gateway) name = true.
Proof.
  unfold App.check_ollama_status, LocalLLMGateway.get_status.
  destruct (LocalLLMGateway._check_ollama_available o1) as [r1|e1]; [|discriminate].
  destruct (LocalLLMGateway._check_model_available
              (LocalLLMGateway.model gateway) o2) as [r2|e2] eqn:E; [|discriminate].
  cbn [fst snd]. intros ->.
  unfold LocalLLMGateway._check_model_available in E.
  destruct o2 as [|status body]; [discriminate|].
  destruct (status =? 200) eqn:Es; [|discriminate].
  apply Nat.eqb_eq in Es. subst status.
  destruct body as [[| | | | |kv]|]; try discriminate.
  destruct (LocalLLMGateway.iterate
              (LocalLLMGateway.obj_get kv (s2l "models") (JArr []))) as [els|e] eqn:Ei;
    [|discriminate].
  destruct (any_model_true _ _ E) as (m & name & Hin & Hn & Hs).
  exists kv, els, m, name.
  refine (conj eq_refl (conj _ (conj Hin (conj Hn Hs)))).
  rewrite (iterate_named _ _ _ _ Ei Hin Hn) in *. reflexivity.
Qed.

Lemma model_available_sound_witness :
  exists kv ms m name,
    LocalLLMGateway.Response 200 (Some tags_body)
    = LocalLLMGateway.Response 200 (Some (JObj kv)) /\
    LocalLLMGateway.obj_get kv (s2l "models") (JArr []) = JArr ms /\
    In m ms /\ named m name /\
    startswith (LocalLLMGateway.model LocalLLMGateway.init) name = true.
Proof.
  apply (model_available_sound LocalLLMGateway.init
           LocalLLMGateway.RequestException
           (LocalLLMGateway.Response 200 (Some tags_body))).
  reflexivity.
Defined.

(** ** The type labels of the web pages *)

Lemma replace_char_nil x : forall s,
  replace [x] [] s = filter (fun c => negb (ascii_eqb x c)) s.
Proof.
  induction s as [|c s IH]; [reflexivity|].
  cbn [filter]. destruct (ascii_eqb x c) eqn:E; cbn [negb].
  - apply ascii_eqb_eq in E. subst c.
    change (x :: s) with ([x] ++ s). rewrite replace_head by discriminate.
    exact IH.
  - rewrite replace_cons; [now rewrite IH | discriminate |].
    cbn [startswith]. now rewrite E.
Qed.

Lemma filter_absent (x : ascii) s :
  ~ In x s -> filter (fun c => negb (ascii_eqb x c)) s = s.
Proof.
  induction s as [|c s IH]; intro H; [reflexivity|]. cbn [filter].
  destruct (ascii_eqb x c) eqn:E.
  - apply ascii_eqb_eq in E. subst. exfalso. apply H. now left.
  - cbn [negb]. rewrite IH; [reflexivity|]. intro Hin. apply H. now right.
Qed.

Lemma rsplit1_absent (x : ascii) : forall s, ~ In x s -> App.rsplit1 [x] s = None.
Proof.
  induction s as [|c s IH]; intro H; [reflexivity|]. cbn [App.rsplit1].
  rewrite IH by (intro Hin; apply H; now right).
  cbn [startswith]. destruct (ascii_eqb x c) eqn:E; [|reflexivity].
  apply ascii_eqb_eq in E. subst. exfalso. apply H. now left.
Qed.

(** Cutting at the last separator. *)
Lemma rsplit1_last (x : ascii) b : ~ In x b -> forall a,
  App.rsplit1 [x] (a ++ x :: b) = Some (a, b).
Proof.
  intros Hb. induction a as [|c a IH]; cbn [app App.rsplit1].
  - rewrite (rsplit1_absent x b Hb). cbn [startswith].
    now rewrite ascii_eqb_refl.
  - now rewrite IH.
Qed.

Lemma interior_name t n :
  interior t n = upper (PrivacyGateway.pii_name t) ++ "_"%char :: dec n.
Proof. unfold interior. now destruct t. Qed.

Lemma digit_not_underscore c : is_digit c = true -> c <> "_"%char.
Proof. destruct c as [[] [] [] [] [] [] [] []]; vm_compute; congruence. Qed.

Lemma pii_type_of_placeholder t n :
  App.pii_type_of (placeholder_of (PrivacyGateway.pii_name t) n)
  = upper (PrivacyGateway.pii_name t).
Proof.
  unfold App.pii_type_of. rewrite placeholder_interior.
  destruct (interior_no_bracket t n) as [Ho Hc].
  change (s2l "[") with ["["%char]. change (s2l "]") with ["]"%char].
  change (s2l "_") with ["_"%char].
  rewrite !replace_char_nil. cbn [filter].
  rewrite ascii_eqb_refl. cbn [negb].
  rewrite filter_app. cbn [filter].
  replace (ascii_eqb "[" "]") with false by reflexivity. cbn [negb].
  rewrite (filter_absent _ _ Ho), filter_app. cbn [filter].
  rewrite ascii_eqb_refl. cbn [negb].
  rewrite (filter_absent _ _ Hc), app_nil_r, interior_name.
  unfold App.rsplit1_head. rewrite rsplit1_last; [reflexivity|].
  intro Hin. pose proof (dec_digits n) as Hd. rewrite Forall_forall in Hd.
  apply Hd in Hin. now apply digit_not_underscore in Hin.
Qed.

(** X6. The list of detected items that the web pages build from the
    mapping of the pattern-based [mask] has, for every entry of the
    mapping in order, the uppercased name of the category of the entry as
    its type and the original value as its value. *)
Theorem detected_pii_labels text :
  exists es,
    snd (PrivacyGateway.mask_fresh text) = map render es /\
    App.detected_pii (snd (PrivacyGateway.mask_fresh text)) = map type_label es.
Proof.
  unfold PrivacyGateway.mask_fresh.
  destruct (mask_numbered text PrivacyGateway.init) as [-> [es [Hm Hn]]].
  exists es. split; [assumption|]. rewrite Hm. unfold App.detected_pii.
  rewrite map_map. apply map_ext. intros [[t n] v].
  unfold render, type_label. cbn [entry_type entry_num entry_value fst snd].
  now rewrite pii_type_of_placeholder.
Qed.

(** ** The counters after a call of [mask] *)

Lemma key_test t t' n :
  startswith (tok_prefix t') (placeholder_of (PrivacyGateway.pii_name t) n)
  = pii_eqb t t'.
Proof.
  rewrite placeholder_pii. destruct t, t'; try (cbv -[dec]; reflexivity).
Qed.

Lemma category_keys t es :
  filter (startswith (tok_prefix t)) (keys (map render es))
  = map (placeholder_of (PrivacyGateway.pii_name t)) (numbers_of t es).
Proof.
  unfold keys, numbers_of.
  induction es as [|[[t' n] v] es IH]; [reflexivity|].
  cbn [map filter fst render entry_type entry_num entry_value snd].
  rewrite key_test. destruct (pii_eqb t' t) eqn:E.
  - apply pii_eqb_eq in E. subst. cbn [map entry_num fst snd]. now rewrite IH.
  - apply IH.
Qed.

Lemma entries_by_category (es : list entry) :
  length es
  = length (numbers_of PrivacyGateway.credit_card es)
    + length (numbers_of PrivacyGateway.ssn es)
    + length (numbers_of PrivacyGateway.email es)
    + length (numbers_of PrivacyGateway.phone es)
    + length (numbers_of PrivacyGateway.name es).
Proof.
  unfold numbers_of. induction es as [|[[t n] v] es IH]; [reflexivity|].
  cbn [length filter entry_type fst]. rewrite IH.
  destruct t; cbn [pii_eqb map length]; lia.
Qed.

(** X7. After a call of [mask] the counters of the instance count the
    entries of the mapping: the counter of every category is the number of
    keys of the mapping that are placeholders of the category, and the
    length of the mapping is the sum of the five counters. *)
Theorem counters_count_entries text st :
  (forall t,
      length (filter (startswith (tok_prefix t))
                     (keys (snd (fst (PrivacyGateway.mask text st)))))
      = PrivacyGateway.counter
          (PrivacyGateway.counters (snd (PrivacyGateway.mask text st))) t) /\
  length (snd (fst (PrivacyGateway.mask text st)))
  = PrivacyGateway.c_credit_card (PrivacyGateway.counters (snd (PrivacyGateway.mask text st)))
    + PrivacyGateway.c_ssn (PrivacyGateway.counters (snd (PrivacyGateway.mask text st)))
    + PrivacyGateway.c_email (PrivacyGateway.counters (snd (PrivacyGateway.mask text st)))
    + PrivacyGateway.c_phone (PrivacyGateway.counters (snd (PrivacyGateway.mask text st)))
    + PrivacyGateway.c_name (PrivacyGateway.counters (snd (PrivacyGateway.mask text st))).
Proof.
  destruct (mask_numbered text st) as [-> [es [Hm Hn]]]. rewrite Hm. split.
  - intro t. now rewrite category_keys, length_map, Hn, length_seq.
  - rewrite length_map, entries_by_category, !Hn, !length_seq. reflexivity.
Qed.

(** ** The values of the model-assisted masker *)

Lemma dict_set_Forall_key (P : str * str -> Prop) d k v :
  Forall P d -> P (k, v) -> Forall P (dict_set d k v).
Proof.
  intros Hd Hv. induction Hd as [|[k' v'] d Hx Hd IH]; cbn [dict_set].
  - constructor; [exact Hv | constructor].
  - destruct (str_eqb k' k) eqn:E; constructor; auto.
    apply str_eqb_eq in E. now subst.
Qed.

Lemma value_steps_values (P : str * str -> Prop) cat : forall values t m n,
  (forall k v, In v values -> v <> [] -> P (k, v)) ->
  Forall P m ->
  Forall P (snd (fst (fold_left (value_step cat) values (t, m, n)))).
Proof.
  induction values as [|v values IH]; intros t m n HP Hm; [exact Hm|].
  cbn [fold_left].
  assert (forall k v', In v' values -> v' <> [] -> P (k, v')) as HP'
      by (intros k v' Hin; apply HP; now right).
  unfold value_step at 2. destruct v as [|c v]; [now apply IH|].
  destruct (contains (c :: v) t); [|now apply IH].
  apply IH; [assumption|]. apply dict_set_Forall_key; [assumption|].
  apply HP; [now left | discriminate].
Qed.

Lemma category_steps_values (P : str * str -> Prop) : forall d t m,
  (forall cat values k v, In (cat, values) d -> In v values -> v <> [] -> P (k, v)) ->
  Forall P m ->
  Forall P (snd (fold_left category_step d (t, m))).
Proof.
  induction d as [|[cat values] d IH]; intros t m HP Hm; [exact Hm|].
  cbn [fold_left].
  change (category_step (t, m) (cat, values))
    with (fst (fold_left (value_step cat) values (t, m, 0))).
  pose proof (value_steps_values P cat values t m 0) as H.
  destruct (fold_left (value_step cat) values (t, m, 0)) as [[t2 m2] n2].
  cbn [fst snd] in *. apply IH.
  - intros cat' values' k v Hin. apply (HP cat' values'). now right.
  - apply H; [|assumption].
    intros k v Hin Hne. apply (HP cat values); [now left | assumption | assumption].
Qed.

(** X8. Every value of the mapping that the model-assisted [mask] returns
    is a value of the detection result that is not empty. *)
Theorem llm_values_from_detection text detected_pii k v :
  In (k, v) (snd (LocalLLMGateway.mask_fresh text detected_pii)) ->
  v <> [] /\ exists cat values, In (cat, values) detected_pii /\ In v values.
Proof.
  unfold LocalLLMGateway.mask_fresh. rewrite llm_mask_eq. unfold mask_by_values.
  intro H.
  pose proof (category_steps_values
                (fun kv => snd kv <> [] /\
                           exists cat values, In (cat, values) detected_pii
                                              /\ In (snd kv) values)
                detected_pii text []) as K.
  assert (Forall (fun kv : str * str =>
                    snd kv <> [] /\
                    exists cat values, In (cat, values) detected_pii
                                       /\ In (snd kv) values)
                 (snd (fold_left category_step detected_pii (text, [])))) as K'.
  { apply K; [|constructor].
    intros cat values k' v' H1 H2 H3. split; [assumption|]. now exists cat, values. }
  rewrite Forall_forall in K'. exact (K' (k, v) H).
Qed.

Lemma llm_values_from_detection_witness :
  s2l "John" <> [] /\
  exists cat values,
    In (cat, values) [(s2l "names", [s2l "John"; s2l "Zed"])] /\ In (s2l "John") values.
Proof.
  apply (llm_values_from_detection (s2l "John met Al")
           [(s2l "names", [s2l "John"; s2l "Zed"])] (s2l "[NAMES_1]") (s2l "John")).
  vm_compute. now left.
Defined.

Lemma value_steps_absent cat : forall values t m n,
  (forall v, In v values -> v = [] \/ contains v t = false) ->
  fold_left (value_step cat) values (t, m, n) = (t, m, n).
Proof.
  induction values as [|v values IH]; intros t m n H; [reflexivity|].
  cbn [fold_left].
  assert (value_step cat (t, m, n) v = (t, m, n)) as ->.
  { unfold value_step. destruct v as [|c v]; [reflexivity|].
    destruct (H (c :: v) ltac:(now left)) as [E|E]; [discriminate|].
    now rewrite E. }
  apply IH. intros v' Hin. apply H. now right.
Qed.

Lemma category_steps_absent : forall d t m,
  (forall cat values v, In (cat, values) d -> In v values ->
                        v = [] \/ contains v t = false) ->
  fold_left category_step d (t, m) = (t, m).
Proof.
  induction d as [|[cat values] d IH]; intros t m H; [reflexivity|].
  cbn [fold_left].
  assert (category_step (t, m) (cat, values) = (t, m)) as ->.
  { unfold category_step. rewrite value_steps_absent; [reflexivity|].
    intros v Hin. apply (H cat values); [now left | assumption]. }
  apply IH. intros cat' values' v Hin. apply (H cat' values'). now right.
Qed.

(** X9. When no value of the detection result that is not empty occurs in
    the text, the model-assisted [mask] returns the text as it is, with
    the empty mapping. *)
Theorem llm_mask_nothing_present text detected_pii st :
  (forall cat values v, In (cat, values) detected_pii -> In v values ->
                        v = [] \/ contains v text = false) ->
  fst (LocalLLMGateway.mask text detected_pii st) = (text, []).
Proof.
  intro H. rewrite llm_mask_eq. unfold mask_by_values.
  now apply category_steps_absent.
Qed.

Lemma llm_mask_nothing_present_witness :
  fst (LocalLLMGateway.mask stale_text stale_detection LocalLLMGateway.init)
  = (stale_text, []).
Proof.
  apply (llm_mask_nothing_present stale_text stale_detection LocalLLMGateway.init).
  intros cat values v Hd Hv. unfold stale_detection in Hd.
  repeat (destruct Hd as [Hd|Hd];
          [inversion Hd; subst; clear Hd;
           repeat (destruct Hv as [Hv|Hv];
                   [subst v; first [left; reflexivity | right; vm_compute; reflexivity]|]);
           destruct Hv|]).
  destruct Hd.
Defined.

(** ** The parts of a match *)

Lemma rep_ends_bound p : forall s hi m r h,
  In (m, r) (rep_ends p hi s) -> hi = Some h -> length m <= h.
Proof.
  induction s as [|c s IH]; intros hi m r h H Hh; cbn [rep_ends] in H.
  - destruct H as [H|[]]. inversion H; subst. cbn. lia.
  - destruct (p c && hi_allows hi) eqn:E.
    + apply in_app_iff in H as [H|[H|[]]].
      * apply in_map_iff in H as [[m' r'] [E' H]]. inversion E'; subst.
        apply andb_true_iff in E as [_ E]. destruct h as [|h]; [discriminate|].
        cbn [length]. apply le_n_S. eapply IH; [exact H | reflexivity].
      * inversion H; subst. cbn. lia.
    + destruct H as [H|[]]. inversion H; subst. cbn. lia.
Qed.

Lemma mt_rep_inv p lo hi prev s m rest :
  In (m, rest) (mt (Rep p lo hi) prev s) ->
  Forall (fun c => p c = true) m /\ lo <= length m /\
  forall h, hi = Some h -> length m <= h.
Proof.
  cbn [mt]. intro H. apply filter_In in H as [H Hlo]. apply Nat.leb_le in Hlo.
  split; [now apply rep_ends_sound in H|]. split; [assumption|].
  intros h Hh. eapply rep_ends_bound; eauto.
Qed.

Lemma mt_seq_inv r1 r2 prev s m rest :
  In (m, rest) (mt (Seq r1 r2) prev s) ->
  exists m1 m2 s1,
    m = m1 ++ m2 /\ In (m1, s1) (mt r1 prev s) /\
    In (m2, rest) (mt r2 (lastc prev m1) s1).
Proof.
  cbn [mt]. intro H. apply in_flat_map in H as [[m1 s1] [H1 H2]].
  apply in_map_iff in H2 as [[m2 s2] [E H2]]. inversion E; subst.
  now exists m1, m2, s1.
Qed.

Lemma mt_pat_two_parts r1 r2 prev s gs w rest :
  In (gs, w, rest) (mt_pat [Grp r1; Grp r2] prev s) ->
  exists g1 g2 s1,
    gs = [g1; g2] /\ w = g1 ++ g2 /\
    In (g1, s1) (mt r1 prev s) /\ In (g2, rest) (mt r2 (lastc prev g1) s1).
Proof.
  cbn [mt_pat part_re]. intro H.
  apply in_flat_map in H as [[m1 s1] [H1 H2]].
  apply in_map_iff in H2 as [[[gs2 w2] s2] [E2 H2]]. inversion E2; subst.
  apply in_flat_map in H2 as [[m2 s3] [H2 H3]].
  cbn in H3. destruct H3 as [H3|[]]. inversion H3; subst.
  exists m1, m2, s1. now rewrite app_nil_r.
Qed.

Lemma filter_keep (p q : ascii -> bool) m :
  Forall (fun c => p c = true) m -> (forall c, p c = true -> q c = true) ->
  filter q m = m.
Proof.
  intros H Hpq. induction H as [|c m Hc _ IH]; [reflexivity|].
  cbn [filter]. now rewrite (Hpq c Hc), IH.
Qed.

Lemma filter_drop (p q : ascii -> bool) m :
  Forall (fun c => p c = true) m -> (forall c, p c = true -> q c = false) ->
  filter q m = [].
Proof.
  intros H Hpq. induction H as [|c m Hc _ IH]; [reflexivity|].
  cbn [filter]. now rewrite (Hpq c Hc), IH.
Qed.

Lemma dash_space_not_digit c : dash_space c = true -> is_digit c = false.
Proof. destruct c as [[] [] [] [] [] [] [] []]; vm_compute; congruence. Qed.

Lemma dash_dot_space_not_digit c : dash_dot_space c = true -> is_digit c = false.
Proof. destruct c as [[] [] [] [] [] [] [] []]; vm_compute; congruence. Qed.

Lemma digit_not_dash_space c : is_digit c = true -> negb (dash_space c) = true.
Proof. destruct c as [[] [] [] [] [] [] [] []]; vm_compute; congruence. Qed.

Lemma dash_space_dropped c : dash_space c = true -> negb (dash_space c) = false.
Proof. now intros ->. Qed.

Lemma paren_not_digit x c :
  is_digit x = false -> is_char x c = true -> is_digit c = false.
Proof. intros Hx Hc. apply is_char_true in Hc. now subst. Qed.

Lemma digit_count_app a b : digit_count (a ++ b) = digit_count a + digit_count b.
Proof. unfold digit_count. now rewrite filter_app, length_app. Qed.

Lemma digit_count_digits m :
  Forall (fun c => is_digit c = true) m -> digit_count m = length m.
Proof. intro H. unfold digit_count. now rewrite (filter_keep is_digit is_digit). Qed.

Lemma digit_count_none (p : ascii -> bool) m :
  Forall (fun c => p c = true) m -> (forall c, p c = true -> is_digit c = false) ->
  digit_count m = 0.
Proof. intros H Hp. unfold digit_count. now rewrite (filter_drop p is_digit). Qed.

(** The parts of a match of a sequence of repetitions, one after the
    other. *)
Ltac split_match H :=
  repeat match type of H with
         | In (_, _) (mt (Seq _ _) _ _) =>
             let m1 := fresh "m" in
             let m2 := fresh "m" in
             let s1 := fresh "s" in
             let E := fresh "E" in
             let H1 := fresh "H" in
             apply mt_seq_inv in H as (m1 & m2 & s1 & E & H1 & H);
             apply mt_rep_inv in H1 as (? & ? & ?); subst
         end;
  apply mt_rep_inv in H as (? & ? & ?).



Lemma digits_only_app a b :
  PrivacyGateway.digits_only (a ++ b)
  = PrivacyGateway.digits_only a ++ PrivacyGateway.digits_only b.
Proof. apply filter_app. Qed.

Lemma digits_only_digits m :
  Forall (fun c => is_digit c = true) m -> PrivacyGateway.digits_only m = m.
Proof.
  intro H. unfold PrivacyGateway.digits_only.
  apply (filter_keep is_digit); auto using digit_not_dash_space.
Qed.

Lemma digits_only_seps m :
  Forall (fun c => dash_space c = true) m -> PrivacyGateway.digits_only m = [].
Proof.
  intro H. unfold PrivacyGateway.digits_only.
  apply (filter_drop dash_space); auto using dash_space_dropped.
Qed.

Lemma digit_count_dash_space m :
  Forall (fun c => dash_space c = true) m -> digit_count m = 0.
Proof. intro H. apply (digit_count_none dash_space); auto using dash_space_not_digit. Qed.

Lemma digit_count_dash_dot_space m :
  Forall (fun c => dash_dot_space c = true) m -> digit_count m = 0.
Proof. intro H. apply (digit_count_none dash_dot_space); auto using dash_dot_space_not_digit. Qed.

Lemma digit_count_char x m :
  is_digit x = false ->
  Forall (fun c => is_char x c = true) m -> digit_count m = 0.
Proof.
  intros Hx H. apply (digit_count_none (is_char x)); [assumption|].
  intros c Hc. eapply paren_not_digit; eauto.
Qed.

(** What is known of the parts, as equations on their lengths and on their
    digits. *)
Ltac part_facts :=
  repeat match goal with
         | K : forall h, Some _ = Some h -> _ |- _ =>
             pose proof (K _ eq_refl); clear K
         | K : forall h, None = Some h -> _ |- _ => clear K
         end;
  repeat match goal with
         | K : Forall (fun c => is_digit c = true) ?m |- _ =>
             rewrite ?(digits_only_digits m K), ?(digit_count_digits m K);
             clear K
         | K : Forall (fun c => dash_space c = true) ?m |- _ =>
             rewrite ?(digits_only_seps m K), ?(digit_count_dash_space m K);
             clear K
         | K : Forall (fun c => dash_dot_space c = true) ?m |- _ =>
             rewrite ?(digit_count_dash_dot_space m K);
             clear K
         | K : Forall (fun c => is_char ?x c = true) ?m |- _ =>
             rewrite ?(digit_count_char x m eq_refl K);
             clear K
         end.

(** The digits of a match of the SSN pattern are nine. *)
Lemma ssn_match_digits prev s w rest :
  In (w, rest)
     (mt (seqs [ Rep is_digit 3 (Some 3); Rep dash_space 0 (Some 1);
                 Rep is_digit 2 (Some 2); Rep dash_space 0 (Some 1);
                 Rep is_digit 4 (Some 4) ]) prev s) ->
  length (PrivacyGateway.digits_only w) = 9 /\ digit_count w = 9.
Proof.
  cbn [seqs]. intro H. split_match H.
  rewrite !digits_only_app, !digit_count_app.
  part_facts.
  rewrite ?length_app. cbn [length]. lia.
Qed.

Lemma mt_cls_inv p prev s m rest :
  In (m, rest) (mt (Cls p) prev s) -> exists c, m = [c] /\ p c = true.
Proof.
  cbn [mt]. destruct s as [|c s]; [intros []|].
  destruct (p c) eqn:E; [|intros []].
  intros [H|[]]. inversion H; subst. now exists c.
Qed.

Lemma first_match_In p pos gs w :
  first_match p (Match pos gs w) ->
  exists prev s rest, In (gs, w, rest) (mt_pat p prev s).
Proof.
  intros (prev & s & r & l & E). exists prev, s, r. rewrite E. now left.
Qed.

Lemma first_match_body body pos gs w :
  first_match [Raw Bnd; Grp body; Raw Bnd] (Match pos gs w) ->
  gs = [w] /\ exists prev s rest, In (w, rest) (mt body prev s).
Proof.
  intro H. apply first_match_In in H as (prev & s & rest & H).
  apply mt_pat_bounded in H as (-> & H & _). split; [reflexivity|].
  now exists prev, s, rest.
Qed.

(** ** The length test of the SSN scan *)

(** X10. The length test of the SSN scan never fails: the pattern itself
    fixes the number of digits of a match at nine, so the scan replaces
    every match of its pattern, as the card and the address scans do. *)
Theorem ssn_length_test_redundant text st :
  PrivacyGateway._mask_ssn text st
  = re_sub PrivacyGateway.ssn_pattern
           (fun _ gs st => PrivacyGateway.record PrivacyGateway.ssn (group gs 1) st)
           text st.
Proof.
  unfold PrivacyGateway._mask_ssn. rewrite !re_sub_events.
  apply (run_events_ext _ _ (first_match PrivacyGateway.ssn_pattern));
    [|apply scan_events_first_match].
  intros pos gs w st' Hm. cbv zeta.
  apply first_match_body in Hm as (-> & prev & s & rest & Hm).
  cbn [group pred nth].
  apply ssn_match_digits in Hm as [-> _]. reflexivity.
Qed.

(** ** The values of the pattern-based masker *)

Ltac by_cases c := destruct c as [[] [] [] [] [] [] [] []]; vm_compute; congruence.

Lemma card_chars c :
  allowed (seqs [ Rep is_digit 4 (Some 4); Rep dash_space 0 (Some 1);
                  Rep is_digit 4 (Some 4); Rep dash_space 0 (Some 1);
                  Rep is_digit 4 (Some 4); Rep dash_space 0 (Some 1);
                  Rep is_digit 1 (Some 7) ]) c = true ->
  is_digit c || dash_space c = true.
Proof. by_cases c. Qed.

Lemma ssn_chars c :
  allowed (seqs [ Rep is_digit 3 (Some 3); Rep dash_space 0 (Some 1);
                  Rep is_digit 2 (Some 2); Rep dash_space 0 (Some 1);
                  Rep is_digit 4 (Some 4) ]) c = true ->
  is_digit c || dash_space c = true.
Proof. by_cases c. Qed.

Lemma email_chars c :
  allowed (seqs [ Rep email_local 1 None; Cls (is_char "@");
                  Rep email_domain 1 None; Cls (is_char ".");
                  Rep is_alpha 2 None ]) c = true ->
  is_space c = false.
Proof. by_cases c. Qed.

Lemma phone_chars c :
  allowed (seqs [ Rep (is_char "(") 0 (Some 1); Rep is_digit 3 (Some 3);
                  Rep (is_char ")") 0 (Some 1); Rep dash_dot_space 0 (Some 1);
                  Rep is_digit 3 (Some 3); Rep dash_dot_space 0 (Some 1);
                  Rep is_digit 4 (Some 4) ]) c = true ->
  is_digit c || dash_dot_space c || is_char "(" c || is_char ")" c = true.
Proof. by_cases c. Qed.

Lemma name_chars c :
  allowed PrivacyGateway.name_re c = true -> is_alpha c || is_space c = true.
Proof. by_cases c. Qed.

Lemma card_match_ok prev s w rest :
  In (w, rest)
     (mt (seqs [ Rep is_digit 4 (Some 4); Rep dash_space 0 (Some 1);
                 Rep is_digit 4 (Some 4); Rep dash_space 0 (Some 1);
                 Rep is_digit 4 (Some 4); Rep dash_space 0 (Some 1);
                 Rep is_digit 1 (Some 7) ]) prev s) ->
  value_ok PrivacyGateway.credit_card w.
Proof.
  intro H. split.
  - cbn [seqs] in H. split_match H. rewrite !digit_count_app. part_facts. lia.
  - apply mt_sound in H as (_ & H & _).
    eapply Forall_impl; [|exact H]. apply card_chars.
Qed.

Lemma ssn_match_ok prev s w rest :
  In (w, rest)
     (mt (seqs [ Rep is_digit 3 (Some 3); Rep dash_space 0 (Some 1);
                 Rep is_digit 2 (Some 2); Rep dash_space 0 (Some 1);
                 Rep is_digit 4 (Some 4) ]) prev s) ->
  value_ok PrivacyGateway.ssn w.
Proof.
  intro H. split.
  - now apply ssn_match_digits in H.
  - apply mt_sound in H as (_ & H & _).
    eapply Forall_impl; [|exact H]. apply ssn_chars.
Qed.

Lemma phone_match_ok prev s w rest :
  In (w, rest)
     (mt (seqs [ Rep (is_char "(") 0 (Some 1); Rep is_digit 3 (Some 3);
                 Rep (is_char ")") 0 (Some 1); Rep dash_dot_space 0 (Some 1);
                 Rep is_digit 3 (Some 3); Rep dash_dot_space 0 (Some 1);
                 Rep is_digit 4 (Some 4) ]) prev s) ->
  value_ok PrivacyGateway.phone w.
Proof.
  intro H. split.
  - cbn [seqs] in H. split_match H. rewrite !digit_count_app. part_facts. lia.
  - apply mt_sound in H as (_ & H & _).
    eapply Forall_impl; [|exact H]. apply phone_chars.
Qed.

Lemma email_match_ok prev s w rest :
  In (w, rest)
     (mt (seqs [ Rep email_local 1 None; Cls (is_char "@");
                 Rep email_domain 1 None; Cls (is_char ".");
                 Rep is_alpha 2 None ]) prev s) ->
  value_ok PrivacyGateway.email w.
Proof.
  intro H.
  assert (Forall (fun c => is_space c = false) w) as Hs.
  { apply mt_sound in H as (_ & H & _).
    eapply Forall_impl; [|exact H]. apply email_chars. }
  cbn [seqs] in H.
  apply mt_seq_inv in H as (local & m2 & s1 & -> & H1 & H).
  apply mt_seq_inv in H as (at' & m3 & s2 & -> & H2 & H).
  apply mt_seq_inv in H as (domain & m4 & s3 & -> & H3 & H).
  apply mt_seq_inv in H as (dot & tld & s4 & -> & H4 & H).
  apply mt_rep_inv in H1 as (_ & H1 & _).
  apply mt_cls_inv in H2 as (c2 & -> & H2). apply is_char_true in H2. subst c2.
  apply mt_rep_inv in H3 as (_ & H3 & _).
  apply mt_cls_inv in H4 as (c4 & -> & H4). apply is_char_true in H4. subst c4.
  apply mt_rep_inv in H as (Ht & H & _).
  exists local, domain, tld. cbn [app] in *.
  refine (conj eq_refl (conj _ (conj _ (conj H (conj Ht Hs))))).
  - intros ->. cbn in H1. lia.
  - intros ->. cbn in H3. lia.
Qed.

Lemma name_match_ok prev s w rest :
  In (w, rest) (mt PrivacyGateway.name_re prev s) ->
  value_ok PrivacyGateway.name w.
Proof.
  intro H. apply mt_sound in H as (_ & H & Hl). split; [exact Hl|].
  eapply Forall_impl; [|exact H]. apply name_chars.
Qed.

Lemma record_values_ok t v st :
  value_ok t v -> values_ok st -> values_ok (snd (PrivacyGateway.record t v st)).
Proof.
  intros Hv H. unfold values_ok, PrivacyGateway.record, PrivacyGateway._create_placeholder.
  cbn [snd PrivacyGateway.mapping].
  apply dict_set_Forall_key; [exact H|]. eexists t, _. split; [reflexivity | exact Hv].
Qed.

Lemma re_sub_values_ok p f text st :
  records_ok p f -> values_ok st -> values_ok (snd (re_sub p f text st)).
Proof.
  intros Hf H. rewrite re_sub_events.
  apply (run_events_invariant f values_ok (first_match p));
    [|apply scan_events_first_match|exact H].
  intros pos gs w st' Hm H'.
  destruct (Hf pos gs w st' Hm) as [->|(t & v & Hv & ->)]; [exact H'|].
  now apply record_values_ok.
Qed.

Lemma records_ok_bounded body t :
  (forall prev s w rest, In (w, rest) (mt body prev s) -> value_ok t w) ->
  records_ok [Raw Bnd; Grp body; Raw Bnd]
             (fun _ gs st => PrivacyGateway.record t (group gs 1) st).
Proof.
  intros Hb pos gs w st Hm.
  apply first_match_body in Hm as (-> & prev & s & rest & Hm).
  right. exists t, w. split; [eauto | reflexivity].
Qed.

Lemma mask_credit_cards_values_ok text st :
  values_ok st -> values_ok (snd (PrivacyGateway._mask_credit_cards text st)).
Proof.
  apply re_sub_values_ok. apply records_ok_bounded. apply card_match_ok.
Qed.

Lemma mask_ssn_values_ok text st :
  values_ok st -> values_ok (snd (PrivacyGateway._mask_ssn text st)).
Proof.
  apply re_sub_values_ok. intros pos gs w st' Hm. cbv zeta.
  destruct (_ =? 9); [|now left].
  exact (records_ok_bounded _ PrivacyGateway.ssn ssn_match_ok pos gs w st' Hm).
Qed.

Lemma mask_emails_values_ok text st :
  values_ok st -> values_ok (snd (PrivacyGateway._mask_emails text st)).
Proof.
  apply re_sub_values_ok. apply records_ok_bounded. apply email_match_ok.
Qed.

Lemma mask_phone_numbers_values_ok text st :
  values_ok st -> values_ok (snd (PrivacyGateway._mask_phone_numbers text st)).
Proof.
  apply re_sub_values_ok. intros pos gs w st' Hm.
  unfold PrivacyGateway.phone_replace.
  destruct (negb _); [|now left].
  exact (records_ok_bounded _ PrivacyGateway.phone phone_match_ok pos gs w st' Hm).
Qed.

Lemma records_ok_name lead :
  records_ok [Grp lead; Grp PrivacyGateway.name_re]
             (fun _ => PrivacyGateway.name_replace 2).
Proof.
  intros pos gs w st Hm.
  apply first_match_In in Hm as (prev & s & rest & Hm).
  apply mt_pat_two_parts in Hm as (g1 & g2 & s1 & -> & -> & _ & H2).
  right. exists PrivacyGateway.name, g2. split; [now apply name_match_ok in H2|].
  now rewrite name_replace_snd.
Qed.

Lemma mask_names_values_ok text st :
  values_ok st -> values_ok (snd (PrivacyGateway._mask_names text st)).
Proof.
  intro H. unfold PrivacyGateway._mask_names, PrivacyGateway.name_patterns.
  cbn [fold_left].
  match goal with
  | |- context [re_sub ?p ?f text st] =>
      pose proof (re_sub_values_ok p f text st (records_ok_name _) H) as H1;
      destruct (re_sub p f text st) as [t1 s1]
  end.
  match goal with
  | |- context [re_sub ?p ?f t1 s1] =>
      pose proof (re_sub_values_ok p f t1 s1 (records_ok_name _) H1) as H2;
      destruct (re_sub p f t1 s1) as [t2 s2]
  end.
  match goal with
  | |- context [re_sub ?p ?f t2 s2] =>
      pose proof (re_sub_values_ok p f t2 s2 (records_ok_name _) H2) as H3;
      destruct (re_sub p f t2 s2) as [t3 s3]
  end.
  apply re_sub_values_ok; [apply records_ok_name | exact H3].
Qed.

(** X11. Every entry of the mapping that [mask] returns has a value of the
    form of its category: a card number has 13 to 19 digits, an SSN nine and
    a phone number ten, with nothing but the separators of their patterns
    between them; an address is a name, an at sign, a domain, a dot and two
    letters or more, without white space; a personal name has two
    characters at least, letters and white space only. *)
Theorem mask_values_well_formed text st :
  Forall entry_ok (snd (fst (PrivacyGateway.mask text st))).
Proof.
  destruct (mask_numbered text st) as [-> _].
  unfold PrivacyGateway.mask. rewrite reset_init.
  pose proof (mask_credit_cards_values_ok text PrivacyGateway.init) as H1.
  destruct (PrivacyGateway._mask_credit_cards text PrivacyGateway.init) as [t1 s1].
  pose proof (mask_ssn_values_ok t1 s1) as H2.
  destruct (PrivacyGateway._mask_ssn t1 s1) as [t2 s2].
  pose proof (mask_emails_values_ok t2 s2) as H3.
  destruct (PrivacyGateway._mask_emails t2 s2) as [t3 s3].
  pose proof (mask_phone_numbers_values_ok t3 s3) as H4.
  destruct (PrivacyGateway._mask_phone_numbers t3 s3) as [t4 s4].
  pose proof (mask_names_values_ok t4 s4) as H5.
  destruct (PrivacyGateway._mask_names t4 s4) as [t5 s5].
  cbn [fst snd] in *. apply H5, H4, H3, H2, H1. constructor.
Qed.

(** ** A call of [mask] that finds nothing *)

Lemma record_grows t v st :
  is_numbered st ->
  length (PrivacyGateway.mapping (snd (PrivacyGateway.record t v st)))
  = S (length (PrivacyGateway.mapping st)).
Proof.
  intros [es H]. destruct (record_numbered st es t v H) as (_ & -> & _).
  rewrite length_app. cbn [length]. lia.
Qed.

Lemma run_events_quiet p f : shaped p f ->
  forall evs st,
    Forall (first_match p) evs -> is_numbered st ->
    is_numbered (snd (run_events f evs st)) /\
    length (PrivacyGateway.mapping st)
    <= length (PrivacyGateway.mapping (snd (run_events f evs st))) /\
    (length (PrivacyGateway.mapping (snd (run_events f evs st)))
     = length (PrivacyGateway.mapping st) ->
     run_events f evs st = (concat (map event_text evs), st)).
Proof.
  intros Hf. induction evs as [|e evs IH]; intros st HQ Hn.
  - cbn. auto.
  - inversion HQ as [|? ? He Hevs]; subst. cbn [run_events map concat].
    destruct e as [c|pos gs w]; cbn [run_event event_text].
    + specialize (IH st Hevs Hn). destruct (run_events f evs st) as [o2 st2].
      cbn [snd] in *. destruct IH as (I1 & I2 & I3).
      refine (conj I1 (conj I2 _)). intro E. specialize (I3 E).
      now inversion I3; subst.
    + destruct (Hf pos gs w st He) as [E|(t & pre & v & -> & E)]; rewrite E.
      * specialize (IH st Hevs Hn). destruct (run_events f evs st) as [o2 st2].
        cbn [snd] in *. destruct IH as (I1 & I2 & I3).
        refine (conj I1 (conj I2 _)). intro E'. specialize (I3 E').
        now inversion I3; subst.
      * pose proof (record_grows t v st Hn) as Hg.
        pose proof (record_is_numbered t v st Hn) as Hn'.
        specialize (IH _ Hevs Hn').
        destruct (run_events f evs (snd (PrivacyGateway.record t v st))) as [o2 st2].
        cbn [snd] in *. destruct IH as (I1 & I2 & _).
        refine (conj I1 (conj _ _)); lia.
Qed.

Lemma re_sub_quiet p f : shaped p f -> quiet (re_sub p f).
Proof.
  intros Hf text st Hn. rewrite re_sub_events.
  destruct (run_events_quiet p f Hf (finditer p text) st
              (scan_events_first_match p _ _ _ _) Hn) as (I1 & I2 & I3).
  refine (conj I1 (conj I2 _)). intro E. rewrite (I3 E).
  now rewrite finditer_text.
Qed.

Lemma quiet_then f g :
  quiet f -> quiet g ->
  quiet (fun text st => let '(text1, st1) := f text st in g text1 st1).
Proof.
  intros Hf Hg text st Hn. specialize (Hf text st Hn).
  destruct (f text st) as [t1 s1]. cbn [snd] in Hf.
  destruct Hf as (F1 & F2 & F3). specialize (Hg t1 s1 F1).
  destruct Hg as (G1 & G2 & G3).
  refine (conj G1 (conj _ _)); [lia|]. intro E.
  assert (length (PrivacyGateway.mapping s1) = length (PrivacyGateway.mapping st)) as E1 by lia.
  specialize (F3 E1). inversion F3; subst. apply G3. lia.
Qed.

Lemma mask_credit_cards_quiet : quiet PrivacyGateway._mask_credit_cards.
Proof. apply re_sub_quiet, shaped_record. Qed.

Lemma mask_ssn_quiet : quiet PrivacyGateway._mask_ssn.
Proof. apply re_sub_quiet, shaped_ssn. Qed.

Lemma mask_emails_quiet : quiet PrivacyGateway._mask_emails.
Proof. apply re_sub_quiet, shaped_record. Qed.

Lemma mask_phone_numbers_quiet : quiet PrivacyGateway._mask_phone_numbers.
Proof.
  intros text st. unfold PrivacyGateway._mask_phone_numbers.
  apply (re_sub_quiet _ _ (shaped_phone text)).
Qed.

Lemma name_scans_quiet (l : list (pattern * nat)) :
  Forall (fun x => quiet (re_sub (fst x) (fun _ => PrivacyGateway.name_replace (snd x)))) l ->
  quiet (fun text st =>
           fold_left (fun '(text, st) '(pat, group_idx) =>
                        re_sub pat (fun _ => PrivacyGateway.name_replace group_idx) text st)
                     l (text, st)).
Proof.
  induction 1 as [|[pat i] l Hx Hl IH]; intros text st Hn.
  - cbn. auto.
  - cbn [fold_left fst snd] in *.
    destruct (Hx text st Hn) as (F1 & F2 & F3).
    destruct (re_sub pat (fun _ => PrivacyGateway.name_replace i) text st)
      as [t1 s1].
    cbn [snd] in *. destruct (IH t1 s1 F1) as (G1 & G2 & G3).
    refine (conj G1 (conj _ _)); [lia|]. intro E.
    assert (length (PrivacyGateway.mapping s1) = length (PrivacyGateway.mapping st)) as E1 by lia.
    specialize (F3 E1). inversion F3; subst. apply G3. lia.
Qed.

Lemma mask_names_quiet : quiet PrivacyGateway._mask_names.
Proof.
  apply name_scans_quiet. unfold PrivacyGateway.name_patterns.
  repeat (apply Forall_cons; [cbn [fst snd]; apply re_sub_quiet, shaped_name|]).
  apply Forall_nil.
Qed.

(** X12. A call of [mask] that returns an empty mapping returns the text
    it was given: the masker changes a text only where it records an
    entry. *)
Theorem mask_nothing_found text st :
  snd (fst (PrivacyGateway.mask text st)) = [] ->
  fst (fst (PrivacyGateway.mask text st)) = text.
Proof.
  pose proof (quiet_then _ _
                (quiet_then _ _
                   (quiet_then _ _
                      (quiet_then _ _ mask_credit_cards_quiet mask_ssn_quiet)
                      mask_emails_quiet)
                   mask_phone_numbers_quiet)
                mask_names_quiet text PrivacyGateway.init
                (ex_intro _ [] init_numbered)) as (_ & _ & H).
  unfold PrivacyGateway.mask. rewrite reset_init.
  cbv beta in H.
  destruct (PrivacyGateway._mask_credit_cards text PrivacyGateway.init) as [t1 s1].
  destruct (PrivacyGateway._mask_ssn t1 s1) as [t2 s2].
  destruct (PrivacyGateway._mask_emails t2 s2) as [t3 s3].
  destruct (PrivacyGateway._mask_phone_numbers t3 s3) as [t4 s4].
  destruct (PrivacyGateway._mask_names t4 s4) as [t5 s5].
  cbn [fst snd] in *. intro E. rewrite E in H.
  specialize (H eq_refl). now inversion H.
Qed.

Lemma mask_nothing_found_witness :
  fst (fst (PrivacyGateway.mask (s2l "call the office at noon") PrivacyGateway.init))
  = s2l "call the office at noon".
Proof. apply mask_nothing_found. vm_compute. reflexivity. Defined.


(** ** [mask] and [detect_and_mask] on what the model returns *)

Lemma mask_value_falsy pii_type l :
  LocalLLMGateway.mask_value pii_type l [] = l.
Proof. reflexivity. Qed.

Lemma mask_values_texts pii_type : forall vs tail l,
  LocalLLMGateway.mask_values_any pii_type (map JStr vs ++ tail) l
  = LocalLLMGateway.mask_values_any pii_type tail
      (fold_left (LocalLLMGateway.mask_value pii_type) vs l).
Proof.
  induction vs as [|v vs IH]; intros tail l; [reflexivity|].
  cbn [map app LocalLLMGateway.mask_values_any LocalLLMGateway.truthy_json fold_left].
  destruct v as [|c v]; cbn [LocalLLMGateway.truthy]; apply IH.
Qed.

Lemma mask_items_documented : forall d tail l,
  LocalLLMGateway.mask_items_any (detection_items d ++ tail) l
  = LocalLLMGateway.mask_items_any tail
      (fold_left LocalLLMGateway.mask_category d l).
Proof.
  induction d as [|[pii_type values] d IH]; intros tail l; [reflexivity|].
  cbn [detection_items map app LocalLLMGateway.mask_items_any fold_left].
  fold (detection_items d).
  destruct values as [|v values].
  - cbn [map LocalLLMGateway.truthy_json LocalLLMGateway.mask_category]. apply IH.
  - cbn [map LocalLLMGateway.truthy_json LocalLLMGateway.iterate].
    change (JStr v :: map JStr values) with (map JStr (v :: values)).
    rewrite <- (app_nil_r (map JStr (v :: values))), mask_values_texts.
    cbn [LocalLLMGateway.mask_values_any]. rewrite IH. reflexivity.
Qed.

Lemma mask_any_documented json_loads text d call st :
  LocalLLMGateway.mask_any json_loads text (detection_json d) call st
  = (Ok (fst (LocalLLMGateway.mask text d st)), snd (LocalLLMGateway.mask text d st)).
Proof.
  unfold LocalLLMGateway.mask_any, detection_json.
  rewrite <- (app_nil_r (detection_items d)), mask_items_documented.
  reflexivity.
Qed.

(** X13. Given a detection result of the documented form, an object whose
    values are lists of strings, [mask] raises nothing and does not call
    the model: it returns the text and the mapping that the loop over the
    categories and their values computes, and leaves that mapping in the
    instance. *)
Theorem mask_documented_form json_loads text d call st :
  LocalLLMGateway.mask_any json_loads text (detection_json d) call st
  = (Ok (fst (LocalLLMGateway.mask text d st)),
     snd (LocalLLMGateway.mask text d st)).
Proof. apply mask_any_documented. Qed.

(** X14. A value that is neither false nor a string (a card number that
    the model wrote as a number, say) makes [mask] raise a [TypeError] at
    the membership test; nothing is returned, and the instance is left with
    the entries recorded up to that value. *)
Theorem mask_value_not_text json_loads text d k vs j more rest call st :
  LocalLLMGateway.truthy_json j = true ->
  is_text j = false ->
  LocalLLMGateway.mask_any json_loads text
    (JObj (detection_items d ++ (k, JArr (map JStr vs ++ j :: more)) :: rest))
    call st
  = (Raise TypeError,
     LocalLLMGateway.mkState (LocalLLMGateway.model st) (LocalLLMGateway.ollama_url st)
       (snd (fst (LocalLLMGateway.mask text (d ++ [(k, vs)]) st)))).
Proof.
  intros Ht Hj. unfold LocalLLMGateway.mask_any, LocalLLMGateway.mask.
  cbn [fst snd LocalLLMGateway.mapping LocalLLMGateway.model LocalLLMGateway.ollama_url].
  rewrite mask_items_documented, fold_left_app.
  generalize (fold_left LocalLLMGateway.mask_category d
                (LocalLLMGateway.mkLocals text [] [])) as l.
  intro l. cbn [LocalLLMGateway.mask_items_any fold_left].
  assert (LocalLLMGateway.truthy_json (JArr (map JStr vs ++ j :: more)) = true) as ->.
  { now destruct vs. }
  cbn [LocalLLMGateway.iterate]. rewrite mask_values_texts.
  cbn [LocalLLMGateway.mask_values_any]. rewrite Ht.
  assert (forall l', match j with
                     | JStr s => LocalLLMGateway.mask_values_any k more
                                   (LocalLLMGateway.mask_value k l' s)
                     | _ => (l', Some TypeError)
                     end = (l', Some TypeError)) as ->
      by (intro l'; destruct j; try reflexivity; discriminate).
  f_equal. f_equal.
  destruct vs as [|v vs]; [reflexivity|].
  reflexivity.
Qed.

Lemma mask_value_not_text_witness :
  LocalLLMGateway.mask_any sample_loads (s2l "Ann Lee paid with 4111222233334444")
    (JObj card_as_number) (Raise RuntimeError) LocalLLMGateway.init
  = (Raise TypeError,
     LocalLLMGateway.mkState LocalLLMGateway.DEFAULT_OLLAMA_MODEL
       LocalLLMGateway.DEFAULT_OLLAMA_URL
       [(s2l "[NAMES_1]", s2l "Ann Lee")]).
Proof.
  exact (mask_value_not_text sample_loads (s2l "Ann Lee paid with 4111222233334444")
           names_detection (s2l "credit_cards") [] (JNum 4111222233334444) [] []
           (Raise RuntimeError) LocalLLMGateway.init eq_refl eq_refl).
Defined.

(** X15. When the reply of the model holds no document, because it has no
    span from an opening to a closing brace or because [json.loads] raises
    a [json.JSONDecodeError] on that span, [detect_and_mask] raises nothing:
    it reports an empty detection result and returns the text as it was
    given, with an empty mapping. *)
Theorem detect_and_mask_without_document json_loads text response call2 st :
  (forall span, brace_span response = Some span ->
                json_loads span = Raise JSONDecodeError) ->
  LocalLLMGateway.detect_and_mask json_loads text (Ok response) call2 st
  = (Ok (JObj [], text, []),
     LocalLLMGateway.mkState (LocalLLMGateway.model st) (LocalLLMGateway.ollama_url st) []).
Proof.
  intro H. unfold LocalLLMGateway.detect_and_mask, LocalLLMGateway.detect_pii,
    LocalLLMGateway.parse_response.
  rewrite json_match_span.
  destruct (brace_span response) as [span|] eqn:E; [rewrite (H span eq_refl)|];
    reflexivity.
Qed.

Lemma detect_and_mask_without_document_witness :
  LocalLLMGateway.detect_and_mask sample_loads sample_text (Ok no_document_reply)
    (Raise RuntimeError) LocalLLMGateway.init
  = (Ok (JObj [], sample_text, []),
     LocalLLMGateway.mkState LocalLLMGateway.DEFAULT_OLLAMA_MODEL
       LocalLLMGateway.DEFAULT_OLLAMA_URL []).
Proof.
  apply (detect_and_mask_without_document sample_loads sample_text no_document_reply
           (Raise RuntimeError) LocalLLMGateway.init).
  intros span H. vm_compute in H. injection H as <-. reflexivity.
Defined.

(** X16. When the reply of the model holds a detection result of the
    documented form, [detect_and_mask] returns that result with the text
    and the mapping that [mask] computes from it; the model is called once,
    for the detection, and not again by [mask]. *)
Theorem detect_and_mask_documented_form json_loads text response d call2 st :
  LocalLLMGateway.parse_response json_loads response = Ok (detection_json d) ->
  LocalLLMGateway.detect_and_mask json_loads text (Ok response) call2 st
  = (Ok (detection_json d,
         fst (fst (LocalLLMGateway.mask text d st)),
         snd (fst (LocalLLMGateway.mask text d st))),
     snd (LocalLLMGateway.mask text d st)).
Proof.
  intro H. unfold LocalLLMGateway.detect_and_mask, LocalLLMGateway.detect_pii.
  rewrite H, mask_any_documented.
  now destruct (fst (LocalLLMGateway.mask text d st)).
Qed.

Lemma detect_and_mask_documented_form_witness :
  LocalLLMGateway.detect_and_mask sample_loads
    (s2l "Ann Lee called") (Ok (s2l "Result: " ++ names_reply))
    (Raise RuntimeError) LocalLLMGateway.init
  = (Ok (detection_json names_detection,
         fst (fst (LocalLLMGateway.mask (s2l "Ann Lee called") names_detection
                     LocalLLMGateway.init)),
         snd (fst (LocalLLMGateway.mask (s2l "Ann Lee called") names_detection
                     LocalLLMGateway.init))),
     snd (LocalLLMGateway.mask (s2l "Ann Lee called") names_detection
            LocalLLMGateway.init)).
Proof.
  apply (detect_and_mask_documented_form sample_loads
           (s2l "Ann Lee called") (s2l "Result: " ++ names_reply) names_detection
           (Raise RuntimeError) LocalLLMGateway.init).
  vm_compute. reflexivity.
Defined.

(** ** The entries of the mapping and the two texts *)

Lemma traced_app m a b o1 st1 its1 o2 st2 its2 :
  (forall k, In (Tok k) b -> In k (keys m)) ->
  traced m a (o1, st1) its1 ->
  traced (PrivacyGateway.mapping st1) b (o2, st2) its2 ->
  traced m (a ++ b) (o1 ++ o2, st2) (its1 ++ its2).
Proof.
  intros Hb (A1 & A2 & A3 & A4 & A5 & A6 & A7 & A8)
         (B1 & B2 & B3 & B4 & B5 & B6 & B7 & B8).
  cbn [fst snd] in *.
  refine (conj _ (conj _ (conj _ (conj _ (conj _ (conj _ (conj _ _)))))));
    cbn [fst snd].
  - now rewrite flat_app, A1, B1.
  - apply Forall_app. now split.
  - intros k Hk. apply in_app_iff in Hk as [Hk|Hk]; [|now apply B3].
    apply B5. now apply A3.
  - rewrite !subst_app, B4, (subst_extends _ _ its1 A3 B5), A4. f_equal.
    now apply subst_extends.
  - exact (extends_trans _ _ _ A5 B5).
  - assumption.
  - intros k Hk. apply in_app_iff. apply in_app_iff in Hk as [Hk|Hk]; auto.
  - intros k Hk. destruct (B8 k Hk) as [H|H].
    + destruct (A8 k H) as [H'|H']; [now left|]. right. apply in_app_iff. now left.
    + right. apply in_app_iff. now right.
Qed.

Lemma traced_same m its st :
  is_numbered st -> m = PrivacyGateway.mapping st ->
  Forall tok_item its ->
  (forall k, In (Tok k) its -> In k (keys m)) ->
  traced m its (flat its, st) its.
Proof.
  intros Hn -> Hits Hk.
  refine (conj _ (conj _ (conj _ (conj _ (conj _ (conj _ (conj _ _)))))));
    cbn [fst snd]; auto using extends_refl.
Qed.

Section Tracing.
Variable p : pattern.
Variable f : nat -> list str -> PrivacyGateway.state -> str * PrivacyGateway.state.
Hypothesis Hp : scannable p.
Hypothesis Hf : shaped p f.

Lemma run_seg s st :
  seg_ok p s -> is_numbered st ->
  (forall k, In (Tok k) (seg_items s) -> In k (keys (PrivacyGateway.mapping st))) ->
  exists its',
    traced (PrivacyGateway.mapping st) (seg_items s)
           (run_events f (seg_events s) st) its'.
Proof.
  intros Hs Hn Hk.
  destruct s as [c|k|pos gs w]; cbn [seg_events seg_items seg_ok] in *.
  - exists [Lit c]. cbn [run_events run_event].
    apply (traced_same _ [Lit c] st Hn eq_refl); [|exact Hk].
    constructor; [exact Hs | constructor].
  - exists [Tok k]. rewrite run_events_copies.
    replace k with (flat [Tok k]) at 2 by (cbn; apply app_nil_r).
    apply (traced_same _ [Tok k] st Hn eq_refl); [|exact Hk].
    constructor; [exact Hs | constructor].
  - cbn [run_events run_event].
    destruct (Hf pos gs w st Hs) as [E | (t & pre & v & Hw & E)]; rewrite E.
    + exists (map Lit w). rewrite app_nil_r.
      rewrite <- (flat_lits w) at 2.
      apply (traced_same _ (map Lit w) st Hn eq_refl); [|exact Hk].
      now apply (match_plain p Hp pos gs).
    + destruct Hn as [es Hes].
      destruct (record_numbered st es t v Hes) as (Hph & Hmap & _ & Hnum1).
      pose proof (numbered_fresh st es t Hes) as Hfresh.
      set (ph := placeholder_of (PrivacyGateway.pii_name t)
                   (S (PrivacyGateway.counter (PrivacyGateway.counters st) t))) in *.
      exists (map Lit pre ++ [Tok ph]). rewrite app_nil_r.
      refine (conj _ (conj _ (conj _ (conj _ (conj _ (conj _ (conj _ _)))))));
        cbn [fst snd].
      * rewrite flat_app, flat_lits, Hph. cbn. now rewrite app_nil_r.
      * apply Forall_app. split.
        -- pose proof (match_plain p Hp pos gs w Hs) as Hpl. rewrite Hw in Hpl.
           rewrite map_app in Hpl. apply Forall_app in Hpl. tauto.
        -- constructor; [|constructor].
           now exists t, (S (PrivacyGateway.counter (PrivacyGateway.counters st) t)).
      * intros k Hin. apply in_app_iff in Hin as [Hin|[Hin|[]]].
        -- apply in_map_iff in Hin as [c [Hc _]]. discriminate.
        -- inversion Hin; subst k. rewrite Hmap. unfold keys.
           rewrite map_app. apply in_or_app. right. now left.
      * rewrite subst_app, !subst_lits, Hw. f_equal.
        cbn [subst flat_map subst_item]. rewrite Hmap.
        rewrite (dict_get_app_new _ ph v Hfresh). apply app_nil_r.
      * rewrite Hmap. apply extends_app.
      * eexists. exact Hnum1.
      * intros k Hin. apply in_map_iff in Hin as [c [Hc _]]. discriminate.
      * intros k Hin. rewrite Hmap in Hin. unfold keys in Hin.
        rewrite map_app in Hin. apply in_app_iff in Hin as [Hin|[Hin|[]]].
        -- now left.
        -- right. apply in_app_iff. right. left. cbn in Hin. now subst.
Qed.

Lemma run_segs_traced : forall segs st,
  Forall (seg_ok p) segs -> is_numbered st ->
  (forall k, In (Tok k) (segs_items segs) ->
             In k (keys (PrivacyGateway.mapping st))) ->
  exists its',
    traced (PrivacyGateway.mapping st) (segs_items segs)
           (run_events f (segs_events segs) st) its'.
Proof.
  induction segs as [|s segs IH]; intros st Hok Hn Hk.
  - exists []. apply (traced_same _ [] st Hn eq_refl); [constructor | exact Hk].
  - inversion Hok as [|? ? Hs Hok']; subst.
    change (segs_events (s :: segs)) with (seg_events s ++ segs_events segs).
    change (segs_items (s :: segs)) with (seg_items s ++ segs_items segs) in *.
    rewrite run_events_app.
    destruct (run_seg s st Hs Hn) as (its1 & H1).
    { intros k Hin. apply Hk. apply in_app_iff. now left. }
    destruct (run_events f (seg_events s) st) as [o1 st1].
    pose proof H1 as (_ & _ & _ & _ & E1 & N1 & _).
    cbn [fst snd] in E1, N1.
    destruct (IH st1 Hok' N1) as (its2 & H2).
    { intros k Hin. apply E1. apply Hk. apply in_app_iff. now right. }
    destruct (run_events f (segs_events segs) st1) as [o2 st2].
    exists (its1 ++ its2).
    apply (traced_app _ _ _ o1 st1 its1 o2 st2 its2); [|exact H1|exact H2].
    intros k Hin. apply Hk. apply in_app_iff. now right.
Qed.

(** A scan keeps the tokens of the text and the keys of the mapping the
    same. *)
Lemma re_sub_masking_exact T text st :
  masking_exact T text st ->
  masking_exact T (fst (re_sub p f text st)) (snd (re_sub p f text st)).
Proof.
  intros (its & -> & Hits & Hkeys & Hsub & Hnum).
  rewrite re_sub_events. unfold finditer.
  destruct (scan_items p Hp (length its) its None 0 (le_n _) Hits)
    as (segs & Hs1 & Hs2 & Hs3).
  rewrite Hs2.
  destruct (run_segs_traced segs st Hs3 Hnum)
    as (its' & H1 & H2 & H3 & H4 & H5 & H6 & H7 & H8).
  { intros k Hk. apply Hkeys. now rewrite Hs1. }
  exists its'. refine (conj H1 (conj H2 (conj _ (conj _ H6)))).
  - intro k. split; [apply H3|]. intro Hk.
    destruct (H8 k Hk) as [H|H]; [|exact H].
    apply H7. rewrite <- Hs1. now apply Hkeys.
  - now rewrite H4, <- Hs1.
Qed.
End Tracing.

Lemma masking_exact_init T :
  ~ In "["%char T -> masking_exact T T PrivacyGateway.init.
Proof.
  intro H. exists (map Lit T).
  refine (conj _ (conj _ (conj _ (conj _ _)))).
  - now rewrite flat_lits.
  - apply Forall_map. apply Forall_forall. intros c Hc E. cbn in E. subst.
    contradiction.
  - intro k. split.
    + intro Hk. apply in_map_iff in Hk as [c [Hc _]]. discriminate.
    + intros [].
  - apply subst_lits.
  - exists []. apply init_numbered.
Qed.

Lemma mask_names_masking_exact T text st :
  masking_exact T text st ->
  masking_exact T (fst (PrivacyGateway._mask_names text st))
                  (snd (PrivacyGateway._mask_names text st)).
Proof.
  unfold PrivacyGateway._mask_names, PrivacyGateway.name_patterns.
  cbn [fold_left]. intro H0.
  pose proof (re_sub_masking_exact _ _
                (name_scannable PrivacyGateway.lead_my_name_is
                   eq_refl eq_refl ltac:(cbn; lia) lead_my_name_is_must)
                (shaped_name _) T text st H0) as H1.
  destruct (re_sub [Grp PrivacyGateway.lead_my_name_is; Grp PrivacyGateway.name_re]
                   _ text st) as [t1 s1].
  pose proof (re_sub_masking_exact _ _
                (name_scannable PrivacyGateway.lead_im
                   eq_refl eq_refl ltac:(cbn; lia) lead_im_must)
                (shaped_name _) T t1 s1 H1) as H2.
  destruct (re_sub [Grp PrivacyGateway.lead_im; Grp PrivacyGateway.name_re]
                   _ t1 s1) as [t2 s2].
  pose proof (re_sub_masking_exact _ _
                (name_scannable PrivacyGateway.lead_i_am
                   eq_refl eq_refl ltac:(cbn; lia) lead_i_am_must)
                (shaped_name _) T t2 s2 H2) as H3.
  destruct (re_sub [Grp PrivacyGateway.lead_i_am; Grp PrivacyGateway.name_re]
                   _ t2 s2) as [t3 s3].
  exact (re_sub_masking_exact _ _
           (name_scannable PrivacyGateway.lead_name_colon
              eq_refl eq_refl ltac:(cbn; lia) lead_name_colon_must)
           (shaped_name _) T t3 s3 H3).
Qed.

Lemma mask_credit_cards_masking_exact T text st :
  masking_exact T text st ->
  masking_exact T (fst (PrivacyGateway._mask_credit_cards text st))
                  (snd (PrivacyGateway._mask_credit_cards text st)).
Proof.
  apply re_sub_masking_exact; [apply credit_card_scannable | apply shaped_record].
Qed.

Lemma mask_ssn_masking_exact T text st :
  masking_exact T text st ->
  masking_exact T (fst (PrivacyGateway._mask_ssn text st))
                  (snd (PrivacyGateway._mask_ssn text st)).
Proof. apply re_sub_masking_exact; [apply ssn_scannable | apply shaped_ssn]. Qed.

Lemma mask_emails_masking_exact T text st :
  masking_exact T text st ->
  masking_exact T (fst (PrivacyGateway._mask_emails text st))
                  (snd (PrivacyGateway._mask_emails text st)).
Proof.
  apply re_sub_masking_exact; [apply email_scannable | apply shaped_record].
Qed.

Lemma mask_phone_numbers_masking_exact T text st :
  masking_exact T text st ->
  masking_exact T (fst (PrivacyGateway._mask_phone_numbers text st))
                  (snd (PrivacyGateway._mask_phone_numbers text st)).
Proof. apply re_sub_masking_exact; [apply phone_scannable | apply shaped_phone]. Qed.

Lemma mask_masking_exact T st :
  ~ In "["%char T ->
  masking_exact T (fst (fst (PrivacyGateway.mask T st)))
                (snd (PrivacyGateway.mask T st)).
Proof.
  intro H. unfold PrivacyGateway.mask. rewrite reset_init.
  pose proof (mask_credit_cards_masking_exact T T PrivacyGateway.init
                (masking_exact_init T H)) as H1.
  destruct (PrivacyGateway._mask_credit_cards T PrivacyGateway.init) as [t1 s1].
  pose proof (mask_ssn_masking_exact T t1 s1 H1) as H2.
  destruct (PrivacyGateway._mask_ssn t1 s1) as [t2 s2].
  pose proof (mask_emails_masking_exact T t2 s2 H2) as H3.
  destruct (PrivacyGateway._mask_emails t2 s2) as [t3 s3].
  pose proof (mask_phone_numbers_masking_exact T t3 s3 H3) as H4.
  destruct (PrivacyGateway._mask_phone_numbers t3 s3) as [t4 s4].
  pose proof (mask_names_masking_exact T t4 s4 H4) as H5.
  destruct (PrivacyGateway._mask_names t4 s4) as [t5 s5].
  exact H5.
Qed.

(** X17. For a text without an opening bracket, the mapping that [mask]
    returns has no idle entry: the placeholder of every entry occurs in the
    masked text, and its value occurs in the text that was given. *)
Theorem mapping_entries_used T st k v :
  ~ In "["%char T ->
  In (k, v) (snd (fst (PrivacyGateway.mask T st))) ->
  contains k (fst (fst (PrivacyGateway.mask T st))) = true /\
  contains v T = true.
Proof.
  intros HT Hin. destruct (mask_numbered T st) as [Em _]. rewrite Em in Hin.
  destruct (mask_masking_exact T st HT) as (its & Ht & _ & Hk & Hs & [es Hes]).
  assert (In (Tok k) its) as Htok.
  { apply Hk. unfold keys. apply in_map_iff. now exists (k, v). }
  apply in_split in Htok as (a & b & ->).
  split.
  - rewrite Ht. apply contains_iff. exists (flat a), (flat b).
    rewrite flat_app. reflexivity.
  - rewrite <- Hs. apply contains_iff.
    exists (subst (PrivacyGateway.mapping (snd (PrivacyGateway.mask T st))) a),
           (subst (PrivacyGateway.mapping (snd (PrivacyGateway.mask T st))) b).
    rewrite subst_app. f_equal. unfold subst at 1. cbn [flat_map subst_item].
    now rewrite (dict_get_In _ k v (numbered_NoDup _ es Hes) Hin).
Qed.

Lemma mapping_entries_used_witness :
  contains (s2l "[SSN_1]") (fst (fst (PrivacyGateway.mask sample_text PrivacyGateway.init))) = true /\
  contains (s2l "123-45-6789") sample_text = true.
Proof.
  apply (mapping_entries_used sample_text PrivacyGateway.init
           (s2l "[SSN_1]") (s2l "123-45-6789")).
  - vm_compute. intuition discriminate.
  - vm_compute. tauto.
Defined.

(** ** The round trip of the model-assisted masker *)

Lemma placeholder_of_inj c1 n1 c2 n2 :
  placeholder_of c1 n1 = placeholder_of c2 n2 -> upper c1 = upper c2 /\ n1 = n2.
Proof.
  unfold placeholder_of. change (s2l "[") with ["["%char].
  change (s2l "_") with ["_"%char]. change (s2l "]") with ["]"%char].
  cbn [app]. intro H. injection H as H.
  assert (forall n, ~ In "_"%char (dec n ++ ["]"%char])) as Hd.
  { intros n Hin. apply in_app_iff in Hin as [Hin|[Hin|[]]]; [|discriminate].
    pose proof (dec_digits n) as K. rewrite Forall_forall in K.
    apply K in Hin. now apply digit_not_underscore in Hin. }
  pose proof (rsplit1_last "_"%char _ (Hd n1) (upper c1)) as E1.
  pose proof (rsplit1_last "_"%char _ (Hd n2) (upper c2)) as E2.
  rewrite H, E2 in E1. injection E1 as Eu Ed.
  apply app_inv_tail, dec_inj in Ed. now split.
Qed.

Lemma upper_of_bracket c :
  (existsb (ascii_eqb "[") (upper_of c) = true -> c = "["%char) /\
  (existsb (ascii_eqb "]") (upper_of c) = true -> c = "]"%char).
Proof. destruct c as [[] [] [] [] [] [] [] []]; vm_compute; split; congruence. Qed.

Lemma upper_plain s : plain s -> plain (upper s).
Proof.
  intros [Ho Hc]. unfold upper. split; intro H;
    apply in_flat_map in H as [c [Hin H]].
  - assert (c = "["%char) as -> by
        (apply upper_of_bracket, existsb_exists; exists "["%char;
         split; [assumption | apply ascii_eqb_refl]).
    contradiction.
  - assert (c = "]"%char) as -> by
        (apply upper_of_bracket, existsb_exists; exists "]"%char;
         split; [assumption | apply ascii_eqb_refl]).
    contradiction.
Qed.

Lemma placeholder_of_bracketed cat n : plain cat -> bracketed (placeholder_of cat n).
Proof.
  intro H. apply upper_plain in H as [Ho Hc].
  destruct (dec_no_bracket n) as [Do Dc].
  exists (upper cat ++ "_"%char :: dec n). split; [|split].
  - unfold placeholder_of. cbn. now rewrite <- app_assoc.
  - intro Hin. apply in_app_iff in Hin as [Hin|[Hin|Hin]];
      [contradiction | discriminate | contradiction].
  - intro Hin. apply in_app_iff in Hin as [Hin|[Hin|Hin]];
      [contradiction | discriminate | contradiction].
Qed.

(** The search for [old] passes over a stretch of text in which no
    occurrence starts. *)
Lemma replace_block old new : forall b rest,
  old <> [] ->
  (forall b1 b2, b = b1 ++ b2 -> b2 <> [] -> startswith old (b2 ++ rest) = false) ->
  replace old new (b ++ rest) = b ++ replace old new rest.
Proof.
  induction b as [|c b IH]; intros rest Hold H; [reflexivity|].
  cbn [app]. rewrite replace_cons; [|assumption|].
  - rewrite IH; [reflexivity | assumption |].
    intros b1 b2 E Hne. apply (H (c :: b1) b2); [now rewrite E | assumption].
  - apply (H [] (c :: b)); [reflexivity | discriminate].
Qed.

(** A value that does not occur in a token is not found from inside the
    token. *)
Lemma replace_through_token v ph k rest :
  v <> [] -> ~ In "]"%char v -> bracketed k -> contains v k = false ->
  replace v ph (k ++ rest) = k ++ replace v ph rest.
Proof.
  intros Hv Hc (body & -> & _) Hk. apply replace_block; [assumption|].
  intros b1 b2 E Hne.
  destruct (startswith v (b2 ++ rest)) eqn:Es; [|reflexivity]. exfalso.
  apply startswith_iff in Es as [r Er].
  destruct (exists_last Hne) as (b2' & x & ->).
  assert (x = "]"%char) as ->.
  { change ("["%char :: body ++ ["]"%char]) with (("["%char :: body) ++ ["]"%char]) in E.
    rewrite app_assoc in E. now apply app_inj_tail in E as [_ E]. }
  rewrite <- app_assoc in Er. cbn [app] in Er. symmetry in Er.
  destruct (prefix_before "]"%char v r b2' rest Er Hc) as [z ->].
  assert (contains v ("["%char :: body ++ ["]"%char]) = true) as K.
  { apply contains_iff. exists b1, (z ++ ["]"%char]).
    rewrite E. now rewrite <- !app_assoc. }
  congruence.
Qed.

(** A text without an opening bracket at the start of a tokenised text is
    made of characters of it. *)
Lemma prefix_lits : forall v its,
  ~ In "["%char v -> Forall wf_item its -> startswith v (flat its) = true ->
  exists its2, its = map Lit v ++ its2.
Proof.
  induction v as [|x v IH]; intros its Hv Hits Hs; [now exists its|].
  destruct its as [|i its]; [discriminate|].
  inversion Hits as [|? ? Hi Hits']; subst.
  destruct i as [c|k].
  - cbn [flat flat_map item_text app startswith] in Hs. fold (flat its) in Hs.
    apply andb_true_iff in Hs as [Hx Hs]. apply ascii_eqb_eq in Hx. subst c.
    destruct (IH its) as [its2 ->]; auto.
    + intro Hin. apply Hv. now right.
    + now exists its2.
  - exfalso. destruct (bracketed_head k Hi) as [r ->].
    cbn [flat flat_map item_text app startswith] in Hs.
    apply andb_true_iff in Hs as [Hx _]. apply ascii_eqb_eq in Hx. subst x.
    apply Hv. now left.
Qed.

Lemma subst_cons m i its : subst m (i :: its) = subst_item m i ++ subst m its.
Proof. reflexivity. Qed.

Lemma subst_item_app_l m m2 k :
  In k (keys m) -> subst_item (m ++ m2) (Tok k) = subst_item m (Tok k).
Proof. intro H. cbn [subst_item]. now rewrite dict_get_app_l. Qed.

(** Replacing a value in a tokenised text puts the new token where the
    value is among the characters, and nowhere else. *)
Lemma mask_flat v ph m :
  v <> [] -> plain v -> ~ In ph (keys m) ->
  forall n its,
    length its <= n -> Forall wf_item its ->
    (forall k, In (Tok k) its -> In k (keys m) /\ contains v k = false) ->
    exists its',
      replace v ph (flat its) = flat its' /\
      (forall i, In i its' -> In i its \/ i = Tok ph) /\
      subst (m ++ [(ph, v)]) its' = subst m its.
Proof.
  intros Hv [Hvo Hvc] Hph. induction n as [|n IH]; intros its Hn Hits Hk.
  { destruct its; [|cbn in Hn; lia]. exists []. cbn [flat flat_map].
    rewrite replace_nil by assumption. repeat split. intros i []. }
  destruct its as [|i its].
  { exists []. cbn [flat flat_map].
    rewrite replace_nil by assumption. repeat split. intros i []. }
  inversion Hits as [|? ? Hi Hits']; subst. cbn [length] in Hn.
  destruct i as [c|k].
  - destruct (startswith v (flat (Lit c :: its))) eqn:Es.
    + destruct (prefix_lits v _ Hvo Hits Es) as [its2 E]. rewrite E.
      assert (length (Lit c :: its) = length v + length its2) as Hl
          by (rewrite E, length_app, length_map; reflexivity).
      assert (0 < length v) as Hlv by (destruct v; [congruence | cbn; lia]).
      cbn [length] in Hl.
      assert (Forall wf_item its2) as Hits2.
      { rewrite E in Hits. now apply Forall_app in Hits as [_ Hits]. }
      destruct (IH its2) as (its2' & R1 & R2 & R3); [lia | assumption | |].
      { intros k Hin. apply Hk. rewrite E. apply in_app_iff. now right. }
      exists (Tok ph :: its2'). split; [|split].
      * rewrite flat_app, flat_lits, replace_head by assumption.
        rewrite R1. cbn [flat flat_map item_text]. reflexivity.
      * intros i [<-|Hin]; [now right|].
        destruct (R2 i Hin) as [H|H]; [|now right].
        left. apply in_app_iff. now right.
      * rewrite subst_app, subst_lits, subst_cons. cbn [subst_item].
        replace (dict_get (m ++ [(ph, v)]) ph) with (Some v)
          by (symmetry; now apply dict_get_app_new).
        now rewrite R3.
    + destruct (IH its) as (its1' & R1 & R2 & R3); [lia | assumption | |].
      { intros k Hin. apply Hk. now right. }
      exists (Lit c :: its1'). split; [|split].
      * cbn [flat flat_map item_text app] in *. fold (flat its) in *.
        fold (flat its1'). rewrite replace_cons by assumption. now rewrite R1.
      * intros i [<-|Hin]; [left; now left|].
        destruct (R2 i Hin) as [H|H]; [left; now right | now right].
      * rewrite !subst_cons. now rewrite R3.
  - destruct (Hk k ltac:(now left)) as [Hkm Hkv].
    destruct (IH its) as (its1' & R1 & R2 & R3); [lia | assumption | |].
    { intros k' Hin. apply Hk. now right. }
    exists (Tok k :: its1'). split; [|split].
    + cbn [flat flat_map item_text]. fold (flat its). fold (flat its1').
      rewrite replace_through_token by assumption. now rewrite R1.
    + intros i [<-|Hin]; [left; now left|].
      destruct (R2 i Hin) as [H|H]; [left; now right | now right].
    + rewrite !subst_cons, R3. f_equal. now apply subst_item_app_l.
Qed.

Lemma keys_below_fresh done cat n m :
  ~ In (upper cat) (map (fun item : str * list str => upper (fst item)) done) ->
  keys_below done cat n m -> ~ In (placeholder_of cat (S n)) (keys m).
Proof.
  intros Hc Hb Hin. destruct (Hb _ Hin) as [(c & vs & j & Hd & E)|(j & Hj & E)].
  - apply placeholder_of_inj in E as [E _]. apply Hc. rewrite E.
    apply in_map_iff. now exists (c, vs).
  - apply placeholder_of_inj in E as [_ E]. lia.
Qed.

Section Separable.
Variable d : LocalLLMGateway.detection.
Variable T : str.
Hypothesis Hd : separable d.

(** One value. *)
Lemma value_step_masking done cat values v t m n :
  In (cat, values) d -> In v values -> S n <= length values ->
  ~ In (upper cat) (map (fun item : str * list str => upper (fst item)) done) ->
  llm_masking d T t m -> keys_below done cat n m ->
  llm_masking d T (fst (fst (value_step cat (t, m, n) v)))
              (snd (fst (value_step cat (t, m, n) v))) /\
  keys_below done cat (snd (value_step cat (t, m, n) v))
             (snd (fst (value_step cat (t, m, n) v))) /\
  snd (value_step cat (t, m, n) v) <= S n.
Proof.
  intros Hcat Hv Hn Hc Hm Hb. unfold value_step.
  destruct v as [|c v]; [cbn [fst snd]; auto|].
  destruct (contains (c :: v) t) eqn:Ec; [|cbn [fst snd]; auto].
  cbn [fst snd].
  destruct Hd as [_ Hd']. destruct (Hd' cat values Hcat) as (_ & Hpc & Hvs).
  destruct (Hvs (c :: v) Hv) as [Hpv Hsep].
  specialize (Hsep ltac:(discriminate)).
  pose proof (keys_below_fresh done cat n m Hc Hb) as Hfresh.
  rewrite (dict_set_fresh _ _ _ Hfresh).
  destruct Hm as (its & -> & Hits & Hwf & Htok & Hsub).
  destruct (mask_flat (c :: v) (placeholder_of cat (S n)) m
              ltac:(discriminate) Hpv Hfresh (length its) its (le_n _) Hits)
    as (its' & R1 & R2 & R3).
  { intros k Hk. destruct (Htok k Hk) as [H1 (cat' & values' & n' & H2 & H3 & ->)].
    split; [assumption|]. now apply (Hsep cat' values' n'). }
  split; [|split; [|lia]].
  - exists its'. refine (conj R1 (conj _ (conj _ (conj _ _)))).
    + apply Forall_forall. intros i Hi. destruct (R2 i Hi) as [H| ->].
      * rewrite Forall_forall in Hits. now apply Hits.
      * now apply placeholder_of_bracketed.
    + apply Forall_app. split; [assumption|].
      constructor; [|constructor]. cbn [fst snd].
      split; [now apply placeholder_of_bracketed | apply Hpv].
    + intros k Hk. unfold keys. rewrite map_app. cbn [map fst].
      destruct (R2 _ Hk) as [H|H].
      * destruct (Htok k H) as [H1 H2]. split; [|exact H2].
        apply in_app_iff. now left.
      * injection H as ->. split; [apply in_app_iff; right; now left|].
        exists cat, values, (S n). repeat split; auto; lia.
    + exact (eq_trans R3 Hsub).
  - intros k Hk. unfold keys in Hk. rewrite map_app in Hk.
    apply in_app_iff in Hk as [Hk|[Hk|[]]].
    + destruct (Hb k Hk) as [H|(j & Hj & E)]; [now left|].
      right. exists j. split; [lia | assumption].
    + right. exists (S n). split; [lia | now rewrite <- Hk].
Qed.

(** The values of one category. *)
Lemma value_steps_masking done cat values_all :
  In (cat, values_all) d ->
  ~ In (upper cat) (map (fun item : str * list str => upper (fst item)) done) ->
  forall values t m n,
    (forall v, In v values -> In v values_all) ->
    n + length values <= length values_all ->
    llm_masking d T t m -> keys_below done cat n m ->
    llm_masking d T (fst (fst (fold_left (value_step cat) values (t, m, n))))
                (snd (fst (fold_left (value_step cat) values (t, m, n)))) /\
    keys_below done cat (snd (fold_left (value_step cat) values (t, m, n)))
               (snd (fst (fold_left (value_step cat) values (t, m, n)))).
Proof.
  intros Hcat Hc. induction values as [|v values IH]; intros t m n Hin Hn Hm Hb.
  - cbn. now split.
  - cbn [fold_left]. cbn [length] in Hn.
    assert (S n <= length values_all) as Hn1 by lia.
    destruct (value_step_masking done cat values_all v t m n Hcat
                (Hin v (or_introl eq_refl)) Hn1 Hc Hm Hb) as (S1 & S2 & S3).
    destruct (value_step cat (t, m, n) v) as [[t1 m1] n1]. cbn [fst snd] in *.
    apply IH; [|lia|assumption|assumption].
    intros v' Hv'. apply Hin. now right.
Qed.

(** The categories, one after the other. *)
Lemma category_steps_masking : forall rest done t m,
  d = done ++ rest ->
  llm_masking d T t m ->
  (forall k, In k (keys m) -> exists c vs j, In (c, vs) done /\ k = placeholder_of c j) ->
  llm_masking d T (fst (fold_left category_step rest (t, m)))
              (snd (fold_left category_step rest (t, m))).
Proof.
  induction rest as [|[cat values] rest IH]; intros done t m E Hm Hk; [exact Hm|].
  cbn [fold_left].
  assert (In (cat, values) d) as Hcat
      by (rewrite E; apply in_app_iff; right; now left).
  assert (~ In (upper cat)
            (map (fun item : str * list str => upper (fst item)) done)) as Hc.
  { destruct Hd as [Hnd _]. rewrite E, map_app in Hnd. cbn [map fst] in Hnd.
    apply NoDup_remove_2 in Hnd. intro Hin. apply Hnd. apply in_app_iff. now left. }
  destruct (value_steps_masking done cat values Hcat Hc values t m 0) as [S1 S2];
    auto.
  { intros k Hin. left. now apply Hk. }
  change (category_step (t, m) (cat, values))
    with (fst (fold_left (value_step cat) values (t, m, 0))).
  destruct (fold_left (value_step cat) values (t, m, 0)) as [[t1 m1] n1].
  cbn [fst snd] in *.
  apply (IH (done ++ [(cat, values)])).
  - now rewrite <- app_assoc.
  - assumption.
  - intros k Hin. destruct (S2 k Hin) as [(c & vs & j & H1 & H2)|(j & _ & H2)].
    + exists c, vs, j. split; [apply in_app_iff; now left | assumption].
    + exists cat, values, j. split; [apply in_app_iff; right; now left | assumption].
Qed.
End Separable.

Lemma llm_masking_init d T : ~ In "["%char T -> llm_masking d T T [].
Proof.
  intro H. exists (map Lit T). refine (conj _ (conj _ (conj _ (conj _ _)))).
  - now rewrite flat_lits.
  - apply Forall_map. apply Forall_forall. intros c Hc E. cbn in E. subst.
    contradiction.
  - constructor.
  - intros k Hk. apply in_map_iff in Hk as [c [Hc _]]. discriminate.
  - apply subst_lits.
Qed.

Lemma llm_mask_unmask text d :
  ~ In "["%char text -> separable d ->
  unmask_with (snd (mask_by_values text d)) (fst (mask_by_values text d)) = text.
Proof.
  intros Ht Hd. unfold mask_by_values.
  destruct (category_steps_masking d text Hd d [] text [] eq_refl
              (llm_masking_init d text Ht))
    as (its & E & Hits & Hwf & _ & Hsub).
  { intros k []. }
  transitivity (unmask_with (snd (fold_left category_step d (text, []))) (flat its));
    [f_equal; exact E|].
  transitivity (subst (snd (fold_left category_step d (text, []))) its);
    [now apply unmask_flat | exact Hsub].
Qed.

(** X18. The model-assisted masker gives the text back: for a text without
    an opening bracket and a detection result whose category names have
    their capitals among the 8-bit code points and are distinct when
    uppercased, whose names and values have no bracket, and whose values do
    not occur inside the placeholders it can give rise to,
    unmasking the masked text, with the mapping that [mask] returned or with
    the one it left in the instance, gives the text that was masked. *)
Theorem llm_mask_unmask_roundtrip text d st st' :
  ~ In "["%char text ->
  separable d ->
  LocalLLMGateway.unmask (fst (fst (LocalLLMGateway.mask text d st)))
                         (Some (snd (fst (LocalLLMGateway.mask text d st)))) st'
  = text /\
  LocalLLMGateway.unmask (fst (fst (LocalLLMGateway.mask text d st)))
                         None (snd (LocalLLMGateway.mask text d st))
  = text.
Proof.
  intros Ht Hd. unfold LocalLLMGateway.unmask.
  assert (LocalLLMGateway.mapping (snd (LocalLLMGateway.mask text d st))
          = snd (fst (LocalLLMGateway.mask text d st))) as -> by reflexivity.
  rewrite llm_mask_eq. split; now apply llm_mask_unmask.
Qed.

(** A value with a small letter does not occur in a placeholder. *)
Lemma upper_of_not_lower c :
  forallb (fun x => negb (is_lower x)) (upper_of c) = true.
Proof. destruct c as [[] [] [] [] [] [] [] []]; reflexivity. Qed.

Lemma digit_not_lower c : is_digit c = true -> is_lower c = false.
Proof. destruct c as [[] [] [] [] [] [] [] []]; vm_compute; congruence. Qed.

Lemma placeholder_not_lower cat n :
  Forall (fun c => is_lower c = false) (placeholder_of cat n).
Proof.
  unfold placeholder_of. repeat (apply Forall_app; split).
  - constructor; [reflexivity | constructor].
  - unfold upper. apply Forall_forall. intros x Hx.
    apply in_flat_map in Hx as [c [_ Hx]].
    pose proof (upper_of_not_lower c) as K. rewrite forallb_forall in K.
    apply K in Hx. now destruct (is_lower x).
  - constructor; [reflexivity | constructor].
  - generalize (dec_digits n). apply Forall_impl. intro c. apply digit_not_lower.
  - constructor; [reflexivity | constructor].
Qed.

Lemma lower_not_in_placeholder v cat n :
  existsb is_lower v = true -> contains v (placeholder_of cat n) = false.
Proof.
  intro H. destruct (contains v (placeholder_of cat n)) eqn:E; [|reflexivity].
  apply contains_iff in E as (a & b & E).
  apply existsb_exists in H as (c & Hc & Hl).
  pose proof (placeholder_not_lower cat n) as K. rewrite E in K.
  rewrite Forall_forall in K. rewrite K in Hl; [discriminate|].
  apply in_app_iff. right. apply in_app_iff. now left.
Qed.

Lemma letter_detection_separable : separable letter_detection.
Proof.
  split.
  - vm_compute. repeat constructor; cbn; intuition discriminate.
  - intros cat values Hin. unfold letter_detection in Hin.
    destruct Hin as [Hin|[Hin|[]]]; injection Hin as <- <-.
    + split; [reflexivity|]. split; [split; cbn; intuition discriminate|].
      intros v [<-|[<-|[]]]; (split; [split; cbn; intuition discriminate|]);
        intros _ cat' values' n _ _; now apply lower_not_in_placeholder.
    + split; [reflexivity|]. split; [split; cbn; intuition discriminate|].
      intros v [<-|[]]; (split; [split; cbn; intuition discriminate|]);
        intros _ cat' values' n _ _; now apply lower_not_in_placeholder.
Qed.

Lemma llm_mask_unmask_roundtrip_witness :
  LocalLLMGateway.unmask
    (fst (fst (LocalLLMGateway.mask letter_text letter_detection LocalLLMGateway.init)))
    (Some (snd (fst (LocalLLMGateway.mask letter_text letter_detection
                       LocalLLMGateway.init))))
    LocalLLMGateway.init
  = letter_text /\
  LocalLLMGateway.unmask
    (fst (fst (LocalLLMGateway.mask letter_text letter_detection LocalLLMGateway.init)))
    None (snd (LocalLLMGateway.mask letter_text letter_detection LocalLLMGateway.init))
  = letter_text.
Proof.
  apply (llm_mask_unmask_roundtrip letter_text letter_detection
           LocalLLMGateway.init LocalLLMGateway.init).
  - unfold letter_text. cbn [s2l list_ascii_of_string In]. intuition discriminate.
  - exact letter_detection_separable.
Defined.
